(** * A shallow embedding of the 2-d tree point set ([kdtree::PointSet])

    Source files: [include/primitives.h], [src/2dtree.cpp], [src/main.cpp].

    Numbers.  The program computes on [double].  Coordinates are modelled by
    rationals [Q]: every finite [double] is a rational, and coordinates are
    compared as rationals.  [std::numeric_limits<double>::epsilon()] is the
    rational [2^-52].  The differences that [operator==] and
    [Rect::distance] compare with it are kept exact.  [Point::distance] and
    [Rect::intersects] are computed as the program computes them, in IEEE
    754 binary64 arithmetic, rounding to nearest with ties to even: a
    [double] there is a whole number of units of [2^-1074], an infinity or
    NaN.  The sign of zero is not kept: no operation of the program tells
    the two zeros apart. *)

From Stdlib Require Import QArith Qabs Qround ZArith Lia Lqa List Bool Arith.
From Stdlib Require Import PeanoNat Permutation Sorted SetoidList.
From Stdlib Require Import SetoidPermutation.
Import ListNotations.

Open Scope Q_scope.

(** ** Comparisons on [double] values *)

Definition Qltb (a b : Q) : bool := negb (Qle_bool b a).

(** [std::min(a, b)] is [(b < a) ? b : a]. *)
Definition std_min (a b : Q) : Q := if Qltb b a then b else a.

(** [std::numeric_limits<double>::epsilon()] *)
Definition eps : Q := 1 # 4503599627370496.

(** ** [double] arithmetic

    A finite [double] is [n * 2^-1074] for an integer [n]: [2^-1074] is the
    smallest positive [double], and every finite [double] is a multiple of
    it. *)

Inductive double : Set :=
| finite (n : Z)
| plus_inf
| minus_inf
| NaN.

(** [2^1074], the number of units in 1. *)
Definition denorm_scale : Z := (2 ^ 1074)%Z.

(** Rounding a non-negative rational to the nearest integer, a tie to the
    even one. *)
Definition round_half_even (r : Q) : Z :=
  let f := Qfloor r in
  match Qcompare (r - inject_Z f) (1 # 2) with
  | Lt => f
  | Gt => (f + 1)%Z
  | Eq => if Z.even f then f else (f + 1)%Z
  end.

(** A [double] keeps 53 significant bits: a value of [s] units with
    [2^(52+j) <= s < 2^(53+j)] is rounded to a multiple of [2^j] units;
    below [2^53] units the multiples of one unit are kept. *)
Definition exponent_shift (s : Q) : Z := Z.max 0 (Z.log2 (Qfloor s) - 52).

(** The [double] nearest to [s >= 0] units, in units. *)
Definition round_units (s : Q) : Z :=
  let j := exponent_shift s in
  (round_half_even (s / inject_Z (2 ^ j)) * 2 ^ j)%Z.

(** A rounded value of [2^1024] or more is infinite. *)
Definition of_units (n : Z) : double :=
  if (n <? 2 ^ 2098)%Z then finite n else plus_inf.

Definition negate (d : double) : double :=
  match d with
  | finite n => finite (- n)
  | plus_inf => minus_inf
  | minus_inf => plus_inf
  | NaN => NaN
  end.

(** The [double] nearest to [s] units. *)
Definition round (s : Q) : double :=
  if Qltb s 0 then negate (of_units (round_units (- s)))
  else of_units (round_units s).

(** [a - b] on two finite [double]s. *)
Definition double_sub (a b : Q) : double :=
  round ((a - b) * inject_Z denorm_scale).

(** [a * b] *)
Definition double_mul (a b : double) : double :=
  match a, b with
  | finite u, finite v => round (inject_Z (u * v) / inject_Z denorm_scale)
  | NaN, _ | _, NaN => NaN
  | finite u, plus_inf | plus_inf, finite u =>
      if (u =? 0)%Z then NaN else if (0 <? u)%Z then plus_inf else minus_inf
  | finite u, minus_inf | minus_inf, finite u =>
      if (u =? 0)%Z then NaN else if (0 <? u)%Z then minus_inf else plus_inf
  | plus_inf, plus_inf | minus_inf, minus_inf => plus_inf
  | plus_inf, minus_inf | minus_inf, plus_inf => minus_inf
  end.

(** [std::pow(d, 2)]: the square of [d], rounded once. *)
Definition double_pow2 (d : double) : double :=
  match d with
  | finite n => round (inject_Z (n * n) / inject_Z denorm_scale)
  | plus_inf | minus_inf => plus_inf
  | NaN => NaN
  end.

(** [a + b] *)
Definition double_add (a b : double) : double :=
  match a, b with
  | finite u, finite v => round (inject_Z (u + v))
  | NaN, _ | _, NaN => NaN
  | plus_inf, minus_inf | minus_inf, plus_inf => NaN
  | plus_inf, _ | _, plus_inf => plus_inf
  | minus_inf, _ | _, minus_inf => minus_inf
  end.

(** The square root of [n >= 0] units, in units, up to what rounding
    looks at: the integer part [r] of the root of [n * 2^1074], and a half
    more when the root is not that integer.  (The root of a positive
    [double] is at least [2^537] units and is rounded to a multiple of
    [2^485] units or more.) *)
Definition sqrt_units (n : Z) : Q :=
  let a := (n * denorm_scale)%Z in
  let r := Z.sqrt a in
  if (r * r =? a)%Z then inject_Z r else inject_Z r + (1 # 2).

(** [std::sqrt(d)] *)
Definition double_sqrt (d : double) : double :=
  match d with
  | finite n =>
      if (n <? 0)%Z then NaN else of_units (round_units (sqrt_units n))
  | plus_inf => plus_inf
  | minus_inf | NaN => NaN
  end.

(** [std::abs(d)] *)
Definition double_abs (d : double) : double :=
  match d with
  | finite n => finite (Z.abs n)
  | plus_inf | minus_inf => plus_inf
  | NaN => NaN
  end.

(** [a < b], [a <= b] and [a == b] *)
Definition double_ltb (a b : double) : bool :=
  match a, b with
  | NaN, _ | _, NaN => false
  | finite u, finite v => (u <? v)%Z
  | _, minus_inf => false
  | minus_inf, _ => true
  | plus_inf, _ => false
  | finite _, plus_inf => true
  end.

Definition double_leb (a b : double) : bool :=
  match a, b with
  | NaN, _ | _, NaN => false
  | finite u, finite v => (u <=? v)%Z
  | minus_inf, _ => true
  | _, plus_inf => true
  | _, minus_inf => false
  | plus_inf, finite _ => false
  end.

Definition double_eqb (a b : double) : bool :=
  match a, b with
  | finite u, finite v => (u =? v)%Z
  | plus_inf, plus_inf | minus_inf, minus_inf => true
  | _, _ => false
  end.

(** ** [Point] *)

Record Point : Set := mkPoint { x : Q; y : Q }.

(** [Point::distance] *)
Definition distance (p other : Point) : double :=
  double_sqrt
    (double_add (double_pow2 (double_sub (x p) (x other)))
                (double_pow2 (double_sub (y p) (y other)))).

(** [Point::operator==] *)
Definition Point_eqb (p q : Point) : bool :=
  Qltb (Qabs (x p - x q)) eps && Qltb (Qabs (y p - y q)) eps.

(** ** [Rect] *)

Record Rect : Set := mkRect { left_bottom : Point; right_top : Point }.

Definition xmin (r : Rect) : Q := x (left_bottom r).
Definition ymin (r : Rect) : Q := y (left_bottom r).
Definition xmax (r : Rect) : Q := x (right_top r).
Definition ymax (r : Rect) : Q := y (right_top r).

(** [Rect::distance] *)
Definition Rect_distance (r : Rect) (p : Point) : Q :=
  if Qle_bool (xmin r) (x p) && Qle_bool (x p) (xmax r) then
    if Qle_bool (ymin r) (y p) && Qle_bool (y p) (ymax r) then 0
    else std_min (Qabs (y p - ymin r)) (Qabs (y p - ymax r))
  else std_min (Qabs (x p - xmin r)) (Qabs (x p - xmax r)).

(** [Rect::contains] *)
Definition Rect_contains (r : Rect) (p : Point) : bool :=
  Qltb (Qabs (Rect_distance r p)) eps.

(** ** The tree: [kdtree::PointSet::Node] and [kdtree::PointSet]

    A [NodePtr] is either [nullptr] or a node with its point, its [depth]
    field and its two children.  The [parent] back-reference is not a field
    of this type: [insert] sets it to the node that holds the child, so it is
    recovered from the position of the node (type [Up] below). *)

Inductive Node : Set :=
| nullptr : Node
| mkNode (l : Node) (m_point : Point) (depth : nat) (r : Node) : Node.

Record PointSet : Set := mkPointSet {
  max_depth : nat;
  m_root : Node;
  m_size : nat
}.

(** The default-constructed set, also the state [reBuild] starts from. *)
Definition empty_set : PointSet :=
  {| max_depth := 0; m_root := nullptr; m_size := 0 |}.

(** [empty()] and [size()] *)
Definition empty (t : PointSet) : bool :=
  match m_root t with nullptr => true | mkNode _ _ _ _ => false end.

Definition size (t : PointSet) : nat := m_size t.

(** The test shared by [insert] and [find]:
    [(node->depth % 2 == 0) ? (p.x() <= node.x()) : (p.y() <= node.y())]. *)
Definition toLeft (d : nat) (p node_point : Point) : bool :=
  if Nat.even d then Qle_bool (x p) (x node_point)
  else Qle_bool (y p) (y node_point).

(** [insert(point, node, depth)].  The members [max_depth] and [m_size] it
    updates are threaded through as a pair. *)
Fixpoint insert (point : Point) (node : Node) (dep : nat) (c : nat * nat)
  : Node * (nat * nat) :=
  let c := (Nat.max (fst c) dep, snd c) in
  match node with
  | nullptr => (mkNode nullptr point dep nullptr, (fst c, S (snd c)))
  | mkNode lt pt d rt =>
      if Point_eqb pt point then (node, c)
      else if toLeft d point pt then
        let (lt', c') := insert point lt (S dep) c in (mkNode lt' pt d rt, c')
      else
        let (rt', c') := insert point rt (S dep) c in (mkNode lt pt d rt', c')
  end.

(** [m_root = insert(p, m_root, 0)] *)
Definition insert_root (p : Point) (t : PointSet) : PointSet :=
  let (n, c) := insert p (m_root t) 0 (max_depth t, m_size t) in
  {| max_depth := fst c; m_root := n; m_size := snd c |}.

(** [find(p, node)] *)
Fixpoint find (p : Point) (node : Node) : Node :=
  match node with
  | nullptr => nullptr
  | mkNode lt pt d rt =>
      if Point_eqb pt p then node
      else if toLeft d p pt then find p lt else find p rt
  end.

(** [contains(p)] *)
Definition contains (p : Point) (t : PointSet) : bool :=
  match find p (m_root t) with nullptr => false | mkNode _ _ _ _ => true end.

(** [findPointsInRectangle(node, points, rect)]: the vector [points] after
    the call. *)
Fixpoint findPointsInRectangle (node : Node) (points : list Point) (rect : Rect)
  : list Point :=
  match node with
  | nullptr => points
  | mkNode lt pt d rt =>
      let points :=
        if Rect_contains rect pt then points ++ [pt] else points in
      let goLeft :=
        if Nat.even d then Qle_bool (xmin rect) (x pt)
        else Qle_bool (ymin rect) (y pt) in
      let goRight :=
        if Nat.even d then Qle_bool (x pt) (xmax rect)
        else Qle_bool (y pt) (ymax rect) in
      let points :=
        if goLeft then findPointsInRectangle lt points rect else points in
      if goRight then findPointsInRectangle rt points rect else points
  end.

(** [range(rect)]: the elements between the two returned vector iterators. *)
Definition range (rect : Rect) (t : PointSet) : list Point :=
  findPointsInRectangle (m_root t) [] rect.

(** [findNeighbour(node, point, closest_found)]: [closest_found] after the
    call. *)
Fixpoint findNeighbour (node : Node) (point closest_found : Point) : Point :=
  match node with
  | nullptr => closest_found
  | mkNode lt pt d rt =>
      let dist := distance pt point in
      let closest_found :=
        if double_ltb dist (distance point closest_found) then pt
        else closest_found in
      if double_eqb dist (finite 0) then closest_found
      else
        let delta :=
          if Nat.even d then double_sub (x pt) (x point)
          else double_sub (y pt) (y point) in
        let closest_found :=
          findNeighbour (if double_ltb (finite 0) delta then lt else rt)
            point closest_found in
        if double_leb (distance point closest_found) (double_abs delta)
        then closest_found
        else
          findNeighbour (if double_ltb (finite 0) delta then rt else lt)
            point closest_found
  end.

(** What a call does: it returns a value, or it dereferences a null
    pointer. *)
Inductive outcome (A : Type) : Type :=
| Returns (a : A)
| NullDereference.
Arguments Returns {A} a.
Arguments NullDereference {A}.

(** [nearest(point)]: [*m_root->m_point] is evaluated first. *)
Definition nearest (point : Point) (t : PointSet) : outcome (option Point) :=
  match m_root t with
  | nullptr => NullDereference
  | mkNode _ pt _ _ => Returns (Some (findNeighbour (m_root t) point pt))
  end.

(** The recursive in-order walk (left, self, right). *)
Fixpoint inorder (node : Node) : list Point :=
  match node with
  | nullptr => []
  | mkNode lt pt _ rt => inorder lt ++ pt :: inorder rt
  end.

(** ** The iterator over the live tree

    A reference to a node of the tree gives access to the node and, through
    [parent], to the chain of its ancestors.  [Up] is that chain: the node
    is the root ([parent] is null), or it is the [left] child of a parent
    with a given point, depth and right child, or the [right] child of a
    parent with a given left child, point and depth. *)

Inductive Up : Set :=
| AtRoot : Up
| LeftOf (parent_point : Point) (parent_depth : nat) (parent_right : Node)
         (up : Up) : Up
| RightOf (parent_left : Node) (parent_point : Point) (parent_depth : nat)
          (up : Up) : Up.

(** The [NodePtr] held by an iterator ([m_current]). *)
Inductive NodePtr : Set :=
| null : NodePtr
| at_node (lt : Node) (pt : Point) (d : nat) (rt : Node) (up : Up) : NodePtr.

(** [left(node)] on a non-null node: its leftmost descendant. *)
Fixpoint left_of (lt : Node) (pt : Point) (d : nat) (rt : Node) (up : Up)
  : NodePtr :=
  match lt with
  | nullptr => at_node nullptr pt d rt up
  | mkNode llt lpt ld lrt => left_of llt lpt ld lrt (LeftOf pt d rt up)
  end.

(** [left(node)] *)
Definition left (node : NodePtr) : NodePtr :=
  match node with
  | null => null
  | at_node lt pt d rt up => left_of lt pt d rt up
  end.

(** The pointer [m_root]. *)
Definition root_ptr (t : PointSet) : NodePtr :=
  match m_root t with
  | nullptr => null
  | mkNode lt pt d rt => at_node lt pt d rt AtRoot
  end.

(** [begin()] and [end()] *)
Definition begin (t : PointSet) : NodePtr := left (root_ptr t).
Definition end_ (t : PointSet) : NodePtr := null.

(** The loop of [next]:
    [while (parent != nullptr && parent->right == node)
       { node = parent; parent = parent->parent.lock(); isRight = true; }].
    It returns the node reached, its chain of ancestors and [isRight]. *)
Fixpoint climb (node : Node) (up : Up) (isRight : bool) : Node * Up * bool :=
  match up with
  | RightOf plt ppt pd up' => climb (mkNode plt ppt pd node) up' true
  | AtRoot | LeftOf _ _ _ _ => (node, up, isRight)
  end.

(** [next(root, node)].  The local [isRight] is declared without an
    initial value and is assigned only inside the loop; [isRight0] is the
    value it holds when the loop body is not run. *)
Definition next (isRight0 : bool) (node : NodePtr) : NodePtr :=
  match node with
  | null => null
  | at_node lt pt d rt up =>
      match rt with
      | mkNode rlt rpt rd rrt => left_of rlt rpt rd rrt (RightOf lt pt d up)
      | nullptr =>
          match climb (mkNode lt pt d rt) up isRight0 with
          | (node', AtRoot, isRight) =>
              (* node == root; its parent is null *)
              if isRight then null
              else match node' with
                   | nullptr => null
                   | mkNode lt' pt' d' rt' => at_node lt' pt' d' rt' AtRoot
                   end
          | (node', LeftOf ppt pd prt up', _) => at_node node' ppt pd prt up'
          | (node', RightOf plt ppt pd up', _) =>
              (* not reached: the loop has left every right link behind *)
              at_node plt ppt pd node' up'
          end
      end
  end.

(** The loop [for (auto it = begin(); it != end(); it++)] that pushes each
    element met to a vector, started at [it]: the vector after the loop,
    when the loop stops within [fuel] steps. *)
Fixpoint iterate (fuel : nat) (isRight0 : bool) (it : NodePtr)
  (points : list Point) : option (list Point) :=
  match it with
  | null => Some points
  | at_node _ pt _ _ _ =>
      match fuel with
      | O => None
      | S fuel' => iterate fuel' isRight0 (next isRight0 it) (points ++ [pt])
      end
  end.

Fixpoint count (node : Node) : nat :=
  match node with
  | nullptr => O
  | mkNode lt _ _ rt => (count lt + S (count rt))%nat
  end.

(** The sequence of points met from [begin()] to [end()].  The fuel is the
    number of nodes, one step for each; a loop that has not stopped by then
    never stops ([iterate_never_ends] below). *)
Definition traverse (isRight0 : bool) (t : PointSet) : option (list Point) :=
  iterate (count (m_root t)) isRight0 (begin t) [].

(** ** Bulk build, rebuild and [put]

    Two library calls are parameters of the model: [std::nth_element], whose
    result is specified up to the order inside the two parts, and the test
    [max_depth > 2 * std::log(m_size)] of [reBuild]. *)

Record Library : Type := mkLibrary {
  (** [nth_element cmp v n]: the range [v] after
      [std::nth_element(first, first + n, last, cmp)]. *)
  nth_element : (Point -> Point -> bool) -> list Point -> nat -> list Point;
  (** [depth_exceeds max_depth m_size]:
      [max_depth > 2 * std::log(m_size)]. *)
  depth_exceeds : nat -> nat -> bool
}.

(** What the C++ standard promises of [std::nth_element] and is used here:
    the range is rearranged, nothing is added or lost. *)
Definition nth_element_permutes (L : Library) : Prop :=
  forall cmp v n, Permutation (nth_element L cmp v n) v.

(** The comparator passed by [buildTree]. *)
Definition axis_lt (depth : nat) (lhs rhs : Point) : bool :=
  if Nat.even depth then Qltb (x lhs) (x rhs) else Qltb (y lhs) (y rhs).

(** [std::nth_element(points.begin() + start, points.begin() + middle,
    points.begin() + end, cmp)] on the whole vector. *)
Definition nth_element_in (L : Library) (cmp : Point -> Point -> bool)
  (points : list Point) (start middle end' : nat) : list Point :=
  firstn start points
  ++ nth_element L cmp (firstn (end' - start) (skipn start points))
       (middle - start)
  ++ skipn end' points.

(** [buildTree(tree, points, start, end, depth)]: the tree and the vector
    after the call.  [fuel] bounds the recursion depth; [end - start] is
    enough.  ([end - start] is unsigned in the source; every call has
    [start <= end].) *)
Fixpoint buildTree (L : Library) (fuel : nat) (tree : PointSet)
  (points : list Point) (start end' depth : nat) : PointSet * list Point :=
  match fuel with
  | O => (tree, points)
  | S fuel' =>
      if (end' - start <? 1)%nat then (tree, points)
      else
        let middle := ((end' + start) / 2)%nat in
        let points := nth_element_in L (axis_lt depth) points start middle end' in
        match nth_error points middle with
        | None => (tree, points)
        | Some m =>
            let tree := insert_root m tree in
            let (tree, points) :=
              buildTree L fuel' tree points start middle (S depth) in
            buildTree L fuel' tree points (S middle) end' (S depth)
        end
  end.

(** [buildTree(this, points, 0, points.size(), 0)] *)
Definition build (L : Library) (tree : PointSet) (points : list Point)
  : PointSet :=
  fst (buildTree L (length points) tree points 0 (length points) 0).

(** The constructor, given the points read from the file (none when the
    file cannot be opened). *)
Definition PointSet_of (L : Library) (points : list Point) : PointSet :=
  build L empty_set points.

(** [reBuild()]; [None] when the loop that dumps the points does not stop. *)
Definition reBuild (L : Library) (isRight0 : bool) (t : PointSet)
  : option PointSet :=
  if depth_exceeds L (max_depth t) (m_size t) then
    match traverse isRight0 t with
    | None => None
    | Some points => Some (build L empty_set points)
    end
  else Some t.

(** [put(p)] *)
Definition put (L : Library) (isRight0 : bool) (p : Point) (t : PointSet)
  : option PointSet :=
  reBuild L isRight0 (insert_root p t).

(** ** [nearest(p, k)] *)

(** [std::max_element(first, last, comp)] as an index into the range:
    [largest] starts at the first element and moves to each later element
    [e] for which [comp] holds of the largest so far and [e]. *)
Fixpoint max_element_from {A : Type} (comp : A -> A -> bool) (v : list A)
  (i : nat) (largest : nat) (largest_val : A) : nat :=
  match v with
  | [] => largest
  | e :: v' =>
      if comp largest_val e then max_element_from comp v' (S i) i e
      else max_element_from comp v' (S i) largest largest_val
  end.

Definition max_element {A : Type} (comp : A -> A -> bool) (v : list A) : nat :=
  match v with
  | [] => O
  | e :: v' => max_element_from comp v' 1 O e
  end.

(** [v[i] = a] *)
Fixpoint assign {A : Type} (v : list A) (i : nat) (a : A) : list A :=
  match v, i with
  | [], _ => []
  | _ :: v', O => a :: v'
  | e :: v', S i' => e :: assign v' i' a
  end.

(** One turn of the loop of [nearest(p, k)] at the element [it]. *)
Definition nearest_step (p : Point) (k : nat) (neighbours : list Point)
  (it : Point) : list Point :=
  if (length neighbours <? k)%nat then neighbours ++ [it]
  else
    let max_distanced :=
      max_element
        (fun lhs rhs => double_leb (distance lhs p) (distance rhs p))
        neighbours in
    match nth_error neighbours max_distanced with
    | None => neighbours
    | Some far =>
        if double_ltb (distance it p) (distance far p)
        then assign neighbours max_distanced it
        else neighbours
    end.

(** [nearest(p, k)]: the elements between the two returned iterators;
    [None] when walking the tree does not stop. *)
Definition nearest_k (isRight0 : bool) (p : Point) (k : nat) (t : PointSet)
  : option (list Point) :=
  if (m_size t <=? k)%nat then traverse isRight0 t
  else if (k =? 0)%nat then Some []
  else
    match traverse isRight0 t with
    | None => None
    | Some points => Some (fold_left (nearest_step p k) points [])
    end.

(** ** Reachable states

    A point set is built by the constructor from the points of a file
    (possibly none) and then changed by [put]. *)
Inductive Reachable (L : Library) (isRight0 : bool) : PointSet -> Prop :=
| Reachable_ctor (points : list Point) :
    Reachable L isRight0 (PointSet_of L points)
| Reachable_put (t t' : PointSet) (p : Point) :
    Reachable L isRight0 t ->
    put L isRight0 p t = Some t' ->
    Reachable L isRight0 t'.

(** ** An instance of the library for running the model

    [std::nth_element] as a stable insertion sort of the range (what
    libstdc++ does on ranges of at most three elements), and the test
    [max_depth > 2 * log(m_size)], that is [m_size^2 < e^max_depth], decided
    with [e] replaced by its lower bound [2.718281828459045235]. *)

Fixpoint insert_sorted (cmp : Point -> Point -> bool) (a : Point)
  (v : list Point) : list Point :=
  match v with
  | [] => [a]
  | b :: v' => if cmp b a then b :: insert_sorted cmp a v' else a :: v
  end.

Definition insertion_sort (cmp : Point -> Point -> bool) (v : list Point)
  : list Point :=
  fold_right (insert_sorted cmp) [] v.

Definition exceeds_2log (d n : nat) : bool :=
  (Z.of_nat n ^ 2 * 10 ^ (18 * Z.of_nat d) <? 2718281828459045235 ^ Z.of_nat d)%Z.

Definition small_library : Library :=
  {| nth_element := fun cmp v _ => insertion_sort cmp v;
     depth_exceeds := exceeds_2log |}.

(** ** Properties of trees used in the statements *)

(** The coordinate a node at depth [d] splits on. *)
Definition split_coord (d : nat) (p : Point) : Q :=
  if Nat.even d then x p else y p.

(** The ordering of the tree below a node at depth [d], with every [depth]
    field equal to the depth of its node. *)
Fixpoint kd_ordered (d : nat) (node : Node) : Prop :=
  match node with
  | nullptr => True
  | mkNode lt pt dn rt =>
      dn = d
      /\ (forall q, In q (inorder lt) -> split_coord d q <= split_coord d pt)
      /\ (forall q, In q (inorder rt) -> split_coord d pt < split_coord d q)
      /\ kd_ordered (S d) lt
      /\ kd_ordered (S d) rt
  end.

(** The largest depth of a node. *)
Fixpoint deepest (node : Node) : nat :=
  match node with
  | nullptr => O
  | mkNode lt _ d rt => Nat.max d (Nat.max (deepest lt) (deepest rt))
  end.

(** The points stored in the tree. *)
Definition stored (t : PointSet) : list Point := inorder (m_root t).



(** [a.distance(q) <= b.distance(q)] holds: [a] is at most as far from [q]
    as [b], as the program measures it. *)
Definition not_farther (q a b : Point) : Prop :=
  double_leb (distance a q) (distance b q) = true.

(** [a.distance(q) < b.distance(q)] holds: [a] is strictly closer to [q]
    than [b], as the program measures it. *)
Definition measured_closer (q a b : Point) : Prop :=
  double_ltb (distance a q) (distance b q) = true.

(** [node->right != nullptr] at a non-null node. *)
Definition has_right_child (node : Node) : bool :=
  match node with
  | mkNode _ _ _ (mkNode _ _ _ _) => true
  | _ => false
  end.

(** Nodes of a tree with their depths: [occurs root d node] when [node] is
    the subtree found [d] links below [root]. *)
Inductive occurs (root : Node) : nat -> Node -> Prop :=
| occurs_root : occurs root 0 root
| occurs_left d lt pt dn rt :
    occurs root d (mkNode lt pt dn rt) -> occurs root (S d) lt
| occurs_right d lt pt dn rt :
    occurs root d (mkNode lt pt dn rt) -> occurs root (S d) rt.

(** ** Concrete inputs

    Every coordinate below is a [double]: a small integer, or a small
    integer times a power of two. *)

(** A sequence of [put] calls. *)
Definition puts (L : Library) (isRight0 : bool) (ps : list Point)
  (t : PointSet) : option PointSet :=
  fold_left
    (fun o p => match o with Some t => put L isRight0 p t | None => None end)
    ps (Some t).

(** [2^-53] and [2^-54], half and a quarter of [eps]. *)
Definition half_eps : Q := 1 # 9007199254740992.
Definition quarter_eps : Q := 1 # 18014398509481984.

(** A point that [put] does not store, and four points whose insertion
    triggers a rebuild. *)
Definition pt_a : Point := mkPoint 0 0.
Definition pt_a' : Point := mkPoint 0 half_eps.
Definition pt_n : Point := mkPoint 1 quarter_eps.
Definition pt_c : Point := mkPoint 2 5.
Definition pt_d : Point := mkPoint 3 6.

(** Two points equal by [operator==] on the two sides of a split. *)
Definition pt_o : Point := mkPoint 0 0.
Definition pt_q : Point := mkPoint 0 10.
Definition pt_q' : Point := mkPoint half_eps 10.

(** A rectangle and two points within [eps] of its left edge. *)
Definition unit2 : Rect := mkRect (mkPoint 0 0) (mkPoint 2 2).
Definition pt_e1 : Point := mkPoint (- quarter_eps) 1.
Definition pt_e2 : Point := mkPoint (- half_eps) 2.


(** Three points on a line, [3 * 2^-54] apart: the middle one is equal by
    [operator==] to each of the outer ones, which are not equal. *)
Definition pt_l : Point := mkPoint 0 0.
Definition pt_m : Point := mkPoint (3 # 18014398509481984) 0.
Definition pt_r : Point := mkPoint (3 # 9007199254740992) 0.

(** Four points, two on each of two vertical lines. *)
Definition pt_u1 : Point := mkPoint (-1) 10.
Definition pt_u2 : Point := mkPoint (-1) 0.
Definition pt_v1 : Point := mkPoint 0 1.
Definition pt_v2 : Point := mkPoint 0 2.

(** The example of the specification. *)
Definition three_points : list Point :=
  [mkPoint 1 1; mkPoint 2 2; mkPoint 3 3].

(** Three points that [put] chains to the left of the root. *)
Definition descending : list Point :=
  [mkPoint 4 4; mkPoint 3 3; mkPoint 2 2].

Definition origin : Point := mkPoint 0 0.

(** ** Notions used in the proofs *)

(** A point set whose tree is ordered and whose counters are those of the
    tree. *)
Record well_formed (t : PointSet) : Prop := {
  wf_ordered : kd_ordered 0 (m_root t);
  wf_size : m_size t = count (m_root t);
  wf_depth : max_depth t = deepest (m_root t)
}.

(** Inserting a sequence of points one after the other. *)
Definition insert_all (ins : list Point) (t : PointSet) : PointSet :=
  fold_left (fun t m => insert_root m t) ins t.

(** What [next] returns once the loop has to climb from [node]: the part of
    [next] after the test of [node->right]. *)
Definition leave (node : Node) (up : Up) (isRight : bool) : NodePtr :=
  match climb node up isRight with
  | (node', AtRoot, isRight') =>
      if isRight' then null
      else match node' with
           | nullptr => null
           | mkNode lt' pt' d' rt' => at_node lt' pt' d' rt' AtRoot
           end
  | (node', LeftOf ppt pd prt up', _) => at_node node' ppt pd prt up'
  | (node', RightOf plt ppt pd up', _) => at_node plt ppt pd node' up'
  end.

(** The value of [isRight] when [next] leaves the last node of a subtree:
    the unset value if that node is the root of the subtree, [true] after
    at least one step up. *)
Definition leaving_flag (isRight0 : bool) (node : Node) : bool :=
  match node with
  | mkNode _ _ _ (mkNode _ _ _ _) => true
  | _ => isRight0
  end.

(** The same tests as in [findPointsInRectangle]. *)
Definition visits_left (rect : Rect) (d : nat) (pt : Point) : bool :=
  if Nat.even d then Qle_bool (xmin rect) (x pt) else Qle_bool (ymin rect) (y pt).

Definition visits_right (rect : Rect) (d : nat) (pt : Point) : bool :=
  if Nat.even d then Qle_bool (x pt) (xmax rect) else Qle_bool (y pt) (ymax rect).

(** The comparator [nearest(p, k)] passes to [std::max_element]. *)
Definition farther_or_equal (q lhs rhs : Point) : bool :=
  double_leb (distance lhs q) (distance rhs q).

(** The buffer [neighbours] after the elements [seen]: it holds
    [min k |seen|] of them, and no element left out is strictly closer than
    an element kept. *)
Definition selected (q : Point) (k : nat) (seen neighbours : list Point)
  : Prop :=
  length neighbours = Nat.min k (length seen)
  /\ exists rest,
       Permutation seen (neighbours ++ rest)
       /\ forall a r, In a neighbours -> In r rest -> not_farther q a r.

(** ** The rest of [Point] and [Rect] *)

(** [Point::operator<], [operator>], [operator<=], [operator>=] and
    [operator!=] *)
Definition Point_ltb (p q : Point) : bool :=
  Qltb (x p) (x q) || Qltb (y p) (y q).

Definition Point_gtb (p q : Point) : bool :=
  Qltb (x q) (x p) || Qltb (y q) (y p).

Definition Point_leb (p q : Point) : bool := negb (Point_gtb p q).

Definition Point_geb (p q : Point) : bool := negb (Point_ltb p q).

Definition Point_neqb (p q : Point) : bool := negb (Point_eqb p q).

(** [Rect::intersects]: [this] is [r], the argument is [rect]. *)
Definition Rect_intersects (r rect : Rect) : bool :=
  if double_leb
       (double_mul (double_sub (xmax rect) (xmin r))
                   (double_sub (xmin rect) (xmax r)))
       (finite 0)
  then
    if double_leb
         (double_mul (double_sub (ymax rect) (ymin r))
                     (double_sub (ymin rect) (ymax r)))
         (finite 0)
    then true
    else false
  else false.

(** A rectangle whose corners are in order. *)
Definition Rect_ordered (r : Rect) : Prop :=
  xmin r <= xmax r /\ ymin r <= ymax r.

(** A rectangle whose coordinates are at most [2^1022] in magnitude: the
    differences of such coordinates do not overflow. *)
Definition Rect_bounded (r : Rect) : Prop :=
  Qabs (xmin r) <= inject_Z (2 ^ 1022) /\ Qabs (xmax r) <= inject_Z (2 ^ 1022)
  /\ Qabs (ymin r) <= inject_Z (2 ^ 1022) /\ Qabs (ymax r) <= inject_Z (2 ^ 1022).

(** [2^-537]: the product of two [double]s of at least this magnitude does
    not underflow to zero. *)
Definition min_gap : Q := 1 # 2 ^ 537.

(** The intervals [[lo, hi]] and [[lo', hi']] overlap, or the gap between
    them is at least [2^-537]. *)
Definition no_small_gap (lo hi lo' hi' : Q) : Prop :=
  (hi < lo' -> min_gap <= lo' - hi) /\ (hi' < lo -> min_gap <= lo - hi').

(** Two ordered rectangles, the second to the right of the first at a
    distance of [2^-600]. *)
Definition thin_left : Rect :=
  mkRect (mkPoint 0 0) (mkPoint (1 # 2 ^ 600) 1).
Definition thin_right : Rect :=
  mkRect (mkPoint (1 # 2 ^ 599) 0) (mkPoint (1 # 2 ^ 598) 1).

(** ** The copy constructor of [kdtree::PointSet] *)

(** [copyTree(from, to)]: the node [to] after the call.  The [parent] of
    each copied child is set to the copy of its parent, which is its
    position in the copy. *)
Fixpoint copyTree (from : Node) : Node :=
  match from with
  | nullptr => nullptr
  | mkNode lt pt d rt =>
      match lt, rt with
      | nullptr, nullptr => mkNode nullptr pt d nullptr
      | _, _ => mkNode (copyTree lt) pt d (copyTree rt)
      end
  end.

(** [PointSet(const PointSet & set)] *)
Definition PointSet_copy (set : PointSet) : PointSet :=
  {| max_depth := max_depth set;
     m_root := copyTree (m_root set);
     m_size := m_size set |}.

(** ** The reference implementation [rbtree::PointSet]

    Its queries reach the [std::set] only through [begin()], [end()] and
    [size()]; the set is modelled by the sequence of its elements in
    iteration order.  [put] and [contains] are not modelled: they hand
    [Point::operator<], which is not a strict weak ordering, to
    [std::set]. *)
Module rbtree.

Record PointSet : Set := mkPointSet { m_set : list Point }.

Definition empty (s : PointSet) : bool :=
  match m_set s with [] => true | _ :: _ => false end.

Definition size (s : PointSet) : nat := length (m_set s).

(** [range(rect)]: the vector [in_rect] after the loop. *)
Definition range (rect : Rect) (s : PointSet) : list Point :=
  fold_left
    (fun in_rect it => if Rect_contains rect it then in_rect ++ [it] else in_rect)
    (m_set s) [].

(** [std::min_element(first, last, comp)] on a non-empty range: the
    smallest so far is replaced by each later element [e] for which [comp]
    holds of [e] and the smallest. *)
Definition min_element {A : Type} (comp : A -> A -> bool) (first : A)
  (rest : list A) : A :=
  fold_left (fun smallest e => if comp e smallest then e else smallest)
    rest first.

(** What [nearest(point)] does: on an empty set [std::min_element] returns
    [end()], which is then dereferenced. *)
Inductive nearest_outcome : Set :=
| nearest_returns (p : option Point)
| dereferences_end.

Definition nearest (point : Point) (s : PointSet) : nearest_outcome :=
  match m_set s with
  | [] => dereferences_end
  | first :: rest =>
      nearest_returns
        (Some (min_element
                 (fun a b => double_ltb (distance a point) (distance b point))
                 first rest))
  end.

(** [nearest(point, k)]: the elements between the two returned
    iterators.  The loop is the one of [kdtree::PointSet::nearest]. *)
Definition nearest_k (point : Point) (k : nat) (s : PointSet) : list Point :=
  if (length (m_set s) <=? k)%nat then m_set s
  else if (k =? 0)%nat then []
  else fold_left (nearest_step point k) (m_set s) [].

End rbtree.

(** ** The driver ([main.cpp])

    [to_set] copies a range into a [std::set] ordered by [x], then [y];
    this comparator is a strict weak ordering, and the set is modelled by
    its sorted sequence. *)

(** The comparator [cmp] of [to_set]. *)
Definition to_set_cmp (a b : Point) : bool :=
  if Qeq_bool (x a) (x b) then Qltb (y a) (y b) else Qltb (x a) (x b).

(** Insertion into the set: nothing is inserted when an equivalent element
    is present. *)
Fixpoint set_insert (a : Point) (s : list Point) : list Point :=
  match s with
  | [] => [a]
  | b :: s' =>
      if to_set_cmp a b then a :: s
      else if to_set_cmp b a then b :: set_insert a s'
      else s
  end.

(** [to_set(range)] *)
Definition to_set (range : list Point) : list Point :=
  fold_left (fun res p => set_insert p res) range [].

(** The comparison loop of [main], started at index [i]: the first index
    at which the two sets differ by [operator!=], with the two elements. *)
Fixpoint first_difference (i : nat) (rb_set kd_set : list Point)
  : option (nat * Point * Point) :=
  match kd_set, rb_set with
  | it2 :: kd_set', it1 :: rb_set' =>
      if Point_neqb it1 it2 then Some (i, it1, it2)
      else first_difference (S i) rb_set' kd_set'
  | _, _ => None
  end.

(** ** Further notions used in the statements *)

(** No node of the tree is equal by [operator==] to a point below it. *)
Fixpoint apart_below (node : Node) : Prop :=
  match node with
  | nullptr => True
  | mkNode lt pt _ rt =>
      (forall q, In q (inorder lt ++ inorder rt) -> Point_eqb pt q = false)
      /\ apart_below lt /\ apart_below rt
  end.


(** Strictly increasing for the order of [to_set]. *)
Fixpoint to_set_sorted (s : list Point) : Prop :=
  match s with
  | [] => True
  | a :: s' =>
      (forall b, In b s' -> to_set_cmp a b = true) /\ to_set_sorted s'
  end.

(** Same coordinates. *)
Definition same_coordinates (a b : Point) : Prop :=
  x a == x b /\ y a == y b.

(** The values [round] gives for non-negative arguments: the non-negative
    [double]s and plus infinity. *)
Definition nonneg_double (d : double) : Prop :=
  match d with
  | finite n => (0 <= n < 2 ^ 2098)%Z /\ round_units (inject_Z n) = n
  | plus_inf => True
  | minus_inf | NaN => False
  end.

(** No two points of [v] are equal by [operator==] unless they have the
    same coordinates. *)
Definition equal_only_if_same (v : list Point) : Prop :=
  forall a b, In a v -> In b v -> Point_eqb a b = true -> same_coordinates a b.

(** Every point of [given] equal to [p] by [operator==] has the
    coordinates of [p]. *)
Definition equal_only_to_same (given : list Point) (p : Point) : Prop :=
  forall g, In g given -> Point_eqb g p = true -> same_coordinates g p.

(** A point with the coordinates of [p] is stored. *)
Definition represented (p : Point) (t : PointSet) : Prop :=
  exists s, In s (stored t) /\ same_coordinates s p.

(** The points of [v], one for each class of points equal by
    [operator==]: a point is left out when a later one is equal to it. *)
Fixpoint distinct (v : list Point) : list Point :=
  match v with
  | [] => []
  | a :: v' =>
      if existsb (Point_eqb a) v' then distinct v' else a :: distinct v'
  end.

(** No two different points of [v] are equal by [operator==]. *)
Definition all_apart (v : list Point) : Prop :=
  NoDup v
  /\ forall a b, In a v -> In b v -> a <> b -> Point_eqb a b = false.

(** The set holds the points [seen]: it is well formed, it stores points
    of [seen] only, each point of [seen] has a stored point with its
    coordinates, and the stored points are apart. *)
Record holds (seen : list Point) (t : PointSet) : Prop := {
  holds_wf : well_formed t;
  holds_stored : forall s, In s (stored t) -> In s seen;
  holds_found : forall g, In g seen ->
                          exists s, In s (stored t) /\ same_coordinates s g;
  holds_apart : all_apart (stored t)
}.

(** ** Notions for the balance of the bulk build *)

(** What the C++ standard promises of [std::nth_element] with the
    comparators of [buildTree]: no element before the [n]th is greater than
    it, and no element after it is less. *)
Definition nth_element_partitions (L : Library) : Prop :=
  forall depth v n before m after,
    nth_element L (axis_lt depth) v n = before ++ m :: after ->
    length before = n ->
    (forall e, In e before -> axis_lt depth m e = false)
    /\ (forall e, In e after -> axis_lt depth e m = false).

(** Points that pairwise differ in [x], differ in [y] and are not equal by
    [operator==]. *)
Definition separated (v : list Point) : Prop :=
  NoDup v
  /\ forall a b, In a v -> In b v -> a <> b ->
                 ~ x a == x b /\ ~ y a == y b /\ Point_eqb a b = false.

(** The order in which [buildTree] inserts the points of a range. *)
Fixpoint build_order (L : Library) (fuel depth : nat) (v : list Point)
  : list Point :=
  match fuel with
  | O => []
  | S fuel' =>
      match v with
      | [] => []
      | _ :: _ =>
          let sorted := nth_element L (axis_lt depth) v (length v / 2) in
          match nth_error sorted (length v / 2) with
          | None => []
          | Some m =>
              m :: build_order L fuel' (S depth) (firstn (length v / 2) sorted)
                ++ build_order L fuel' (S depth)
                     (skipn (S (length v / 2)) sorted)
          end
      end
  end.

(** Inserting points one after the other below a node at depth [dep]. *)
Definition grow (ins : list Point) (node : Node) (dep : nat) : Node :=
  fold_left (fun n e => fst (insert e n dep (O, O))) ins node.

(** * Properties *)

(** ** Comparisons *)

Lemma Qltb_lt (a b : Q) : Qltb a b = true <-> a < b.
Proof.
  unfold Qltb. rewrite negb_true_iff. split; intro H.
  - apply Qnot_le_lt. intro Hle. apply Qle_bool_iff in Hle. congruence.
  - destruct (Qle_bool b a) eqn:E; [|reflexivity].
    apply Qle_bool_iff in E. exfalso. apply (Qlt_not_le _ _ H E).
Qed.

Lemma Qltb_ge (a b : Q) : Qltb a b = false <-> b <= a.
Proof.
  unfold Qltb. rewrite negb_false_iff. apply Qle_bool_iff.
Qed.

Lemma Qle_bool_gt (a b : Q) : Qle_bool a b = false <-> b < a.
Proof.
  rewrite <- (Qltb_lt b a). unfold Qltb.
  destruct (Qle_bool a b); simpl; split; congruence.
Qed.

Lemma eps_pos : 0 < eps.
Proof. reflexivity. Qed.



Lemma std_min_abs_nonneg (a b : Q) : 0 <= std_min (Qabs a) (Qabs b).
Proof.
  unfold std_min. destruct (Qltb (Qabs b) (Qabs a)); apply Qabs_nonneg.
Qed.

Lemma Point_eqb_refl (p : Point) : Point_eqb p p = true.
Proof.
  unfold Point_eqb. apply andb_true_iff. split; apply Qltb_lt.
  - apply Qabs_Qlt_condition. pose proof eps_pos. split; lra.
  - apply Qabs_Qlt_condition. pose proof eps_pos. split; lra.
Qed.

Lemma Point_eqb_sym (p q : Point) : Point_eqb p q = Point_eqb q p.
Proof.
  unfold Point_eqb.
  rewrite (Qabs_Qminus (x p) (x q)), (Qabs_Qminus (y p) (y q)). reflexivity.
Qed.

Lemma Point_eqb_true (p q : Point) :
  Point_eqb p q = true <->
  Qabs (x p - x q) < eps /\ Qabs (y p - y q) < eps.
Proof.
  unfold Point_eqb. rewrite andb_true_iff, !Qltb_lt. reflexivity.
Qed.

Lemma Point_eqb_same_coordinates (p q : Point) :
  same_coordinates p q -> Point_eqb p q = true.
Proof.
  intros [Hx Hy]. apply Point_eqb_true. pose proof eps_pos.
  split; apply Qabs_Qlt_condition; split; lra.
Qed.

(** ** Rounding to [double] *)

Lemma floor_bounds (r : Q) :
  inject_Z (Qfloor r) <= r /\ r < inject_Z (Qfloor r) + 1.
Proof.
  split; [apply Qfloor_le|].
  pose proof (Qlt_floor r) as H. rewrite inject_Z_plus in H. exact H.
Qed.

Lemma inject_Z_le (a b : Z) : (a <= b)%Z <-> inject_Z a <= inject_Z b.
Proof. rewrite Zle_Qle. reflexivity. Qed.

Lemma inject_Z_lt (a b : Z) : (a < b)%Z <-> inject_Z a < inject_Z b.
Proof. rewrite Zlt_Qlt. reflexivity. Qed.

Lemma inject_Z_pred (n : Z) : inject_Z (n - 1) == inject_Z n - 1.
Proof.
  unfold Z.sub. rewrite inject_Z_plus, inject_Z_opp. reflexivity.
Qed.

Lemma inject_Z_succ (n : Z) : inject_Z (n + 1) == inject_Z n + 1.
Proof. rewrite inject_Z_plus. reflexivity. Qed.

Lemma round_half_even_cases (r : Q) :
  (round_half_even r = Qfloor r /\ r - inject_Z (Qfloor r) <= 1 # 2)
  \/ (round_half_even r = (Qfloor r + 1)%Z /\ 1 # 2 <= r - inject_Z (Qfloor r)).
Proof.
  unfold round_half_even.
  destruct (Qcompare (r - inject_Z (Qfloor r)) (1 # 2)) eqn:E.
  - apply Qeq_alt in E. destruct (Z.even (Qfloor r)); [left|right]; split; auto; lra.
  - apply Qlt_alt in E. left. split; [reflexivity|lra].
  - apply Qgt_alt in E. right. split; [reflexivity|lra].
Qed.

Lemma round_half_even_bounds (r : Q) :
  r - (1 # 2) <= inject_Z (round_half_even r) <= r + (1 # 2).
Proof.
  destruct (floor_bounds r) as [H1 H2].
  destruct (round_half_even_cases r) as [[-> H]|[-> H]];
    rewrite ?inject_Z_plus; change (inject_Z 1) with 1; lra.
Qed.

Lemma round_half_even_comp (r r' : Q) :
  r == r' -> round_half_even r = round_half_even r'.
Proof.
  intro E. unfold round_half_even.
  rewrite (Qfloor_comp _ _ E).
  assert (E' : r - inject_Z (Qfloor r') == r' - inject_Z (Qfloor r'))
    by (rewrite E; reflexivity).
  rewrite (Qcompare_comp _ _ E' _ _ (Qeq_refl (1 # 2))). reflexivity.
Qed.

Lemma round_half_even_mono (r r' : Q) :
  r <= r' -> (round_half_even r <= round_half_even r')%Z.
Proof.
  intro H. pose proof (Qfloor_resp_le _ _ H) as F.
  destruct (Z.eq_dec (Qfloor r) (Qfloor r')) as [E|N].
  - unfold round_half_even. rewrite E.
    destruct (Qcompare (r - inject_Z (Qfloor r')) (1 # 2)) eqn:C1;
      destruct (Qcompare (r' - inject_Z (Qfloor r')) (1 # 2)) eqn:C2;
      first [apply Qeq_alt in C1 | apply Qlt_alt in C1 | apply Qgt_alt in C1];
      first [apply Qeq_alt in C2 | apply Qlt_alt in C2 | apply Qgt_alt in C2];
      destruct (Z.even (Qfloor r')); try lia; exfalso; lra.
  - assert (Qfloor r + 1 <= Qfloor r')%Z by lia.
    destruct (round_half_even_cases r) as [[-> _]|[-> _]];
      destruct (round_half_even_cases r') as [[-> _]|[-> _]]; lia.
Qed.

Lemma round_half_even_Z (n : Z) : round_half_even (inject_Z n) = n.
Proof.
  pose proof (round_half_even_bounds (inject_Z n)) as [H1 H2].
  assert (A : inject_Z (n - 1) < inject_Z (round_half_even (inject_Z n))).
  { rewrite inject_Z_pred. lra. }
  assert (B : inject_Z (round_half_even (inject_Z n)) < inject_Z (n + 1)).
  { rewrite inject_Z_succ. lra. }
  apply inject_Z_lt in A, B. lia.
Qed.



Lemma pow2_pos (j : Z) : (0 <= j)%Z -> 0 < inject_Z (2 ^ j).
Proof.
  intro H. change 0 with (inject_Z 0). rewrite <- Zlt_Qlt.
  apply Z.pow_pos_nonneg; lia.
Qed.

Lemma inject_Z_pow2_add (a b : Z) :
  (0 <= a)%Z -> (0 <= b)%Z ->
  inject_Z (2 ^ (a + b)) == inject_Z (2 ^ a) * inject_Z (2 ^ b).
Proof.
  intros Ha Hb. rewrite Z.pow_add_r by assumption.
  rewrite inject_Z_mult. reflexivity.
Qed.

Lemma exponent_shift_nonneg (s : Q) : (0 <= exponent_shift s)%Z.
Proof. unfold exponent_shift. lia. Qed.

Lemma exponent_shift_mono (s s' : Q) :
  s <= s' -> (exponent_shift s <= exponent_shift s')%Z.
Proof.
  intro H. unfold exponent_shift.
  pose proof (Z.log2_le_mono _ _ (Qfloor_resp_le _ _ H)). lia.
Qed.

Lemma exponent_shift_spec (s : Q) :
  s < inject_Z (2 ^ (53 + exponent_shift s))
  /\ ((0 < exponent_shift s)%Z -> inject_Z (2 ^ (52 + exponent_shift s)) <= s).
Proof.
  destruct (floor_bounds s) as [F1 F2]. unfold exponent_shift.
  set (f := Qfloor s) in *.
  destruct (Z_lt_le_dec 0 f) as [Hf|Hf].
  - destruct (Z.log2_spec f Hf) as [L1 L2].
    pose proof (Z.log2_nonneg f) as L0.
    destruct (Z_le_gt_dec (Z.log2 f) 52) as [Hs|Hs].
    + rewrite Z.max_l by lia. split; [|lia].
      assert (f + 1 <= 2 ^ 53)%Z.
      { assert (2 ^ (Z.log2 f + 1) <= 2 ^ 53)%Z
          by (apply Z.pow_le_mono_r; lia). lia. }
      apply inject_Z_le in H. rewrite inject_Z_succ in H.
      replace (53 + 0)%Z with 53%Z by lia. lra.
    + rewrite Z.max_r by lia.
      replace (53 + (Z.log2 f - 52))%Z with (Z.succ (Z.log2 f)) by lia.
      replace (52 + (Z.log2 f - 52))%Z with (Z.log2 f) by lia.
      split.
      * assert (H : (f + 1 <= 2 ^ Z.succ (Z.log2 f))%Z) by lia.
        apply inject_Z_le in H. rewrite inject_Z_succ in H. lra.
      * intros _. apply inject_Z_le in L1. lra.
  - rewrite Z.log2_nonpos by exact Hf. rewrite Z.max_l by lia.
    split; [|lia].
    assert (H : (f + 1 <= 2 ^ (53 + 0))%Z).
    { assert (0 < 2 ^ (53 + 0))%Z by (apply Z.pow_pos_nonneg; lia). lia. }
    apply inject_Z_le in H. rewrite inject_Z_succ in H. lra.
Qed.

Lemma scaled_bounds (s : Q) :
  s / inject_Z (2 ^ exponent_shift s) < inject_Z (2 ^ 53)
  /\ ((0 < exponent_shift s)%Z ->
      inject_Z (2 ^ 52) <= s / inject_Z (2 ^ exponent_shift s)).
Proof.
  destruct (exponent_shift_spec s) as [H1 H2].
  pose proof (exponent_shift_nonneg s) as J.
  pose proof (pow2_pos _ J) as P.
  split.
  - apply Qlt_shift_div_r; [exact P|].
    rewrite <- inject_Z_pow2_add by lia. exact H1.
  - intro Hj. apply Qle_shift_div_l; [exact P|].
    rewrite <- inject_Z_pow2_add by lia. apply H2. exact Hj.
Qed.

Lemma round_units_upper (s : Q) :
  (round_units s <= 2 ^ (53 + exponent_shift s))%Z.
Proof.
  unfold round_units. pose proof (exponent_shift_nonneg s) as J.
  rewrite Z.pow_add_r by lia.
  apply Z.mul_le_mono_nonneg_r; [apply Z.pow_nonneg; lia|].
  rewrite <- (round_half_even_Z (2 ^ 53)). apply round_half_even_mono.
  apply Qlt_le_weak. apply scaled_bounds.
Qed.

Lemma round_units_lower (s : Q) :
  (0 < exponent_shift s)%Z ->
  (2 ^ (52 + exponent_shift s) <= round_units s)%Z.
Proof.
  intro Hj. unfold round_units. rewrite Z.pow_add_r by lia.
  apply Z.mul_le_mono_nonneg_r; [apply Z.pow_nonneg; lia|].
  rewrite <- (round_half_even_Z (2 ^ 52)). apply round_half_even_mono.
  apply scaled_bounds. exact Hj.
Qed.

Lemma round_units_mono (s s' : Q) :
  s <= s' -> (round_units s <= round_units s')%Z.
Proof.
  intro H. pose proof (exponent_shift_mono s s' H) as M.
  pose proof (exponent_shift_nonneg s) as J.
  destruct (Z.eq_dec (exponent_shift s) (exponent_shift s')) as [E|N].
  - unfold round_units. rewrite E.
    apply Z.mul_le_mono_nonneg_r; [apply Z.pow_nonneg; lia|].
    apply round_half_even_mono.
    apply Qmult_le_compat_r; [exact H|].
    apply Qinv_le_0_compat. apply Qlt_le_weak. apply pow2_pos. lia.
  - eapply Z.le_trans; [apply round_units_upper|].
    eapply Z.le_trans; [|apply round_units_lower; lia].
    apply Z.pow_le_mono_r; lia.
Qed.

Lemma round_units_comp (s s' : Q) : s == s' -> round_units s = round_units s'.
Proof.
  intro E. unfold round_units, exponent_shift.
  rewrite (Qfloor_comp _ _ E).
  f_equal. apply round_half_even_comp. rewrite E. reflexivity.
Qed.

Lemma round_units_nonneg (s : Q) : 0 <= s -> (0 <= round_units s)%Z.
Proof.
  intro H. unfold round_units. pose proof (exponent_shift_nonneg s) as J.
  apply Z.mul_nonneg_nonneg; [|apply Z.pow_nonneg; lia].
  rewrite <- (round_half_even_Z 0). apply round_half_even_mono.
  change (inject_Z 0) with 0.
  apply Qle_shift_div_l; [apply pow2_pos; lia|]. lra.
Qed.

Lemma exponent_shift_Z (n : Z) (e : Z) :
  (0 <= e)%Z -> (2 ^ (52 + e) <= n < 2 ^ (53 + e))%Z ->
  exponent_shift (inject_Z n) = e.
Proof.
  intros He [H1 H2]. unfold exponent_shift. rewrite Qfloor_Z.
  assert (L : Z.log2 n = (52 + e)%Z).
  { apply Z.log2_unique; [lia|].
    replace (Z.succ (52 + e)) with (53 + e)%Z by lia. split; assumption. }
  rewrite L. lia.
Qed.

Lemma div_pow2_exact (m j : Z) :
  (0 <= j)%Z -> inject_Z (m * 2 ^ j) / inject_Z (2 ^ j) == inject_Z m.
Proof.
  intro Hj. rewrite inject_Z_mult. field.
  pose proof (pow2_pos j Hj). lra.
Qed.

(** Rounding leaves a [double] unchanged. *)
Lemma round_units_exact (m j : Z) :
  (0 <= j)%Z -> (2 ^ 52 <= m < 2 ^ 53)%Z ->
  round_units (inject_Z (m * 2 ^ j)) = (m * 2 ^ j)%Z.
Proof.
  intros Hj [H1 H2].
  assert (P : (0 < 2 ^ j)%Z) by (apply Z.pow_pos_nonneg; lia).
  assert (E : exponent_shift (inject_Z (m * 2 ^ j)) = j).
  { apply exponent_shift_Z; [exact Hj|].
    rewrite !Z.pow_add_r by lia. split.
    - apply Z.mul_le_mono_nonneg_r; lia.
    - apply Z.mul_lt_mono_pos_r; lia. }
  unfold round_units. rewrite E.
  rewrite (round_half_even_comp _ _ (div_pow2_exact m j Hj)).
  rewrite round_half_even_Z. reflexivity.
Qed.

Lemma round_units_small (n : Z) :
  (0 <= n < 2 ^ 53)%Z -> round_units (inject_Z n) = n.
Proof.
  intros [H1 H2].
  assert (E : exponent_shift (inject_Z n) = 0%Z).
  { unfold exponent_shift. rewrite Qfloor_Z.
    destruct (Z.eq_dec n 0) as [->|N]; [reflexivity|].
    assert (Z.log2 n < 53)%Z by (apply Z.log2_lt_pow2; lia). lia. }
  unfold round_units. rewrite E.
  assert (Q1 : inject_Z n / inject_Z (2 ^ 0) == inject_Z n).
  { change (inject_Z (2 ^ 0)) with 1. field. }
  rewrite (round_half_even_comp _ _ Q1), round_half_even_Z. simpl. lia.
Qed.

Lemma mantissa_bounds (s : Q) :
  (round_half_even (s / inject_Z (2 ^ exponent_shift s)) <= 2 ^ 53)%Z
  /\ ((0 < exponent_shift s)%Z ->
      (2 ^ 52 <= round_half_even (s / inject_Z (2 ^ exponent_shift s)))%Z).
Proof.
  destruct (scaled_bounds s) as [H1 H2]. split.
  - rewrite <- (round_half_even_Z (2 ^ 53)). apply round_half_even_mono.
    apply Qlt_le_weak. exact H1.
  - intro Hj. rewrite <- (round_half_even_Z (2 ^ 52)). apply round_half_even_mono.
    apply H2. exact Hj.
Qed.

(** The values rounding produces: integers below [2^53], or
    [m * 2^j] with a 53-bit [m]. *)
Lemma round_units_shape (s : Q) :
  0 <= s ->
  (0 <= round_units s < 2 ^ 53)%Z
  \/ exists m j, (0 <= j)%Z /\ (2 ^ 52 <= m < 2 ^ 53)%Z
                 /\ round_units s = (m * 2 ^ j)%Z.
Proof.
  intro Hs. pose proof (round_units_nonneg s Hs) as N.
  pose proof (exponent_shift_nonneg s) as J.
  destruct (mantissa_bounds s) as [M1 M2].
  unfold round_units in *.
  set (j := exponent_shift s) in *.
  set (m := round_half_even (s / inject_Z (2 ^ j))) in *.
  destruct (Z.eq_dec m (2 ^ 53)) as [E|NE].
  - right. exists (2 ^ 52)%Z, (j + 1)%Z. split; [lia|]. split; [lia|].
    rewrite E. rewrite (Z.pow_add_r 2 j 1) by lia. lia.
  - destruct (Z.eq_dec j 0) as [E0|N0].
    + left. rewrite E0 in *. simpl in *. lia.
    + right. exists m, j. split; [lia|]. split; [|reflexivity].
      split; [apply M2; lia | lia].
Qed.

Lemma round_units_idem (s : Q) :
  0 <= s -> round_units (inject_Z (round_units s)) = round_units s.
Proof.
  intro Hs. destruct (round_units_shape s Hs) as [H|(m & j & Hj & Hm & E)].
  - apply round_units_small. exact H.
  - rewrite E. apply round_units_exact; assumption.
Qed.



(** ** Square roots *)

Lemma sqrt_units_cases (n : Z) :
  (0 <= n)%Z ->
  let a := (n * denorm_scale)%Z in
  let r := Z.sqrt a in
  (0 <= r)%Z /\ (r * r <= a < (r + 1) * (r + 1))%Z
  /\ (((r * r = a)%Z /\ sqrt_units n = inject_Z r)
      \/ ((r * r < a)%Z /\ sqrt_units n = inject_Z r + (1 # 2))).
Proof.
  intros Hn a r.
  assert (Ha : (0 <= a)%Z) by (unfold a, denorm_scale; lia).
  pose proof (Z.sqrt_spec a Ha) as [S1 S2]. fold r in S1, S2.
  split; [apply Z.sqrt_nonneg|]. split; [unfold Z.succ in S2; lia|].
  unfold sqrt_units. fold a. fold r.
  destruct (r * r =? a)%Z eqn:E.
  - apply Z.eqb_eq in E. left. split; [exact E | reflexivity].
  - apply Z.eqb_neq in E. right. split; [lia | reflexivity].
Qed.


Lemma sqrt_units_nonneg (n : Z) : (0 <= n)%Z -> 0 <= sqrt_units n.
Proof.
  intro H. destruct (sqrt_units_cases n H) as (R0 & _ & C).
  apply inject_Z_le in R0. change (inject_Z 0) with 0 in R0.
  destruct C as [[_ ->]|[_ ->]]; lra.
Qed.









(** ** [double] values *)

Lemma of_units_nonneg (s : Q) : 0 <= s -> nonneg_double (of_units (round_units s)).
Proof.
  intro H. unfold of_units.
  destruct (round_units s <? 2 ^ 2098)%Z eqn:E; [|exact I].
  apply Z.ltb_lt in E. split.
  - split; [apply round_units_nonneg; exact H | exact E].
  - apply round_units_idem. exact H.
Qed.

Lemma of_units_mono (n n' : Z) :
  (n <= n')%Z -> double_leb (of_units n) (of_units n') = true.
Proof.
  intro H. unfold of_units.
  destruct (n <? 2 ^ 2098)%Z eqn:E; destruct (n' <? 2 ^ 2098)%Z eqn:E';
    simpl; try reflexivity.
  - apply Z.leb_le. exact H.
  - apply Z.ltb_ge in E. apply Z.ltb_lt in E'. lia.
Qed.

Lemma of_units_finite (n : Z) :
  nonneg_double (finite n) -> of_units n = finite n.
Proof.
  intros [[_ H] _]. unfold of_units. apply Z.ltb_lt in H. rewrite H. reflexivity.
Qed.

Lemma round_nonneg (s : Q) : 0 <= s -> round s = of_units (round_units s).
Proof.
  intro H. unfold round. apply Qltb_ge in H. rewrite H. reflexivity.
Qed.

Lemma round_nonneg_double (s : Q) : 0 <= s -> nonneg_double (round s).
Proof.
  intro H. rewrite round_nonneg by exact H. apply of_units_nonneg. exact H.
Qed.

Lemma round_not_NaN (s : Q) : round s <> NaN.
Proof.
  unfold round, of_units.
  destruct (Qltb s 0); [destruct (round_units (- s) <? 2 ^ 2098)%Z
                       | destruct (round_units s <? 2 ^ 2098)%Z]; discriminate.
Qed.

Lemma double_leb_refl (a : double) : a <> NaN -> double_leb a a = true.
Proof.
  destruct a; simpl; try congruence; intros _. apply Z.leb_refl.
Qed.

Lemma double_leb_trans (a b c : double) :
  double_leb a b = true -> double_leb b c = true -> double_leb a c = true.
Proof.
  destruct a, b, c; simpl; try congruence.
  rewrite !Z.leb_le. lia.
Qed.


Lemma double_ltb_leb (a b : double) :
  double_ltb a b = true -> double_leb a b = true.
Proof.
  destruct a, b; simpl; try congruence.
  rewrite Z.ltb_lt, Z.leb_le. lia.
Qed.

Lemma double_ltb_false (a b : double) :
  a <> NaN -> b <> NaN -> double_ltb a b = false -> double_leb b a = true.
Proof.
  destruct a, b; simpl; try congruence.
  rewrite Z.ltb_ge, Z.leb_le. auto.
Qed.

Lemma double_leb_false (a b : double) :
  a <> NaN -> b <> NaN -> double_leb a b = false -> double_leb b a = true.
Proof.
  destruct a, b; simpl; try congruence.
  rewrite Z.leb_gt, Z.leb_le. lia.
Qed.

Lemma double_leb_not_ltb (a b : double) :
  double_leb a b = true -> double_ltb b a = false.
Proof.
  destruct a, b; simpl; try congruence.
  rewrite Z.leb_le, Z.ltb_ge. auto.
Qed.

Lemma nonneg_not_NaN (a : double) : nonneg_double a -> a <> NaN.
Proof. destruct a; simpl; intuition discriminate. Qed.


Lemma round_mono (s s' : Q) :
  s <= s' -> double_leb (round s) (round s') = true.
Proof.
  intro H. unfold round.
  destruct (Qltb s 0) eqn:E; destruct (Qltb s' 0) eqn:E'.
  - apply Qltb_lt in E, E'.
    assert (M : (round_units (- s') <= round_units (- s))%Z)
      by (apply round_units_mono; lra).
    pose proof (round_units_nonneg (- s') ltac:(lra)).
    unfold of_units.
    destruct (round_units (- s) <? 2 ^ 2098)%Z eqn:F;
      destruct (round_units (- s') <? 2 ^ 2098)%Z eqn:F'; simpl; try reflexivity.
    + apply Z.leb_le. lia.
    + apply Z.ltb_lt in F. apply Z.ltb_ge in F'. lia.
  - apply Qltb_lt in E. apply Qltb_ge in E'.
    pose proof (round_units_nonneg (- s) ltac:(lra)).
    pose proof (round_units_nonneg s' E').
    unfold of_units.
    destruct (round_units (- s) <? 2 ^ 2098)%Z;
      destruct (round_units s' <? 2 ^ 2098)%Z; simpl; try reflexivity.
    apply Z.leb_le. lia.
  - apply Qltb_ge in E. apply Qltb_lt in E'. exfalso. lra.
  - apply of_units_mono. apply round_units_mono. exact H.
Qed.

Lemma round_opp (s : Q) : round (- s) = negate (round s).
Proof.
  unfold round.
  destruct (Qltb s 0) eqn:E; destruct (Qltb (- s) 0) eqn:E'.
  - apply Qltb_lt in E, E'. exfalso. lra.
  - unfold of_units. destruct (round_units (- s) <? 2 ^ 2098)%Z; simpl;
      [rewrite Z.opp_involutive|]; reflexivity.
  - rewrite (round_units_comp (- - s) s) by ring. reflexivity.
  - apply Qltb_ge in E, E'.
    assert (Z0 : s == 0) by lra.
    rewrite (round_units_comp (- s) 0) by (rewrite Z0; reflexivity).
    rewrite (round_units_comp s 0) by exact Z0.
    vm_compute. reflexivity.
Qed.

Lemma double_sub_opp (a b : Q) : double_sub b a = negate (double_sub a b).
Proof.
  unfold double_sub. rewrite <- round_opp.
  unfold round.
  assert (E : (b - a) * inject_Z denorm_scale == - ((a - b) * inject_Z denorm_scale))
    by ring.
  assert (L : Qltb ((b - a) * inject_Z denorm_scale) 0
              = Qltb (- ((a - b) * inject_Z denorm_scale)) 0).
  { unfold Qltb. f_equal. apply Qleb_comp; [reflexivity | exact E]. }
  rewrite L.
  rewrite (round_units_comp _ _ E).
  rewrite (round_units_comp (- ((b - a) * inject_Z denorm_scale))
             (- - ((a - b) * inject_Z denorm_scale))) by (rewrite E; reflexivity).
  reflexivity.
Qed.


Lemma double_pow2_abs (d : double) :
  double_pow2 (double_abs d) = double_pow2 d.
Proof.
  destruct d; simpl; try reflexivity.
  rewrite <- Z.abs_mul, Z.abs_eq by nia. reflexivity.
Qed.

Lemma square_units_nonneg (n : Z) :
  0 <= inject_Z (n * n) / inject_Z denorm_scale.
Proof.
  apply Qle_shift_div_l; [apply (pow2_pos 1074); lia|].
  rewrite Qmult_0_l. change 0 with (inject_Z 0). rewrite <- Zle_Qle. nia.
Qed.

Lemma double_pow2_nonneg (d : double) :
  d <> NaN -> nonneg_double (double_pow2 d).
Proof.
  destruct d; simpl; try tauto; try congruence. intros _.
  apply round_nonneg_double. apply square_units_nonneg.
Qed.


Lemma double_add_nonneg (a b : double) :
  nonneg_double a -> nonneg_double b -> nonneg_double (double_add a b).
Proof.
  destruct a as [u| | |]; destruct b as [v| | |]; simpl; try tauto.
  intros [[U _] _] [[V _] _]. apply round_nonneg_double.
  change 0 with (inject_Z 0). rewrite <- Zle_Qle. lia.
Qed.


Lemma double_sqrt_nonneg (a : double) :
  nonneg_double a -> nonneg_double (double_sqrt a).
Proof.
  destruct a as [u| | |]; simpl; try tauto. intros [[U _] _].
  destruct (u <? 0)%Z eqn:E; [apply Z.ltb_lt in E; lia|].
  apply of_units_nonneg. apply sqrt_units_nonneg. exact U.
Qed.



Lemma double_sub_not_NaN (a b : Q) : double_sub a b <> NaN.
Proof. apply round_not_NaN. Qed.



Lemma double_abs_not_NaN (a : double) : a <> NaN -> double_abs a <> NaN.
Proof. destruct a; simpl; congruence. Qed.

(** ** [Rect::distance] and [Rect::contains] *)





(** ** [insert] *)

Ltac insert_cases p lt rt dep c Epq Et E :=
  simpl;
  match goal with
  | |- context [Point_eqb ?pt p] =>
      destruct (Point_eqb pt p) eqn:Epq;
      [ simpl
      | match goal with
        | |- context [toLeft ?d p pt] =>
            destruct (toLeft d p pt) eqn:Et;
            [ destruct (insert p lt (S dep) (Nat.max (fst c) dep, snd c))
                as [? ?] eqn:E; simpl
            | destruct (insert p rt (S dep) (Nat.max (fst c) dep, snd c))
                as [? ?] eqn:E; simpl ]
        end ]
  end.

Lemma insert_keeps (p q : Point) (node : Node) :
  forall dep c, In q (inorder node) -> In q (inorder (fst (insert p node dep c))).
Proof.
  induction node as [|lt IHl pt d rt IHr]; intros dep c H.
  - destruct H.
  - insert_cases p lt rt dep c Epq Et E; try exact H.
    + specialize (IHl (S dep) (Nat.max (fst c) dep, snd c)).
      rewrite E in IHl. simpl in IHl, H.
      apply in_app_or in H. apply in_or_app. destruct H; [left; auto | right; auto].
    + specialize (IHr (S dep) (Nat.max (fst c) dep, snd c)).
      rewrite E in IHr. simpl in IHr, H.
      apply in_app_or in H. apply in_or_app. destruct H as [H|[H|H]].
      * left; auto.
      * right; left; auto.
      * right; right; auto.
Qed.

Lemma insert_adds_only (p q : Point) (node : Node) :
  forall dep c,
    In q (inorder (fst (insert p node dep c))) -> In q (inorder node) \/ q = p.
Proof.
  induction node as [|lt IHl pt d rt IHr]; intros dep c.
  - simpl. intros [H|[]]. right. congruence.
  - insert_cases p lt rt dep c Epq Et E; intro H.
    + left. exact H.
    + specialize (IHl (S dep) (Nat.max (fst c) dep, snd c)).
      rewrite E in IHl. simpl in IHl.
      apply in_app_or in H. destruct H as [H|H].
      * destruct (IHl H); [left; apply in_or_app; left; assumption | right; assumption].
      * left. apply in_or_app. right. exact H.
    + specialize (IHr (S dep) (Nat.max (fst c) dep, snd c)).
      rewrite E in IHr. simpl in IHr.
      apply in_app_or in H. destruct H as [H|[H|H]].
      * left. apply in_or_app. left. exact H.
      * left. apply in_or_app. right. left. exact H.
      * destruct (IHr H); [left; apply in_or_app; right; right; assumption | right; assumption].
Qed.

Lemma toLeft_true (d : nat) (p pt : Point) :
  toLeft d p pt = true <-> split_coord d p <= split_coord d pt.
Proof.
  unfold toLeft, split_coord. destruct (Nat.even d); apply Qle_bool_iff.
Qed.

Lemma toLeft_false (d : nat) (p pt : Point) :
  toLeft d p pt = false <-> split_coord d pt < split_coord d p.
Proof.
  unfold toLeft, split_coord. destruct (Nat.even d); apply Qle_bool_gt.
Qed.

Lemma insert_ordered (p : Point) (node : Node) :
  forall dep c, kd_ordered dep node -> kd_ordered dep (fst (insert p node dep c)).
Proof.
  induction node as [|lt IHl pt d rt IHr]; intros dep c H.
  - simpl. repeat split; intros q [].
  - destruct H as (Hd & Hl & Hr & Hkl & Hkr).
    insert_cases p lt rt dep c Epq Et E.
    + repeat split; assumption.
    + pose proof (IHl (S dep) (Nat.max (fst c) dep, snd c) Hkl) as IH.
      pose proof (insert_adds_only p) as Hnew.
      specialize (Hnew) with (node := lt) (dep := S dep)
        (c := (Nat.max (fst c) dep, snd c)).
      rewrite E in IH, Hnew. simpl in IH, Hnew.
      repeat split; try assumption.
      intros q Hq. destruct (Hnew q Hq) as [Hin| ->]; [auto|].
      subst d. apply toLeft_true. assumption.
    + pose proof (IHr (S dep) (Nat.max (fst c) dep, snd c) Hkr) as IH.
      pose proof (insert_adds_only p) as Hnew.
      specialize (Hnew) with (node := rt) (dep := S dep)
        (c := (Nat.max (fst c) dep, snd c)).
      rewrite E in IH, Hnew. simpl in IH, Hnew.
      repeat split; try assumption.
      intros q Hq. destruct (Hnew q Hq) as [Hin| ->]; [auto|].
      subst d. apply toLeft_false. assumption.
Qed.

Lemma insert_counts (p : Point) (node : Node) :
  forall dep c,
    (snd (snd (insert p node dep c)) + count node
     = snd c + count (fst (insert p node dep c)))%nat.
Proof.
  induction node as [|lt IHl pt d rt IHr]; intros dep c.
  - simpl. lia.
  - insert_cases p lt rt dep c Epq Et E.
    + reflexivity.
    + specialize (IHl (S dep) (Nat.max (fst c) dep, snd c)).
      rewrite E in IHl. simpl in IHl. lia.
    + specialize (IHr (S dep) (Nat.max (fst c) dep, snd c)).
      rewrite E in IHr. simpl in IHr. lia.
Qed.

Lemma insert_depths (p : Point) (node : Node) :
  forall dep c,
    kd_ordered dep node ->
    exists reach : nat,
      (dep <= reach)%nat
      /\ fst (snd (insert p node dep c)) = Nat.max (fst c) reach
      /\ deepest (fst (insert p node dep c)) = Nat.max (deepest node) reach
      /\ (find p node <> nullptr -> (reach <= deepest node)%nat).
Proof.
  induction node as [|lt IHl pt d rt IHr]; intros dep c H.
  - exists dep. simpl. repeat split; try lia. congruence.
  - destruct H as (Hd & Hl & Hr & Hkl & Hkr). subst d.
    insert_cases p lt rt dep c Epq Et E.
    + exists dep. repeat split; lia.
    + destruct (IHl (S dep) (Nat.max (fst c) dep, snd c) Hkl)
        as (reach & H1 & H2 & H3 & H4).
      rewrite E in H2, H3. simpl in H2, H3.
      exists reach. repeat split; try lia. intro Hf. specialize (H4 Hf). lia.
    + destruct (IHr (S dep) (Nat.max (fst c) dep, snd c) Hkr)
        as (reach & H1 & H2 & H3 & H4).
      rewrite E in H2, H3. simpl in H2, H3.
      exists reach. repeat split; try lia. intro Hf. specialize (H4 Hf). lia.
Qed.

(** ** [find] and [contains] *)

Lemma find_after_insert (p : Point) (node : Node) :
  forall dep c, find p (fst (insert p node dep c)) <> nullptr.
Proof.
  induction node as [|lt IHl pt d rt IHr]; intros dep c.
  - simpl. rewrite Point_eqb_refl. discriminate.
  - insert_cases p lt rt dep c Epq Et E.
    + rewrite Epq. discriminate.
    + rewrite Epq, Et.
      specialize (IHl (S dep) (Nat.max (fst c) dep, snd c)).
      rewrite E in IHl. exact IHl.
    + rewrite Epq, Et.
      specialize (IHr (S dep) (Nat.max (fst c) dep, snd c)).
      rewrite E in IHr. exact IHr.
Qed.

Lemma find_insert_kept (p q : Point) (node : Node) :
  forall dep c,
    find q node <> nullptr -> find q (fst (insert p node dep c)) <> nullptr.
Proof.
  induction node as [|lt IHl pt d rt IHr]; intros dep c H.
  - simpl in H. congruence.
  - simpl in H. insert_cases p lt rt dep c Epq Et E.
    + exact H.
    + destruct (Point_eqb pt q); [discriminate|].
      destruct (toLeft d q pt); [|exact H].
      specialize (IHl (S dep) (Nat.max (fst c) dep, snd c) H).
      rewrite E in IHl. exact IHl.
    + destruct (Point_eqb pt q); [discriminate|].
      destruct (toLeft d q pt); [exact H|].
      specialize (IHr (S dep) (Nat.max (fst c) dep, snd c) H).
      rewrite E in IHr. exact IHr.
Qed.

Lemma find_stored (q : Point) (node : Node) :
  forall dep, kd_ordered dep node -> In q (inorder node) -> find q node <> nullptr.
Proof.
  induction node as [|lt IHl pt d rt IHr]; intros dep H Hin.
  - destruct Hin.
  - destruct H as (Hd & Hl & Hr & Hkl & Hkr). subst d. simpl in *.
    destruct (Point_eqb pt q) eqn:Eq; [discriminate|].
    apply in_app_or in Hin. destruct Hin as [Hin|[Hin|Hin]].
    + assert (T : toLeft dep q pt = true) by (apply toLeft_true; auto).
      rewrite T. eapply IHl; eauto.
    + subst q. rewrite Point_eqb_refl in Eq. discriminate.
    + assert (T : toLeft dep q pt = false) by (apply toLeft_false; auto).
      rewrite T. eapply IHr; eauto.
Qed.

Lemma insert_found (p : Point) (node : Node) :
  forall dep c,
    find p node <> nullptr -> fst (insert p node dep c) = node
                              /\ snd (snd (insert p node dep c)) = snd c.
Proof.
  induction node as [|lt IHl pt d rt IHr]; intros dep c H.
  - simpl in H. congruence.
  - simpl in H. insert_cases p lt rt dep c Epq Et E.
    + split; reflexivity.
    + destruct (IHl (S dep) (Nat.max (fst c) dep, snd c) H) as [H1 H2].
      rewrite E in H1, H2. simpl in H1, H2. subst. split; [reflexivity|assumption].
    + destruct (IHr (S dep) (Nat.max (fst c) dep, snd c) H) as [H1 H2].
      rewrite E in H1, H2. simpl in H1, H2. subst. split; [reflexivity|assumption].
Qed.

Lemma contains_find (p : Point) (t : PointSet) :
  contains p t = true <-> find p (m_root t) <> nullptr.
Proof.
  unfold contains. destruct (find p (m_root t)); split; congruence.
Qed.

Lemma find_sound (p : Point) (node : Node) :
  forall lt s d rt,
    find p node = mkNode lt s d rt ->
    In s (inorder node) /\ Point_eqb s p = true.
Proof.
  induction node as [|l IHl pt dn r IHr]; intros lt s d rt H.
  - discriminate.
  - simpl in H. destruct (Point_eqb pt p) eqn:E.
    + injection H as <- <- <- <-. split; [apply in_elt | exact E].
    + simpl. destruct (toLeft dn p pt).
      * destruct (IHl _ _ _ _ H). split; [apply in_or_app; left|]; assumption.
      * destruct (IHr _ _ _ _ H).
        split; [apply in_or_app; right; right|]; assumption.
Qed.

Lemma insert_new (p : Point) (node : Node) :
  forall dep c,
    find p node = nullptr ->
    Permutation (inorder (fst (insert p node dep c))) (p :: inorder node)
    /\ snd (snd (insert p node dep c)) = S (snd c).
Proof.
  induction node as [|lt IHl pt d rt IHr]; intros dep c H.
  - simpl. split; [apply Permutation_refl | reflexivity].
  - simpl in H. insert_cases p lt rt dep c Epq Et E.
    + discriminate.
    + destruct (IHl (S dep) (Nat.max (fst c) dep, snd c) H) as [P S1].
      rewrite E in P, S1. simpl in P, S1. split; [|exact S1].
      change (p :: inorder lt ++ pt :: inorder rt)
        with ((p :: inorder lt) ++ pt :: inorder rt).
      apply Permutation_app_tail. exact P.
    + destruct (IHr (S dep) (Nat.max (fst c) dep, snd c) H) as [P S1].
      rewrite E in P, S1. simpl in P, S1. split; [|exact S1].
      eapply Permutation_trans;
        [apply Permutation_app_head; apply perm_skip; exact P|].
      eapply Permutation_trans;
        [apply Permutation_app_head; apply perm_swap|].
      symmetry. apply Permutation_middle.
Qed.

(** ** Well-formed point sets *)

Lemma insert_root_eq (p : Point) (t : PointSet) :
  insert_root p t =
  {| max_depth := fst (snd (insert p (m_root t) 0 (max_depth t, m_size t)));
     m_root := fst (insert p (m_root t) 0 (max_depth t, m_size t));
     m_size := snd (snd (insert p (m_root t) 0 (max_depth t, m_size t))) |}.
Proof.
  unfold insert_root. destruct (insert p (m_root t) 0 (max_depth t, m_size t)).
  reflexivity.
Qed.

Lemma well_formed_empty : well_formed empty_set.
Proof. split; simpl; auto. Qed.

Lemma well_formed_insert (p : Point) (t : PointSet) :
  well_formed t -> well_formed (insert_root p t).
Proof.
  intros [Ho Hs Hd]. rewrite insert_root_eq. split; simpl.
  - apply insert_ordered. exact Ho.
  - pose proof (insert_counts p (m_root t) 0 (max_depth t, m_size t)) as H.
    simpl in H. lia.
  - destruct (insert_depths p (m_root t) 0 (max_depth t, m_size t) Ho)
      as (reach & _ & H2 & H3 & _).
    simpl in H2. rewrite H2, H3, Hd. reflexivity.
Qed.

Lemma contains_insert_root (p : Point) (t : PointSet) :
  contains p (insert_root p t) = true.
Proof.
  apply contains_find. rewrite insert_root_eq. simpl. apply find_after_insert.
Qed.

Lemma contains_insert_root_kept (p q : Point) (t : PointSet) :
  contains q t = true -> contains q (insert_root p t) = true.
Proof.
  rewrite !contains_find. rewrite insert_root_eq. simpl. apply find_insert_kept.
Qed.

Lemma contains_stored (q : Point) (t : PointSet) :
  well_formed t -> In q (stored t) -> contains q t = true.
Proof.
  intros W H. apply contains_find. eapply find_stored; [apply W | exact H].
Qed.

Lemma insert_root_found (p : Point) (t : PointSet) :
  well_formed t -> contains p t = true -> insert_root p t = t.
Proof.
  intros W H. apply contains_find in H. rewrite insert_root_eq.
  destruct (insert_found p (m_root t) 0 (max_depth t, m_size t) H) as [H1 H2].
  destruct (insert_depths p (m_root t) 0 (max_depth t, m_size t) (wf_ordered _ W))
    as (reach & _ & H3 & _ & H4).
  specialize (H4 H). rewrite H1, H2, H3. simpl.
  destruct t as [md root sz]. simpl in *. f_equal.
  pose proof (wf_depth _ W) as Hd. simpl in Hd. lia.
Qed.

Lemma stored_insert_root_keeps (p q : Point) (t : PointSet) :
  In q (stored t) -> In q (stored (insert_root p t)).
Proof.
  unfold stored. rewrite insert_root_eq. simpl. apply insert_keeps.
Qed.

Lemma stored_insert_root_adds_only (p q : Point) (t : PointSet) :
  In q (stored (insert_root p t)) -> In q (stored t) \/ q = p.
Proof.
  unfold stored. rewrite insert_root_eq. simpl. apply insert_adds_only.
Qed.

Lemma well_formed_insert_all (ins : list Point) :
  forall t, well_formed t -> well_formed (insert_all ins t).
Proof.
  induction ins as [|m ins IH]; intros t W; simpl.
  - exact W.
  - apply IH. apply well_formed_insert. exact W.
Qed.

Lemma contains_insert_all_kept (q : Point) (ins : list Point) :
  forall t, contains q t = true -> contains q (insert_all ins t) = true.
Proof.
  induction ins as [|m ins IH]; intros t H; simpl.
  - exact H.
  - apply IH. apply contains_insert_root_kept. exact H.
Qed.

Lemma contains_insert_all (q : Point) (ins : list Point) :
  forall t, In q ins -> contains q (insert_all ins t) = true.
Proof.
  induction ins as [|m ins IH]; intros t H; simpl.
  - destruct H.
  - destruct H as [->|H].
    + apply contains_insert_all_kept. apply contains_insert_root.
    + apply IH. exact H.
Qed.

Lemma stored_insert_all_adds_only (q : Point) (ins : list Point) :
  forall t, In q (stored (insert_all ins t)) -> In q (stored t) \/ In q ins.
Proof.
  induction ins as [|m ins IH]; intros t H; simpl in *.
  - left. exact H.
  - destruct (IH _ H) as [H1|H1].
    + destruct (stored_insert_root_adds_only _ _ _ H1); auto.
    + auto.
Qed.

(** ** [buildTree] *)

Lemma firstn_length_app {A : Type} (u v : list A) :
  firstn (length u) (u ++ v) = u.
Proof. induction u; simpl; congruence. Qed.

Lemma skipn_length_app {A : Type} (u v : list A) :
  skipn (length u) (u ++ v) = v.
Proof. induction u; simpl; congruence. Qed.

Lemma skipn_length_app2 {A : Type} (u v w : list A) :
  skipn (length u + length v) (u ++ v ++ w) = w.
Proof.
  induction u; simpl; [apply skipn_length_app | assumption].
Qed.

Lemma nth_element_in_middle (L : Library) cmp (A B C : list Point) (middle : nat) :
  nth_element_in L cmp (A ++ B ++ C) (length A) middle (length A + length B)
  = A ++ nth_element L cmp B (middle - length A) ++ C.
Proof.
  unfold nth_element_in.
  rewrite skipn_length_app2, firstn_length_app, skipn_length_app.
  replace (length A + length B - length A)%nat with (length B) by lia.
  rewrite firstn_length_app. reflexivity.
Qed.

Lemma insert_all_app (u v : list Point) (t : PointSet) :
  insert_all (u ++ v) t = insert_all v (insert_all u t).
Proof. unfold insert_all. apply fold_left_app. Qed.

(** [buildTree] on the range [B] of the vector [A ++ B ++ C] inserts the
    elements of [B], each once, in some order, and rearranges [B] only. *)
Lemma buildTree_inserts (L : Library) :
  nth_element_permutes L ->
  forall fuel tree A B C depth,
    (length B <= fuel)%nat ->
    exists ins B',
      buildTree L fuel tree (A ++ B ++ C) (length A) (length A + length B) depth
      = (insert_all ins tree, A ++ B' ++ C)
      /\ Permutation ins B /\ Permutation B' B.
Proof.
  intros HL. induction fuel as [|fuel IH]; intros tree A B C depth Hf.
  - destruct B; [|simpl in Hf; lia].
    exists [], []. simpl. repeat split; constructor.
  - cbn [buildTree].
    destruct B as [|b0 B0] eqn:EB.
    + replace (length A + length (@nil Point) - length A <? 1)%nat with true
        by (symmetry; apply Nat.ltb_lt; simpl; lia).
      exists [], []. repeat split; constructor.
    + rewrite <- EB in *.
      assert (HB : (0 < length B)%nat) by (subst B; simpl; lia).
      clear EB b0 B0.
      replace (length A + length B - length A <? 1)%nat with false
        by (symmetry; apply Nat.ltb_ge; lia).
      assert (Hm : ((length A + length B + length A) / 2
                    = length A + length B / 2)%nat).
      { replace (length A + length B + length A)%nat
          with (length A * 2 + length B)%nat by lia.
        rewrite Nat.div_add_l by lia. reflexivity. }
      rewrite Hm. rewrite nth_element_in_middle.
      replace (length A + length B / 2 - length A)%nat with (length B / 2)%nat
        by lia.
      set (N := nth_element L (axis_lt depth) B (length B / 2)).
      assert (HN : Permutation N B) by apply HL.
      assert (HlenN : length N = length B) by (apply Permutation_length; exact HN).
      assert (Hk : (length B / 2 < length N)%nat).
      { rewrite HlenN. apply Nat.div_lt; lia. }
      destruct (nth_error N (length B / 2)) as [mid|] eqn:Emid;
        [|apply nth_error_None in Emid; lia].
      destruct (nth_error_split _ _ Emid) as (N1 & N2 & EN & HlenN1).
      assert (Hnth : nth_error (A ++ N ++ C) (length A + length B / 2) = Some mid).
      { rewrite nth_error_app2 by lia.
        replace (length A + length B / 2 - length A)%nat with (length B / 2)%nat
          by lia.
        rewrite nth_error_app1 by lia. exact Emid. }
      rewrite Hnth.
      assert (HlenN12 : (length N1 + S (length N2) = length B)%nat).
      { rewrite <- HlenN, EN, length_app. simpl. reflexivity. }
      (* the range before the middle *)
      destruct (IH (insert_root mid tree) A N1 (mid :: N2 ++ C) (S depth))
        as (ins1 & N1' & E1 & P1 & Q1); [lia|].
      replace (A ++ N ++ C) with (A ++ N1 ++ mid :: N2 ++ C)
        by (rewrite EN, <- !app_assoc; reflexivity).
      rewrite <- HlenN1, E1.
      (* the range after the middle *)
      assert (HlenN1' : length N1' = length N1)
        by (apply Permutation_length; exact Q1).
      destruct (IH (insert_all ins1 (insert_root mid tree))
                  (A ++ N1' ++ [mid]) N2 C (S depth))
        as (ins2 & N2' & E2 & P2 & Q2); [lia|].
      replace (A ++ N1' ++ mid :: N2 ++ C) with ((A ++ N1' ++ [mid]) ++ N2 ++ C)
        by (rewrite <- !app_assoc; reflexivity).
      replace (S (length A + length N1))%nat with (length (A ++ N1' ++ [mid]))
        by (rewrite !length_app; simpl; lia).
      replace (length A + length B)%nat
        with (length (A ++ N1' ++ [mid]) + length N2)%nat
        by (rewrite !length_app; simpl; lia).
      rewrite E2.
      exists (mid :: ins1 ++ ins2), (N1' ++ mid :: N2').
      split; [|split].
      * f_equal.
        -- change (mid :: ins1 ++ ins2) with ([mid] ++ ins1 ++ ins2).
           rewrite !insert_all_app. reflexivity.
        -- rewrite <- !app_assoc. reflexivity.
      * rewrite <- HN, EN. apply Permutation_cons_app.
        apply Permutation_app; assumption.
      * rewrite <- HN, EN.
        apply Permutation_app; [assumption|]. constructor. assumption.
Qed.

Lemma build_inserts (L : Library) (tree : PointSet) (points : list Point) :
  nth_element_permutes L ->
  exists ins, build L tree points = insert_all ins tree /\ Permutation ins points.
Proof.
  intros HL.
  destruct (buildTree_inserts L HL (length points) tree [] points [] 0 (le_n _))
    as (ins & B' & E & P & _).
  exists ins. split; [|exact P].
  unfold build. simpl in E. rewrite app_nil_r in E. rewrite E. reflexivity.
Qed.

Lemma well_formed_build (L : Library) (tree : PointSet) (points : list Point) :
  nth_element_permutes L -> well_formed tree -> well_formed (build L tree points).
Proof.
  intros HL W. destruct (build_inserts L tree points HL) as (ins & -> & _).
  apply well_formed_insert_all. exact W.
Qed.

(** ** The iterator *)

Lemma next_without_right (b : bool) lt pt d up :
  next b (at_node lt pt d nullptr up) = leave (mkNode lt pt d nullptr) up b.
Proof. reflexivity. Qed.

Lemma leave_right_child (node : Node) plt ppt pd up (f : bool) :
  leave node (RightOf plt ppt pd up) f = leave (mkNode plt ppt pd node) up true.
Proof. reflexivity. Qed.

Lemma leave_left_child (node : Node) ppt pd prt up (f : bool) :
  leave node (LeftOf ppt pd prt up) f = at_node node ppt pd prt up.
Proof. reflexivity. Qed.

(** Walking a subtree from its leftmost node emits its in-order sequence,
    takes one step for each node and then leaves the subtree. *)
Lemma iterate_subtree (b : bool) (node : Node) :
  forall lt pt d rt up fuel acc,
    node = mkNode lt pt d rt ->
    iterate (count node + fuel) b (left_of lt pt d rt up) acc
    = iterate fuel b (leave node up (leaving_flag b node)) (acc ++ inorder node).
Proof.
  induction node as [|l IHl p dn r IHr]; intros lt pt d rt up fuel acc E.
  - discriminate.
  - injection E as -> -> -> ->.
    (* reach the node itself, after its left subtree *)
    assert (Hleft :
      iterate (count (mkNode lt pt d rt) + fuel) b (left_of lt pt d rt up) acc
      = iterate (S (count rt) + fuel) b (at_node lt pt d rt up)
          (acc ++ inorder lt)).
    { destruct lt as [|llt lpt ld lrt].
      - simpl. rewrite app_nil_r. reflexivity.
      - cbn [left_of].
        replace (count (mkNode (mkNode llt lpt ld lrt) pt d rt) + fuel)%nat
          with (count (mkNode llt lpt ld lrt) + (S (count rt) + fuel))%nat
          by (simpl; lia).
        rewrite (IHl llt lpt ld lrt (LeftOf pt d rt up) _ acc eq_refl).
        rewrite leave_left_child. reflexivity. }
    rewrite Hleft. cbn [plus iterate].
    destruct rt as [|rlt rpt rd rrt].
    + rewrite next_without_right. simpl count. simpl leaving_flag.
      simpl inorder. rewrite <- app_assoc. reflexivity.
    + cbn [next].
      rewrite (IHr rlt rpt rd rrt (RightOf lt pt d up) fuel _ eq_refl).
      rewrite leave_right_child. simpl leaving_flag. simpl inorder.
      rewrite <- !app_assoc. reflexivity.
Qed.

Lemma traverse_result (b : bool) (t : PointSet) :
  traverse b t =
  if leaving_flag b (m_root t) || empty t
  then Some (inorder (m_root t)) else None.
Proof.
  unfold traverse, begin, root_ptr, empty.
  destruct (m_root t) as [|lt pt d rt] eqn:E.
  - simpl. rewrite orb_true_r. reflexivity.
  - rewrite orb_false_r. cbn [left].
    pose proof (iterate_subtree b (mkNode lt pt d rt) lt pt d rt AtRoot 0 []
                  eq_refl) as H.
    rewrite Nat.add_0_r in H. rewrite H.
    unfold leave. cbn [climb].
    destruct (leaving_flag b (mkNode lt pt d rt)); reflexivity.
Qed.

Lemma traverse_true (t : PointSet) :
  traverse true t = Some (inorder (m_root t)).
Proof.
  rewrite traverse_result.
  destruct (m_root t) as [|lt pt d [|]]; reflexivity.
Qed.

Lemma traverse_some (b : bool) (t : PointSet) (points : list Point) :
  traverse b t = Some points -> points = inorder (m_root t).
Proof.
  rewrite traverse_result.
  destruct (leaving_flag b (m_root t) || empty t); congruence.
Qed.

(** With the flag read as unset, [next] at a root without right child
    returns the root again. *)
Lemma next_root_again lt pt d :
  next false (at_node lt pt d nullptr AtRoot) = at_node lt pt d nullptr AtRoot.
Proof. reflexivity. Qed.

Lemma iterate_stuck_at_root lt pt d :
  forall fuel acc, iterate fuel false (at_node lt pt d nullptr AtRoot) acc = None.
Proof.
  induction fuel as [|fuel IH]; intro acc.
  - reflexivity.
  - cbn [iterate]. rewrite next_root_again. apply IH.
Qed.

Lemma iterate_more_fuel (b : bool) :
  forall fuel extra it acc points,
    iterate fuel b it acc = Some points ->
    iterate (fuel + extra) b it acc = Some points.
Proof.
  induction fuel as [|fuel IH]; intros extra it acc points H.
  - destruct it; [|discriminate]. simpl in H.
    destruct (0 + extra)%nat; exact H.
  - destruct it; [exact H|]. cbn [plus iterate] in *. apply IH. exact H.
Qed.

(** No amount of steps ends the loop from [begin()] when the root has no
    right child and the flag reads as unset. *)
Lemma iterate_never_ends lt pt d (t : PointSet) :
  m_root t = mkNode lt pt d nullptr ->
  forall fuel, iterate fuel false (begin t) [] = None.
Proof.
  intros E fuel.
  destruct (iterate fuel false (begin t) []) as [points|] eqn:H; [|reflexivity].
  apply iterate_more_fuel with (extra := count (m_root t)) in H.
  rewrite Nat.add_comm in H.
  unfold begin, root_ptr in H. rewrite E in H. cbn [left] in H.
  rewrite <- E in H at 1.
  rewrite (iterate_subtree false (m_root t) lt pt d nullptr AtRoot fuel [] E) in H.
  rewrite E in H. unfold leave in H. cbn [climb leaving_flag] in H.
  rewrite iterate_stuck_at_root in H. discriminate.
Qed.

Lemma leaving_flag_or (b : bool) (node : Node) :
  b || has_right_child node = true -> leaving_flag b node = true.
Proof.
  destruct node as [|lt pt d [|]]; simpl; rewrite ?orb_false_r; auto.
Qed.

Lemma traverse_completes (b : bool) (t : PointSet) :
  b || has_right_child (m_root t) = true ->
  traverse b t = Some (inorder (m_root t)).
Proof.
  intro H. rewrite traverse_result, (leaving_flag_or _ _ H). reflexivity.
Qed.

(** ** [reBuild], [put] and the reachable states *)

Lemma reBuild_cases (L : Library) (b : bool) (t t' : PointSet) :
  reBuild L b t = Some t' ->
  (depth_exceeds L (max_depth t) (m_size t) = false /\ t' = t)
  \/ (depth_exceeds L (max_depth t) (m_size t) = true
      /\ t' = build L empty_set (stored t)).
Proof.
  unfold reBuild. destruct (depth_exceeds L (max_depth t) (m_size t)).
  - destruct (traverse b t) as [points|] eqn:E; [|discriminate].
    apply traverse_some in E. subst points. intro H. right.
    unfold stored. split; congruence.
  - intro H. left. split; congruence.
Qed.

Lemma well_formed_put (L : Library) (b : bool) (p : Point) (t t' : PointSet) :
  nth_element_permutes L ->
  well_formed t -> put L b p t = Some t' -> well_formed t'.
Proof.
  intros HL W H. unfold put in H.
  destruct (reBuild_cases _ _ _ _ H) as [[_ ->]|[_ ->]].
  - apply well_formed_insert. exact W.
  - apply well_formed_build; [exact HL | exact well_formed_empty].
Qed.

Lemma well_formed_reachable (L : Library) (b : bool) (t : PointSet) :
  nth_element_permutes L -> Reachable L b t -> well_formed t.
Proof.
  intros HL R. induction R as [points | t t' p R IH H].
  - apply well_formed_build; [exact HL | exact well_formed_empty].
  - eapply well_formed_put; eauto.
Qed.

Lemma reachable_empty (L : Library) (b : bool) : Reachable L b empty_set.
Proof. exact (Reachable_ctor L b []). Qed.

Lemma puts_none (L : Library) (b : bool) (ps : list Point) :
  fold_left
    (fun o p => match o with Some t => put L b p t | None => None end)
    ps None = None.
Proof. induction ps as [|p ps IH]; simpl; auto. Qed.

Lemma reachable_puts (L : Library) (b : bool) (ps : list Point) :
  forall t t',
    Reachable L b t -> puts L b ps t = Some t' -> Reachable L b t'.
Proof.
  unfold puts. induction ps as [|p ps IH]; intros t t' R H; simpl in H.
  - injection H as <-. exact R.
  - destruct (put L b p t) as [t1|] eqn:E.
    + apply (IH t1 t'); [|exact H]. eapply Reachable_put; eauto.
    + rewrite puts_none in H. discriminate.
Qed.

(** The instance [small_library] meets the assumption on [nth_element]. *)
Lemma insert_sorted_permutation cmp (a : Point) (v : list Point) :
  Permutation (insert_sorted cmp a v) (a :: v).
Proof.
  induction v as [|e v IH]; simpl.
  - apply Permutation_refl.
  - destruct (cmp e a).
    + eapply Permutation_trans; [apply perm_skip; exact IH | apply perm_swap].
    + apply Permutation_refl.
Qed.

Lemma insertion_sort_permutation cmp (v : list Point) :
  Permutation (insertion_sort cmp v) v.
Proof.
  induction v as [|e v IH]; simpl.
  - constructor.
  - eapply Permutation_trans; [apply insert_sorted_permutation|].
    apply perm_skip. exact IH.
Qed.

Lemma small_library_permutes : nth_element_permutes small_library.
Proof.
  intros cmp v n. apply insertion_sort_permutation.
Defined.

Lemma occurs_ordered (root : Node) (d : nat) (node : Node) :
  kd_ordered 0 root -> occurs root d node -> kd_ordered d node.
Proof.
  intros H O. induction O as [|d lt pt dn rt O IH|d lt pt dn rt O IH].
  - exact H.
  - apply IH.
  - apply IH.
Qed.

(** The values of the test in [small_library] on the sizes met in the
    examples: [2 * log] of 1, 2, 3 and 4 is 0, 1.386..., 2.197... and
    2.772...; [log(0)] is minus infinity. *)
Example exceeds_2log_values :
  (exceeds_2log 0 0, exceeds_2log 0 1, exceeds_2log 1 2, exceeds_2log 1 3,
   exceeds_2log 2 3, exceeds_2log 2 4, exceeds_2log 3 4)
  = (true, false, false, false, false, false, true).
Proof. vm_compute. reflexivity. Qed.

(** C6.  In every tree reachable by bulk build and [put], for every node at
    depth [d], every point of its left subtree has its split coordinate ([x]
    if [d] is even, [y] if [d] is odd) at most the node's, and every point of
    its right subtree has it strictly greater; the [depth] field of the node
    is [d]. *)
Theorem reachable_tree_ordered (L : Library) (b : bool) (t : PointSet) :
  nth_element_permutes L ->
  Reachable L b t ->
  forall d lt pt dn rt,
    occurs (m_root t) d (mkNode lt pt dn rt) ->
    dn = d
    /\ (forall q, In q (inorder lt) -> split_coord d q <= split_coord d pt)
    /\ (forall q, In q (inorder rt) -> split_coord d pt < split_coord d q).
Proof.
  intros HL R d lt pt dn rt O.
  pose proof (wf_ordered t (well_formed_reachable L b t HL R)) as H.
  destruct (occurs_ordered _ _ _ H O) as (H1 & H2 & H3 & _).
  repeat split; assumption.
Qed.

Lemma reachable_tree_ordered_witness :
  PointSet_of small_library three_points
  = mkPointSet 1
      (mkNode (mkNode nullptr (mkPoint 1 1) 1 nullptr) (mkPoint 2 2) 0
         (mkNode nullptr (mkPoint 3 3) 1 nullptr)) 3
  /\ split_coord 0 (mkPoint 1 1) <= split_coord 0 (mkPoint 2 2)
  /\ split_coord 0 (mkPoint 2 2) < split_coord 0 (mkPoint 3 3).
Proof.
  assert (E : PointSet_of small_library three_points
              = mkPointSet 1
                  (mkNode (mkNode nullptr (mkPoint 1 1) 1 nullptr) (mkPoint 2 2) 0
                     (mkNode nullptr (mkPoint 3 3) 1 nullptr)) 3)
    by (vm_compute; reflexivity).
  split; [exact E|].
  pose proof (reachable_tree_ordered small_library true
                (PointSet_of small_library three_points)
                small_library_permutes (Reachable_ctor _ _ three_points)) as H.
  rewrite E in H.
  destruct (H 0%nat _ _ _ _ (occurs_root _)) as (_ & Hl & Hr).
  split; [apply Hl | apply Hr]; simpl; auto.
Defined.

(** ** [put]: containment, the rebuild policy and duplicates *)

Lemma count_length (node : Node) : count node = length (inorder node).
Proof.
  induction node as [|lt IHl pt d rt IHr]; simpl.
  - reflexivity.
  - rewrite length_app. simpl. lia.
Qed.

Lemma contains_build (L : Library) (t : PointSet) (points : list Point) (q : Point) :
  nth_element_permutes L -> In q points -> contains q (build L t points) = true.
Proof.
  intros HL H. destruct (build_inserts L t points HL) as (ins & -> & P).
  apply contains_insert_all. eapply Permutation_in; [symmetry; exact P | exact H].
Qed.

Lemma stored_build (L : Library) (points : list Point) (q : Point) :
  nth_element_permutes L ->
  In q (stored (build L empty_set points)) -> In q points.
Proof.
  intros HL H. destruct (build_inserts L empty_set points HL) as (ins & E & P).
  rewrite E in H. apply stored_insert_all_adds_only in H.
  destruct H as [[]|H]. eapply Permutation_in; eauto.
Qed.

Lemma same_coordinates_refl (a : Point) : same_coordinates a a.
Proof. split; reflexivity. Qed.

Lemma same_coordinates_sym (a b : Point) :
  same_coordinates a b -> same_coordinates b a.
Proof. intros [H1 H2]. split; symmetry; assumption. Qed.

Lemma same_coordinates_trans (a b c : Point) :
  same_coordinates a b -> same_coordinates b c -> same_coordinates a c.
Proof. intros [H1 H2] [H3 H4]. split; etransitivity; eassumption. Qed.

Lemma Point_eqb_same_r (pt p p' : Point) :
  same_coordinates p p' -> Point_eqb pt p = Point_eqb pt p'.
Proof.
  intros [Hx Hy]. unfold Point_eqb, Qltb.
  assert (Ex : Qle_bool eps (Qabs (x pt - x p)) = Qle_bool eps (Qabs (x pt - x p'))).
  { apply Qleb_comp; [reflexivity|]. rewrite Hx. reflexivity. }
  assert (Ey : Qle_bool eps (Qabs (y pt - y p)) = Qle_bool eps (Qabs (y pt - y p'))).
  { apply Qleb_comp; [reflexivity|]. rewrite Hy. reflexivity. }
  rewrite Ex, Ey. reflexivity.
Qed.

Lemma toLeft_same (d : nat) (pt p p' : Point) :
  same_coordinates p p' -> toLeft d p pt = toLeft d p' pt.
Proof.
  intros [Hx Hy]. unfold toLeft.
  destruct (Nat.even d); apply Qleb_comp; try assumption; reflexivity.
Qed.

Lemma find_same (p p' : Point) (node : Node) :
  same_coordinates p p' -> find p node = find p' node.
Proof.
  intro H. induction node as [|lt IHl pt d rt IHr]; simpl; [reflexivity|].
  rewrite (Point_eqb_same_r pt p p' H), (toLeft_same d pt p p' H), IHl, IHr.
  reflexivity.
Qed.

Lemma contains_same (p p' : Point) (t : PointSet) :
  same_coordinates p p' -> contains p t = contains p' t.
Proof. intro H. unfold contains. rewrite (find_same p p' _ H). reflexivity. Qed.

Lemma holds_contains (seen : list Point) (t : PointSet) (g : Point) :
  holds seen t -> In g seen -> contains g t = true.
Proof.
  intros H Hg. destruct (holds_found _ _ H g Hg) as (s & Hs & E).
  rewrite <- (contains_same s g t E).
  apply contains_stored; [apply (holds_wf _ _ H) | exact Hs].
Qed.

Lemma holds_empty : holds [] empty_set.
Proof.
  split.
  - apply well_formed_empty.
  - intros s [].
  - intros g [].
  - split; [constructor | intros a b []].
Qed.

Lemma all_apart_permutation (u v : list Point) :
  Permutation u v -> all_apart u -> all_apart v.
Proof.
  intros P [N A]. split.
  - eapply Permutation_NoDup; eauto.
  - intros a b Ha Hb. apply A; eapply Permutation_in; try eassumption;
      symmetry; exact P.
Qed.

Lemma holds_insert (given seen : list Point) (t : PointSet) (p : Point) :
  equal_only_if_same given ->
  incl seen given -> In p given ->
  holds seen t -> holds (p :: seen) (insert_root p t).
Proof.
  intros G I Hp H. pose proof (holds_wf _ _ H) as W.
  destruct (contains p t) eqn:C.
  - rewrite (insert_root_found p t W C).
    assert (F : exists s, In s (stored t) /\ same_coordinates s p).
    { unfold contains, stored in *.
      destruct (find p (m_root t)) as [|lt s d rt] eqn:E; [discriminate|].
      destruct (find_sound _ _ _ _ _ _ E) as [Hs Es].
      exists s. split; [exact Hs|].
      apply G; [apply I; apply (holds_stored _ _ H); exact Hs | exact Hp | exact Es]. }
    split.
    + exact W.
    + intros s Hs. right. apply (holds_stored _ _ H). exact Hs.
    + intros g [<-|Hg]; [exact F | apply (holds_found _ _ H); exact Hg].
    + apply (holds_apart _ _ H).
  - assert (F : find p (m_root t) = nullptr).
    { unfold contains in C. destruct (find p (m_root t)); congruence. }
    destruct (insert_new p (m_root t) 0 (max_depth t, m_size t) F) as [P _].
    assert (P' : Permutation (stored (insert_root p t)) (p :: stored t)).
    { unfold stored. rewrite insert_root_eq. exact P. }
    assert (Hnew : forall s, In s (stored t) -> Point_eqb s p = false).
    { intros s Hs. destruct (Point_eqb s p) eqn:E; [|reflexivity].
      assert (S : same_coordinates s p).
      { apply G; [apply I; apply (holds_stored _ _ H); exact Hs | exact Hp | exact E]. }
      rewrite <- (contains_same s p t S) in C.
      rewrite (contains_stored s t W Hs) in C. discriminate. }
    split.
    + apply well_formed_insert. exact W.
    + intros s Hs. apply (Permutation_in _ P') in Hs.
      destruct Hs as [<-|Hs]; [left; reflexivity|right].
      apply (holds_stored _ _ H). exact Hs.
    + intros g [<-|Hg].
      * exists p. split; [|apply same_coordinates_refl].
        apply (Permutation_in _ (Permutation_sym P')). left. reflexivity.
      * destruct (holds_found _ _ H g Hg) as (s & Hs & E). exists s.
        split; [|exact E].
        apply (Permutation_in _ (Permutation_sym P')). right. exact Hs.
    + apply (all_apart_permutation (p :: stored t)); [symmetry; exact P'|].
      destruct (holds_apart _ _ H) as [N A]. split.
      * constructor; [|exact N]. intro Hin.
        pose proof (Hnew p Hin) as X. rewrite Point_eqb_refl in X. discriminate.
      * intros a b [<-|Ha] [<-|Hb] Hab.
        -- congruence.
        -- rewrite Point_eqb_sym. apply Hnew. exact Hb.
        -- apply Hnew. exact Ha.
        -- apply A; assumption.
Qed.

Lemma holds_equiv (seen seen' : list Point) (t : PointSet) :
  (forall g, In g seen <-> In g seen') -> holds seen t -> holds seen' t.
Proof.
  intros E H. split.
  - apply (holds_wf _ _ H).
  - intros s Hs. apply E. apply (holds_stored _ _ H). exact Hs.
  - intros g Hg. apply (holds_found _ _ H). apply E. exact Hg.
  - apply (holds_apart _ _ H).
Qed.

Lemma holds_insert_all (given : list Point) (ins : list Point) :
  equal_only_if_same given ->
  forall seen t,
    incl seen given -> incl ins given ->
    holds seen t -> holds (rev ins ++ seen) (insert_all ins t).
Proof.
  intro G. induction ins as [|m ins IH]; intros seen t I J H.
  - exact H.
  - simpl. rewrite <- app_assoc. simpl. apply IH.
    + intros e [<-|He]; [apply J; left; reflexivity | apply I; exact He].
    + intros e He. apply J. right. exact He.
    + apply (holds_insert given); auto. apply J. left. reflexivity.
Qed.

Lemma holds_build (L : Library) (given points : list Point) :
  nth_element_permutes L ->
  equal_only_if_same given -> incl points given ->
  holds points (build L empty_set points).
Proof.
  intros HL G I. destruct (build_inserts L empty_set points HL) as (ins & -> & P).
  apply (holds_equiv (rev ins ++ [])).
  - intro g. rewrite app_nil_r, <- in_rev. split; apply Permutation_in;
      [exact P | symmetry; exact P].
  - apply (holds_insert_all given); auto.
    + intros e [].
    + intros e He. apply I. eapply Permutation_in; eauto.
    + exact holds_empty.
Qed.

Lemma holds_rebuild (L : Library) (given seen : list Point) (t : PointSet) :
  nth_element_permutes L ->
  equal_only_if_same given -> incl seen given ->
  holds seen t -> holds seen (build L empty_set (stored t)).
Proof.
  intros HL G I H.
  assert (J : incl (stored t) given).
  { intros s Hs. apply I. apply (holds_stored _ _ H). exact Hs. }
  pose proof (holds_build L given (stored t) HL G J) as B.
  split.
  - apply (holds_wf _ _ B).
  - intros s Hs. apply (holds_stored _ _ H). apply (holds_stored _ _ B). exact Hs.
  - intros g Hg. destruct (holds_found _ _ H g Hg) as (s & Hs & E).
    destruct (holds_found _ _ B s Hs) as (s' & Hs' & E').
    exists s'. split; [exact Hs'|]. eapply same_coordinates_trans; eauto.
  - apply (holds_apart _ _ B).
Qed.

Lemma holds_put (L : Library) (b : bool) (given seen : list Point)
  (t t' : PointSet) (p : Point) :
  nth_element_permutes L ->
  equal_only_if_same given -> incl seen given -> In p given ->
  holds seen t -> put L b p t = Some t' -> holds (p :: seen) t'.
Proof.
  intros HL G I Hp H E. unfold put in E.
  pose proof (holds_insert given seen t p G I Hp H) as H1.
  destruct (reBuild_cases _ _ _ _ E) as [[_ ->]|[_ ->]]; [exact H1|].
  apply (holds_rebuild L given); auto.
  intros e [<-|He]; [exact Hp | apply I; exact He].
Qed.

Lemma holds_puts (L : Library) (b : bool) (given ps : list Point) :
  nth_element_permutes L ->
  equal_only_if_same given ->
  forall seen t t',
    incl seen given -> incl ps given ->
    holds seen t -> puts L b ps t = Some t' -> holds (rev ps ++ seen) t'.
Proof.
  intros HL G. unfold puts.
  induction ps as [|p ps IH]; intros seen t t' I J H E; simpl in E.
  - injection E as <-. exact H.
  - destruct (put L b p t) as [t1|] eqn:E1.
    + simpl. rewrite <- app_assoc. simpl. apply (IH (p :: seen) t1 t').
      * intros e [<-|He]; [apply J; left; reflexivity | apply I; exact He].
      * intros e He. apply J. right. exact He.
      * apply (holds_put L b given seen t t1 p); auto. apply J. left. reflexivity.
      * exact E.
    + rewrite puts_none in E. discriminate.
Qed.

Lemma holds_reached (L : Library) (b : bool) (points ps : list Point) (t : PointSet) :
  nth_element_permutes L ->
  equal_only_if_same (points ++ ps) ->
  puts L b ps (PointSet_of L points) = Some t ->
  holds (points ++ ps) t.
Proof.
  intros HL G E.
  apply (holds_equiv (rev ps ++ points)).
  - intro g. rewrite !in_app_iff, <- in_rev. tauto.
  - apply (holds_puts L b (points ++ ps) ps HL G points (PointSet_of L points)).
    + apply incl_appl, incl_refl.
    + apply incl_appr, incl_refl.
    + apply (holds_build L (points ++ ps)); auto. apply incl_appl, incl_refl.
    + exact E.
Qed.

Lemma puts_return (L : Library) (ps : list Point) :
  forall t, exists t', puts L true ps t = Some t'.
Proof.
  unfold puts. induction ps as [|p ps IH]; intro t; simpl.
  - eexists; reflexivity.
  - assert (E : exists t1, put L true p t = Some t1).
    { unfold put, reBuild. rewrite traverse_true.
      destruct (depth_exceeds L _ _); eexists; reflexivity. }
    destruct E as [t1 ->]. apply IH.
Qed.

Lemma same_coordinates_equivalence : Equivalence same_coordinates.
Proof.
  split.
  - exact same_coordinates_refl.
  - exact same_coordinates_sym.
  - exact same_coordinates_trans.
Qed.

Lemma distinct_in (v : list Point) (d : Point) : In d (distinct v) -> In d v.
Proof.
  induction v as [|a v IH]; simpl; [auto|].
  destruct (existsb (Point_eqb a) v); simpl; intuition.
Qed.

Lemma distinct_nodup (v : list Point) : NoDupA same_coordinates (distinct v).
Proof.
  induction v as [|a v IH]; simpl; [constructor|].
  destruct (existsb (Point_eqb a) v) eqn:E; [exact IH|].
  constructor; [|exact IH]. intro Hin. apply InA_alt in Hin.
  destruct Hin as (d & S & Hd).
  assert (X : existsb (Point_eqb a) v = true).
  { apply existsb_exists. exists d. split; [apply distinct_in; exact Hd|].
    apply Point_eqb_same_coordinates. exact S. }
  congruence.
Qed.

Lemma distinct_covers (v : list Point) :
  equal_only_if_same v ->
  forall g, In g v -> exists d, In d (distinct v) /\ same_coordinates g d.
Proof.
  induction v as [|a v IH]; intros G g Hg; [destruct Hg|].
  assert (G' : equal_only_if_same v).
  { intros u w Hu Hw. apply G; right; assumption. }
  assert (K : forall g, In g v ->
                exists d, In d (distinct (a :: v)) /\ same_coordinates g d).
  { intros g' Hg'. destruct (IH G' g' Hg') as (d & Hd & S). exists d.
    split; [|exact S]. simpl. destruct (existsb (Point_eqb a) v); [|right]; exact Hd. }
  destruct Hg as [<-|Hg]; [|apply K; exact Hg].
  destruct (existsb (Point_eqb a) v) eqn:E.
  - apply existsb_exists in E. destruct E as (w & Hw & E).
    destruct (K w Hw) as (d & Hd & S). exists d. split; [exact Hd|].
    apply (same_coordinates_trans a w d); [|exact S].
    apply G; [left; reflexivity | right; exact Hw | exact E].
  - exists a. split; [|apply same_coordinates_refl].
    simpl. rewrite E. left. reflexivity.
Qed.

Lemma all_apart_nodup (v : list Point) :
  all_apart v -> NoDupA same_coordinates v.
Proof.
  intros [N A]. induction v as [|a v IH]; [constructor|].
  inversion N as [|? ? Hn N']; subst. constructor.
  - intro Hin. apply InA_alt in Hin. destruct Hin as (d & S & Hd).
    assert (X : Point_eqb a d = false).
    { apply A; [left; reflexivity | right; exact Hd |]. intros ->. contradiction. }
    rewrite (Point_eqb_same_coordinates a d S) in X. discriminate.
  - apply IH; [exact N'|]. intros u w Hu Hw. apply A; right; assumption.
Qed.

Lemma PermutationA_same_length {A : Type} (eqA : relation A) (u v : list A) :
  PermutationA eqA u v -> length u = length v.
Proof.
  induction 1; simpl; congruence.
Qed.

Lemma holds_size (seen : list Point) (t : PointSet) :
  equal_only_if_same seen -> holds seen t ->
  size t = length (distinct seen).
Proof.
  intros G H. unfold size. rewrite (wf_size t (holds_wf _ _ H)), count_length.
  fold (stored t).
  apply (PermutationA_same_length same_coordinates).
  apply NoDupA_equivlistA_PermutationA.
  - exact same_coordinates_equivalence.
  - apply all_apart_nodup. apply (holds_apart _ _ H).
  - apply distinct_nodup.
  - intro e. rewrite !InA_alt. split; intros (u & S & Hu).
    + destruct (distinct_covers seen G u (holds_stored _ _ H u Hu)) as (d & Hd & S').
      exists d. split; [|exact Hd]. eapply same_coordinates_trans; eauto.
    + destruct (holds_found _ _ H u (distinct_in _ _ Hu)) as (s & Hs & S').
      exists s. split; [|exact Hs].
      eapply same_coordinates_trans; [exact S|].
      apply same_coordinates_sym. exact S'.
Qed.

Lemma represented_contains (p : Point) (t : PointSet) :
  well_formed t -> represented p t -> contains p t = true.
Proof.
  intros W (s & Hs & E). rewrite <- (contains_same s p t E).
  apply contains_stored; assumption.
Qed.

Lemma represented_insert_kept (p q : Point) (t : PointSet) :
  represented p t -> represented p (insert_root q t).
Proof.
  intros (s & Hs & E). exists s. split; [|exact E].
  apply stored_insert_root_keeps. exact Hs.
Qed.

Lemma represented_insert (given : list Point) (p s : Point) (t : PointSet) :
  well_formed t -> incl (stored t) given ->
  equal_only_to_same given p -> same_coordinates s p ->
  represented p (insert_root s t).
Proof.
  intros W I G E. destruct (contains s t) eqn:C.
  - rewrite (insert_root_found s t W C). unfold contains, stored in *.
    destruct (find s (m_root t)) as [|lt s' d rt] eqn:F; [discriminate|].
    destruct (find_sound _ _ _ _ _ _ F) as [Hs Es].
    exists s'. split; [exact Hs|]. apply G; [apply I; exact Hs|].
    rewrite <- (Point_eqb_same_r s' s p E). exact Es.
  - assert (F : find s (m_root t) = nullptr).
    { unfold contains in C. destruct (find s (m_root t)); congruence. }
    destruct (insert_new s (m_root t) 0 (max_depth t, m_size t) F) as [P _].
    exists s. split; [|exact E]. unfold stored. rewrite insert_root_eq.
    apply (Permutation_in _ (Permutation_sym P)). left. reflexivity.
Qed.

Lemma represented_insert_all (given : list Point) (p : Point) :
  equal_only_to_same given p ->
  forall ins t,
    well_formed t -> incl (stored t) given -> incl ins given ->
    represented p t \/ (exists s, In s ins /\ same_coordinates s p) ->
    represented p (insert_all ins t).
Proof.
  intro G. induction ins as [|m ins IH]; intros t W I J H.
  - destruct H as [H|(s & [] & _)]. exact H.
  - simpl. apply IH.
    + apply well_formed_insert. exact W.
    + intros e He. destruct (stored_insert_root_adds_only _ _ _ He) as [H1| ->].
      * apply I. exact H1.
      * apply J. left. reflexivity.
    + intros e He. apply J. right. exact He.
    + destruct H as [H|(s & [<-|Hs] & E)].
      * left. apply represented_insert_kept. exact H.
      * left. apply (represented_insert given); assumption.
      * right. exists s. split; assumption.
Qed.

Lemma represented_build (L : Library) (given points : list Point) (p : Point) :
  nth_element_permutes L ->
  equal_only_to_same given p -> incl points given ->
  (exists s, In s points /\ same_coordinates s p) ->
  represented p (build L empty_set points).
Proof.
  intros HL G I (s & Hs & E).
  destruct (build_inserts L empty_set points HL) as (ins & -> & P).
  apply (represented_insert_all given p G).
  - exact well_formed_empty.
  - intros e [].
  - intros e He. apply I. eapply Permutation_in; eauto.
  - right. exists s. split; [|exact E].
    eapply Permutation_in; [symmetry; exact P | exact Hs].
Qed.

Lemma stored_put_adds_only (L : Library) (b : bool) (p q : Point)
  (t t' : PointSet) :
  nth_element_permutes L ->
  put L b p t = Some t' -> In q (stored t') -> In q (stored t) \/ q = p.
Proof.
  intros HL E H. unfold put in E.
  destruct (reBuild_cases _ _ _ _ E) as [[_ ->]|[_ ->]].
  - apply stored_insert_root_adds_only. exact H.
  - apply stored_build in H; [|exact HL].
    apply stored_insert_root_adds_only. exact H.
Qed.

Lemma represented_put (L : Library) (b : bool) (given : list Point)
  (p q : Point) (t t' : PointSet) :
  nth_element_permutes L ->
  equal_only_to_same given p ->
  well_formed t -> incl (stored t) given -> In q given ->
  represented p t \/ same_coordinates q p ->
  put L b q t = Some t' -> represented p t'.
Proof.
  intros HL G W I Hq H E. unfold put in E.
  assert (H1 : represented p (insert_root q t)).
  { destruct H as [H|H].
    - apply represented_insert_kept. exact H.
    - apply (represented_insert given); assumption. }
  destruct (reBuild_cases _ _ _ _ E) as [[_ ->]|[_ ->]]; [exact H1|].
  apply (represented_build L given); auto.
  intros e He. destruct (stored_insert_root_adds_only _ _ _ He) as [H2| ->].
  - apply I. exact H2.
  - exact Hq.
Qed.

Lemma represented_puts (L : Library) (b : bool) (given : list Point)
  (p : Point) :
  nth_element_permutes L ->
  equal_only_to_same given p ->
  forall ps t t',
    well_formed t -> incl (stored t) given -> incl ps given ->
    represented p t \/ In p ps ->
    puts L b ps t = Some t' -> represented p t' /\ well_formed t'.
Proof.
  intros HL G. unfold puts.
  induction ps as [|q ps IH]; intros t t' W I J H E; simpl in E.
  - injection E as <-. destruct H as [H|[]]. split; assumption.
  - destruct (put L b q t) as [t1|] eqn:E1.
    + assert (Hq : In q given) by (apply J; left; reflexivity).
      apply (IH t1 t').
      * eapply well_formed_put; eauto.
      * intros e He.
        destruct (stored_put_adds_only L b q e t t1 HL E1 He) as [H1| ->].
        -- apply I. exact H1.
        -- exact Hq.
      * intros e He. apply J. right. exact He.
      * destruct H as [H|[<-|H]].
        -- left. apply (represented_put L b given p q t t1); auto.
        -- left. apply (represented_put L b given q q t t1); auto.
           right. apply same_coordinates_refl.
        -- right. exact H.
      * exact E.
    + rewrite puts_none in E. discriminate.
Qed.

Lemma represented_reached (L : Library) (b : bool) (points ps : list Point)
  (t : PointSet) (p : Point) :
  nth_element_permutes L ->
  equal_only_to_same (points ++ ps) p ->
  In p (points ++ ps) ->
  puts L b ps (PointSet_of L points) = Some t ->
  represented p t /\ well_formed t.
Proof.
  intros HL G Hp E.
  apply (represented_puts L b (points ++ ps) p HL G ps (PointSet_of L points) t).
  - apply well_formed_build; [exact HL | exact well_formed_empty].
  - intros e He. apply in_or_app. left. apply (stored_build L points e HL He).
  - apply incl_appr, incl_refl.
  - apply in_app_or in Hp. destruct Hp as [Hp|Hp]; [left|right; exact Hp].
    apply (represented_build L (points ++ ps)); auto.
    + apply incl_appl, incl_refl.
    + exists p. split; [exact Hp | apply same_coordinates_refl].
  - exact E.
Qed.

Lemma put_returns (L : Library) (b : bool) (p : Point) (t : PointSet) :
  let t1 := insert_root p t in
  depth_exceeds L (max_depth t1) (m_size t1) = false
  \/ b || has_right_child (m_root t1) = true ->
  exists t', put L b p t = Some t'.
Proof.
  intros t1 [E|F]; unfold put, reBuild; fold t1.
  - rewrite E. eexists; reflexivity.
  - rewrite (traverse_completes b t1 F).
    destruct (depth_exceeds L (max_depth t1) (m_size t1)); eexists; reflexivity.
Qed.

(** C4, as the code has it.  Let a set be made by the constructor from the
    points [points] and changed by [put] of the points [ps] in turn, with
    any rebuilds on the way, and let [p] be one of these points such that
    every one of them equal to [p] by [operator==] has the coordinates of
    [p].  Then [contains(p)] is true and a point with the coordinates of
    [p] is stored, whenever the calls return.  Without the condition on
    [p]: after a [put(p)] that does not rebuild, [contains(p)] is true and
    every true [contains(q)] is still true, and a point stored in a node
    is found by [contains] after every [put].  A [put] returns whenever no
    rebuild is due, the unset flag of [next] reads true or the root has a
    right child. *)
Theorem put_contains (L : Library) (b : bool) (points ps : list Point) :
  nth_element_permutes L ->
  (forall t p,
     puts L b ps (PointSet_of L points) = Some t ->
     In p (points ++ ps) ->
     equal_only_to_same (points ++ ps) p ->
     contains p t = true
     /\ exists s, In s (stored t) /\ same_coordinates s p)
  /\ (forall t p t',
        puts L b ps (PointSet_of L points) = Some t ->
        put L b p t = Some t' ->
        let t1 := insert_root p t in
        (depth_exceeds L (max_depth t1) (m_size t1) = false ->
         contains p t' = true
         /\ forall q, contains q t = true -> contains q t' = true)
        /\ forall q, In q (stored t) -> contains q t' = true)
  /\ (forall t p,
        let t1 := insert_root p t in
        depth_exceeds L (max_depth t1) (m_size t1) = false
        \/ b || has_right_child (m_root t1) = true ->
        exists t', put L b p t = Some t')
  /\ exists t, puts L true ps (PointSet_of L points) = Some t.
Proof.
  intro HL. split; [|split; [|split]].
  - intros t p E Hp G.
    destruct (represented_reached L b points ps t p HL G Hp E) as [R W].
    split; [apply represented_contains; assumption | exact R].
  - intros t p t' E H t1.
    assert (W : well_formed t).
    { apply (well_formed_reachable L b); [exact HL|].
      exact (reachable_puts _ _ _ _ _ (Reachable_ctor _ _ points) E). }
    unfold put in H. fold t1 in H.
    destruct (reBuild_cases _ _ _ _ H) as [[F ->]|[F ->]].
    + split.
      * intros _. split; [apply contains_insert_root|].
        intros q Hq. apply contains_insert_root_kept. exact Hq.
      * intros q Hq. apply contains_insert_root_kept.
        apply contains_stored; assumption.
    + split; [congruence|].
      intros q Hq. apply contains_build; [exact HL|].
      apply stored_insert_root_keeps. exact Hq.
  - intros t p. apply put_returns.
  - apply puts_return.
Qed.

Lemma pt_d_equal_only_to_same :
  equal_only_to_same ([] ++ [pt_a; pt_a'; pt_n; pt_c; pt_d]) pt_d.
Proof.
  intros g Hg. simpl in Hg.
  destruct Hg as [<-|[<-|[<-|[<-|[<-|[]]]]]];
    intro E; try (split; reflexivity); vm_compute in E; discriminate E.
Defined.

Lemma put_contains_witness :
  contains pt_d
    (mkPointSet 2
       (mkNode (mkNode (mkNode nullptr pt_a 2 nullptr) pt_n 1 nullptr) pt_c 0
          (mkNode nullptr pt_d 1 nullptr)) 4) = true.
Proof.
  refine (proj1 (proj1 (put_contains small_library true []
                          [pt_a; pt_a'; pt_n; pt_c; pt_d]
                          small_library_permutes)
                   _ pt_d _ _ pt_d_equal_only_to_same)).
  - vm_compute. reflexivity.
  - simpl. auto 10.
Defined.

(** C4 fails as stated: [put(pt_a')] finds [pt_a], equal to it by
    [operator==], and stores nothing; [contains(pt_a')] is true then.  Three
    more [put] calls rebuild the tree, [pt_n] comes to lie between the two on
    the way down, and [contains(pt_a')] is false.  The unset flag of [next]
    is not read on the way (the outcome is the same for both values), and
    the coordinates are pairwise different on each axis, so every
    [std::nth_element] gives this tree. *)
Lemma contains_lost_after_rebuild :
  let t2 := mkPointSet 0 (mkNode nullptr pt_a 0 nullptr) 1 in
  let t5 :=
    mkPointSet 2
      (mkNode (mkNode (mkNode nullptr pt_a 2 nullptr) pt_n 1 nullptr) pt_c 0
         (mkNode nullptr pt_d 1 nullptr)) 4 in
  puts small_library true [pt_a; pt_a'] empty_set = Some t2
  /\ contains pt_a' t2 = true
  /\ puts small_library true [pt_n; pt_c; pt_d] t2 = Some t5
  /\ puts small_library false [pt_a; pt_a'; pt_n; pt_c; pt_d] empty_set = Some t5
  /\ Reachable small_library true t5
  /\ contains pt_a' t5 = false.
Proof.
  intros t2 t5.
  assert (E : puts small_library true [pt_a; pt_a'; pt_n; pt_c; pt_d] empty_set
              = Some t5) by (vm_compute; reflexivity).
  repeat split; try (vm_compute; reflexivity).
  exact (reachable_puts _ _ _ _ _ (reachable_empty _ _) E).
Qed.

(** What [put] does when it returns.  [put] first inserts.  When the recorded maximum depth does not
    exceed [2 * log(size)], the tree is the one the insertion produced.
    When it does, the points are dumped in order and the tree is replaced by
    the one the builder makes of the dump, starting from an empty tree with
    [max_depth] and [m_size] at 0; the recorded depth and size are then
    those of the new tree, which holds dumped points only and in which
    [contains] finds each dumped point.  The dump loop ends whenever the
    unset flag of [next] reads true or the root has a right child (the flag
    is then not read). *)
Lemma put_rebuild_cases (L : Library) (b : bool) (p : Point) (t : PointSet) :
  nth_element_permutes L ->
  let t1 := insert_root p t in
  let rebuilt := build L empty_set (inorder (m_root t1)) in
  (depth_exceeds L (max_depth t1) (m_size t1) = false ->
   put L b p t = Some t1)
  /\ (depth_exceeds L (max_depth t1) (m_size t1) = true ->
      (b || has_right_child (m_root t1) = true ->
       traverse b t1 = Some (inorder (m_root t1))
       /\ put L b p t = Some rebuilt)
      /\ (forall t', put L b p t = Some t' -> t' = rebuilt)
      /\ max_depth rebuilt = deepest (m_root rebuilt)
      /\ m_size rebuilt = count (m_root rebuilt)
      /\ (forall q, In q (stored rebuilt) -> In q (stored t1))
      /\ (forall q, In q (stored t1) -> contains q rebuilt = true)).
Proof.
  intros HL t1 rebuilt. split.
  - intro E. unfold put, reBuild. fold t1. rewrite E. reflexivity.
  - intro E. split; [|split; [|split; [|split; [|split]]]].
    + intro F. pose proof (traverse_completes b t1 F) as T. split; [exact T|].
      unfold put, reBuild. fold t1. rewrite E, T. reflexivity.
    + intros t' H. unfold put in H. fold t1 in H.
      destruct (reBuild_cases _ _ _ _ H) as [[F _]|[_ ->]]; [congruence|].
      reflexivity.
    + apply wf_depth. apply well_formed_build; [exact HL|apply well_formed_empty].
    + apply wf_size. apply well_formed_build; [exact HL|apply well_formed_empty].
    + intros q. apply stored_build. exact HL.
    + intros q. apply contains_build. exact HL.
Qed.

(** A [put] that rebuilds: the fourth point makes a chain of depth 3 and
    the builder balances it. *)
Example put_rebuilds_chain :
  put small_library true pt_d
    (mkPointSet 2
       (mkNode nullptr pt_a 0 (mkNode nullptr pt_n 1 (mkNode nullptr pt_c 2 nullptr)))
       3)
  = Some (mkPointSet 2
            (mkNode (mkNode (mkNode nullptr pt_a 2 nullptr) pt_n 1 nullptr) pt_c 0
               (mkNode nullptr pt_d 1 nullptr)) 4).
Proof. vm_compute. reflexivity. Qed.

(** C5 fails on the code.  After [put] of (4,4), (3,3) and (2,2) the tree
    is a chain to the left of the root.  [put((1,1))] makes it deeper:
    the recorded depth is 3, the size is 4, and 3 exceeds [2 * log(4)], so
    a rebuild is due.  The loop of [reBuild] that dumps the points walks
    the tree with [next]; the root has no right child, the unset flag of
    [next] is read there, and when it reads false the loop never ends:
    [put] does not return and no tree is rebuilt.  When the flag reads
    true the same call returns the rebuilt tree. *)
Theorem rebuild_never_returns :
  let t3 :=
    mkPointSet 2
      (mkNode (mkNode (mkNode nullptr (mkPoint 2 2) 2 nullptr) (mkPoint 3 3) 1
                 nullptr) (mkPoint 4 4) 0 nullptr) 3 in
  let t4 := insert_root (mkPoint 1 1) t3 in
  puts small_library false descending empty_set = Some t3
  /\ Reachable small_library false t3
  /\ (max_depth t4, m_size t4) = (3%nat, 4%nat)
  /\ depth_exceeds small_library 3 4 = true
  /\ has_right_child (m_root t4) = false
  /\ (forall fuel, iterate fuel false (begin t4) [] = None)
  /\ put small_library false (mkPoint 1 1) t3 = None
  /\ put small_library true (mkPoint 1 1) t3
     = Some (build small_library empty_set (inorder (m_root t4))).
Proof.
  intros t3 t4.
  assert (E : puts small_library false descending empty_set = Some t3)
    by (vm_compute; reflexivity).
  split; [exact E|]. split.
  { exact (reachable_puts _ _ _ _ _ (reachable_empty _ _) E). }
  split; [vm_compute; reflexivity|]. split; [vm_compute; reflexivity|].
  split; [reflexivity|]. split.
  { apply (iterate_never_ends
             (mkNode (mkNode (mkNode nullptr (mkPoint 1 1) 3 nullptr)
                        (mkPoint 2 2) 2 nullptr) (mkPoint 3 3) 1 nullptr)
             (mkPoint 4 4) 0 t4).
    vm_compute. reflexivity. }
  split; vm_compute; reflexivity.
Qed.

(** C8, as the code has it.  Let a set be made by the constructor from the
    points [points] and changed by [put] of the points [ps] in turn, and
    let no two of these points be equal by [operator==] unless they have
    the same coordinates.  Then [size()] is the number of distinct points
    among them, and [put(p)] of a point equal by [operator==] to a stored
    point, and to no given point of other coordinates, leaves [size()] and
    the stored points unchanged, also when it rebuilds the tree.  Without
    the condition: [size()] is the number of nodes, and [put(p)] changes
    nothing when [contains(p)] is true and no rebuild is due. *)
Theorem put_duplicate (L : Library) (b : bool) (points ps : list Point)
  (t : PointSet) :
  nth_element_permutes L ->
  puts L b ps (PointSet_of L points) = Some t ->
  (equal_only_if_same (points ++ ps) ->
   size t = length (distinct (points ++ ps))
   /\ forall p s t',
        In s (stored t) -> Point_eqb s p = true ->
        equal_only_to_same (points ++ ps) p ->
        put L b p t = Some t' ->
        size t' = size t /\ Permutation (stored t') (stored t))
  /\ size t = length (stored t)
  /\ forall p, contains p t = true ->
       insert_root p t = t
       /\ (depth_exceeds L (max_depth t) (m_size t) = false ->
           put L b p t = Some t).
Proof.
  intros HL E.
  assert (W : well_formed t).
  { apply (well_formed_reachable L b); [exact HL|].
    exact (reachable_puts _ _ _ _ _ (Reachable_ctor _ _ points) E). }
  split; [|split].
  - intro G. pose proof (holds_reached L b points ps t HL G E) as H.
    split; [apply holds_size; assumption|].
    intros p s t' Hs Es Gp E'. unfold put in E'.
    assert (C : contains p t = true).
    { rewrite <- (contains_same s p t).
      - apply contains_stored; assumption.
      - apply Gp; [apply (holds_stored _ _ H); exact Hs | exact Es]. }
    rewrite (insert_root_found p t W C) in E'.
    destruct (reBuild_cases _ _ _ _ E') as [[_ ->]|[_ ->]].
    + split; [reflexivity | apply Permutation_refl].
    + pose proof (holds_rebuild L (points ++ ps) (points ++ ps) t HL G
                    (incl_refl _) H) as H'.
      assert (S : size (build L empty_set (stored t)) = size t).
      { rewrite (holds_size _ _ G H'), (holds_size _ _ G H). reflexivity. }
      split; [exact S|].
      apply NoDup_Permutation_bis.
      * apply (holds_apart _ _ H').
      * unfold size in S. rewrite (wf_size _ (holds_wf _ _ H')) in S.
        rewrite (wf_size _ W) in S. rewrite !count_length in S.
        change (length (stored (build L empty_set (stored t)))
                = length (stored t)) in S.
        rewrite S. apply le_n.
      * intros e. apply stored_build. exact HL.
  - unfold size, stored. rewrite <- count_length. apply wf_size. exact W.
  - intros p C. pose proof (insert_root_found p t W C) as Ei.
    split; [exact Ei|].
    intro F. unfold put, reBuild. rewrite Ei, F. reflexivity.
Qed.

Lemma two_lines_unequal :
  equal_only_if_same ([pt_u2; pt_u1; pt_v1; pt_v2] ++ []).
Proof.
  intros a b Ha Hb. simpl in Ha, Hb.
  destruct Ha as [<-|[<-|[<-|[<-|[]]]]]; destruct Hb as [<-|[<-|[<-|[<-|[]]]]];
    intro E; try (split; reflexivity); vm_compute in E; discriminate E.
Defined.

Lemma put_duplicate_witness :
  let t := PointSet_of small_library [pt_u2; pt_u1; pt_v1; pt_v2] in
  let t' :=
    mkPointSet 3
      (mkNode
         (mkNode (mkNode nullptr pt_u2 2 (mkNode nullptr pt_v1 3 nullptr))
            pt_u1 1 nullptr)
         pt_v2 0 nullptr) 4 in
  size t' = size t /\ Permutation (stored t') (stored t).
Proof.
  intros t t'.
  refine (proj2 (proj1 (put_duplicate small_library true
                          [pt_u2; pt_u1; pt_v1; pt_v2] [] t
                          small_library_permutes eq_refl)
                   two_lines_unequal)
            pt_v1 pt_v1 t' _ _ _ _).
  - vm_compute. auto.
  - vm_compute. reflexivity.
  - intros g Hg. apply two_lines_unequal; [exact Hg|]. simpl. auto.
  - vm_compute. reflexivity.
Defined.

(** C8 fails as stated: after [put(pt_o)] and [put(pt_q)] the point [pt_q]
    is stored and [size()] is 2; [pt_q'] is equal to [pt_q] by
    [operator==], but it lies on the other side of the split at the root, is
    not compared with it, and [put(pt_q')] stores it: [size()] is 3.
    Moreover [operator==] is not transitive, and [size()] depends on the
    order of the calls: the same three points [pt_l], [pt_m], [pt_r] give
    size 2 in one order and size 1 in another. *)
Lemma duplicate_stored_twice :
  let t2 :=
    mkPointSet 1 (mkNode (mkNode nullptr pt_q 1 nullptr) pt_o 0 nullptr) 2 in
  let t3 :=
    mkPointSet 1
      (mkNode (mkNode nullptr pt_q 1 nullptr) pt_o 0
         (mkNode nullptr pt_q' 1 nullptr)) 3 in
  puts small_library true [pt_o; pt_q] empty_set = Some t2
  /\ Reachable small_library true t2
  /\ In pt_q (stored t2)
  /\ Point_eqb pt_q pt_q' = true
  /\ put small_library true pt_q' t2 = Some t3
  /\ (size t2, size t3) = (2%nat, 3%nat)
  /\ stored t3 = [pt_q; pt_o; pt_q']
  /\ (Point_eqb pt_l pt_m, Point_eqb pt_m pt_r, Point_eqb pt_l pt_r)
     = (true, true, false)
  /\ option_map size (puts small_library true [pt_l; pt_r; pt_m] empty_set)
     = Some 2%nat
  /\ option_map size (puts small_library true [pt_m; pt_l; pt_r] empty_set)
     = Some 1%nat.
Proof.
  intros t2 t3.
  assert (E : puts small_library true [pt_o; pt_q] empty_set = Some t2)
    by (vm_compute; reflexivity).
  repeat split; try (vm_compute; reflexivity).
  - exact (reachable_puts _ _ _ _ _ (reachable_empty _ _) E).
  - simpl. auto.
Qed.

(** ** [nearest(point)] on the empty set *)

(** C1 fails on the code.  On a set without points [nearest] evaluates
    [*m_root->m_point] with [m_root] null, and no call of [nearest] returns
    an empty [optional]. *)
Theorem nearest_empty_dereferences_null :
  (forall (q : Point) (md sz : nat),
      nearest q (mkPointSet md nullptr sz) = NullDereference)
  /\ (forall (q : Point), nearest q empty_set = NullDereference)
  /\ (forall (q : Point) (t : PointSet), nearest q t <> Returns None).
Proof.
  split; [|split].
  - reflexivity.
  - reflexivity.
  - intros q t. unfold nearest. destruct (m_root t); discriminate.
Qed.

(** ** Iteration with the flag read as unset *)

(** C7 fails on the code.  When the root has no right child, [next] at the
    root does not run its loop and reads [isRight], which was never
    assigned.  If it reads false, [next] returns the root itself, and the
    loop from [begin()] to [end()] never ends. *)
Theorem iteration_never_ends_at_root (lt : Node) (pt : Point) (d md sz : nat) :
  let t := mkPointSet md (mkNode lt pt d nullptr) sz in
  next false (root_ptr t) = root_ptr t
  /\ forall fuel, iterate fuel false (begin t) [] = None.
Proof.
  intro t. split.
  - reflexivity.
  - apply (iterate_never_ends lt pt d t). reflexivity.
Qed.

(** On the tree with the single point [pt_a]. *)
Lemma iteration_single_point :
  PointSet_of small_library [pt_a] = mkPointSet 0 (mkNode nullptr pt_a 0 nullptr) 1
  /\ begin (PointSet_of small_library [pt_a]) = at_node nullptr pt_a 0 nullptr AtRoot
  /\ next false (at_node nullptr pt_a 0 nullptr AtRoot)
     = at_node nullptr pt_a 0 nullptr AtRoot
  /\ next true (at_node nullptr pt_a 0 nullptr AtRoot) = null.
Proof. repeat split. Qed.

(** ** [range] *)

Lemma findPointsInRectangle_acc (rect : Rect) (node : Node) :
  forall points,
    findPointsInRectangle node points rect
    = points ++ findPointsInRectangle node [] rect.
Proof.
  induction node as [|lt IHl pt d rt IHr]; intro points.
  - simpl. rewrite app_nil_r. reflexivity.
  - cbn [findPointsInRectangle]. cbv zeta.
    fold (visits_left rect d pt). fold (visits_right rect d pt).
    destruct (Rect_contains rect pt), (visits_left rect d pt),
      (visits_right rect d pt); simpl;
      repeat match goal with
        | |- context [findPointsInRectangle rt ?acc rect] =>
            lazymatch acc with
            | [] => fail
            | _ => rewrite (IHr acc)
            end
        | |- context [findPointsInRectangle lt ?acc rect] =>
            lazymatch acc with
            | [] => fail
            | _ => rewrite (IHl acc)
            end
        end;
      rewrite <- ?app_assoc; simpl; rewrite ?app_nil_r; reflexivity.
Qed.

Lemma findPointsInRectangle_node (rect : Rect) lt pt d rt :
  findPointsInRectangle (mkNode lt pt d rt) [] rect
  = (if Rect_contains rect pt then [pt] else [])
    ++ (if visits_left rect d pt then findPointsInRectangle lt [] rect else [])
    ++ (if visits_right rect d pt then findPointsInRectangle rt [] rect else []).
Proof.
  cbn [findPointsInRectangle]. cbv zeta.
  fold (visits_left rect d pt). fold (visits_right rect d pt).
  destruct (Rect_contains rect pt), (visits_left rect d pt),
    (visits_right rect d pt); simpl;
    repeat match goal with
      | |- context [findPointsInRectangle ?n ?acc rect] =>
          lazymatch acc with
          | [] => fail
          | _ => rewrite (findPointsInRectangle_acc rect n acc)
          end
      end;
    rewrite <- ?app_assoc; simpl; rewrite ?app_nil_r; reflexivity.
Qed.

(** Every point [range] returns is stored and satisfies [Rect::contains]. *)
Lemma range_sound (rect : Rect) (node : Node) (q : Point) :
  In q (findPointsInRectangle node [] rect) ->
  In q (inorder node) /\ Rect_contains rect q = true.
Proof.
  induction node as [|lt IHl pt d rt IHr].
  - intros [].
  - rewrite findPointsInRectangle_node. simpl inorder. intro H.
    apply in_app_or in H. destruct H as [H|H].
    + destruct (Rect_contains rect pt) eqn:Ec; [|destruct H].
      destruct H as [<-|[]]. split; [apply in_elt | exact Ec].
    + apply in_app_or in H. destruct H as [H|H].
      * destruct (visits_left rect d pt); [|destruct H].
        destruct (IHl H). split; [apply in_or_app; left|]; assumption.
      * destruct (visits_right rect d pt); [|destruct H].
        destruct (IHr H). split; [apply in_or_app; right; right|]; assumption.
Qed.

Lemma Rect_contains_inside (rect : Rect) (q : Point) :
  xmin rect <= x q <= xmax rect -> ymin rect <= y q <= ymax rect ->
  Rect_contains rect q = true.
Proof.
  intros [H1 H2] [H3 H4]. unfold Rect_contains, Rect_distance.
  apply Qle_bool_iff in H1, H2, H3, H4. rewrite H1, H2, H3, H4. reflexivity.
Qed.

(** Every stored point inside the closed box is returned by [range]. *)
Lemma range_complete_inside (rect : Rect) (node : Node) (q : Point) :
  forall dep,
    kd_ordered dep node ->
    In q (inorder node) ->
    xmin rect <= x q <= xmax rect -> ymin rect <= y q <= ymax rect ->
    In q (findPointsInRectangle node [] rect).
Proof.
  induction node as [|lt IHl pt d rt IHr]; intros dep K Hin Hx Hy.
  - destruct Hin.
  - destruct K as (-> & Hl & Hr & Kl & Kr).
    rewrite findPointsInRectangle_node. simpl in Hin.
    apply in_app_or in Hin. destruct Hin as [Hin|[->|Hin]].
    + apply in_or_app. right. apply in_or_app. left.
      assert (V : visits_left rect dep pt = true).
      { specialize (Hl q Hin). unfold visits_left, split_coord in *.
        destruct (Nat.even dep); apply Qle_bool_iff; lra. }
      rewrite V. eapply IHl; eauto.
    + apply in_or_app. left. rewrite Rect_contains_inside by assumption.
      left. reflexivity.
    + apply in_or_app. right. apply in_or_app. right.
      assert (V : visits_right rect dep pt = true).
      { specialize (Hr q Hin). unfold visits_right, split_coord in *.
        destruct (Nat.even dep); apply Qle_bool_iff; lra. }
      rewrite V. eapply IHr; eauto.
Qed.

(** C2 fails on the code.  [pt_e1] and [pt_e2] are stored, both lie left of
    the rectangle [unit2] by less than [eps] and satisfy [Rect::contains];
    [pt_e1] is the root and [pt_e2] its left child, whether the set is made
    by two [put] calls or by the constructor.  At the root
    [findPointsInRectangle] compares [pt_e1.x()] with [xmin] without
    tolerance, does not visit the left subtree, and [range] returns
    [pt_e1] only, where a scan of all stored points with [Rect::contains]
    (what [rbtree::PointSet::range] does) gives both. *)
Theorem range_omits_point_within_eps :
  let t := mkPointSet 1 (mkNode (mkNode nullptr pt_e2 1 nullptr) pt_e1 0 nullptr) 2 in
  puts small_library true [pt_e1; pt_e2] empty_set = Some t
  /\ PointSet_of small_library [pt_e1; pt_e2] = t
  /\ Rect_contains unit2 pt_e1 = true
  /\ Rect_contains unit2 pt_e2 = true
  /\ range unit2 t = [pt_e1]
  /\ filter (Rect_contains unit2) (stored t) = [pt_e2; pt_e1].
Proof. repeat split; vm_compute; reflexivity. Qed.

(** What [range] does guarantee on reachable trees. *)
Lemma range_between (L : Library) (b : bool) (t : PointSet) (rect : Rect) :
  nth_element_permutes L ->
  Reachable L b t ->
  (forall q, In q (range rect t) ->
             In q (stored t) /\ Rect_contains rect q = true)
  /\ (forall q, In q (stored t) ->
                xmin rect <= x q <= xmax rect -> ymin rect <= y q <= ymax rect ->
                In q (range rect t)).
Proof.
  intros HL R. split.
  - intros q. apply range_sound.
  - intros q. apply range_complete_inside with (dep := 0%nat).
    apply (wf_ordered t). eapply well_formed_reachable; eauto.
Qed.

(** ** [findNeighbour] and [nearest(point)] *)


Lemma distance_nonneg (a b : Point) : nonneg_double (distance a b).
Proof.
  unfold distance. apply double_sqrt_nonneg. apply double_add_nonneg;
    apply double_pow2_nonneg; apply double_sub_not_NaN.
Qed.

Lemma distance_not_NaN (a b : Point) : distance a b <> NaN.
Proof. apply nonneg_not_NaN. apply distance_nonneg. Qed.

Lemma not_farther_refl (q a : Point) : not_farther q a a.
Proof. apply double_leb_refl. apply distance_not_NaN. Qed.

Lemma not_farther_trans (q a b c : Point) :
  not_farther q a b -> not_farther q b c -> not_farther q a c.
Proof. apply double_leb_trans. Qed.

Lemma not_farther_of_closer (q a b : Point) :
  double_ltb (distance a q) (distance b q) = true -> not_farther q a b.
Proof. apply double_ltb_leb. Qed.

Lemma not_farther_of_not_closer (q a b : Point) :
  double_ltb (distance a q) (distance b q) = false -> not_farther q b a.
Proof. apply double_ltb_false; apply distance_not_NaN. Qed.









Lemma not_closer_of_not_farther (q a s : Point) :
  not_farther q a s -> ~ measured_closer q s a.
Proof.
  unfold not_farther, measured_closer. intros H1 H2.
  rewrite (double_leb_not_ltb _ _ H1) in H2. discriminate.
Qed.




(** The example of the specification: the nearest of [three_points] to the
    origin is [(1, 1)]. *)
Example nearest_three_points :
  nearest origin (PointSet_of small_library three_points)
  = Returns (Some (mkPoint 1 1)).
Proof. vm_compute. reflexivity. Qed.

(** ** [nearest(p, k)] *)

Section KNearest.

Variable q : Point.
Variable k : nat.

Lemma farther_or_equal_true (a c : Point) :
  (farther_or_equal q) a c = true <-> not_farther q a c.
Proof. unfold farther_or_equal, not_farther. tauto. Qed.

Lemma farther_or_equal_false (a c : Point) :
  (farther_or_equal q) a c = false -> not_farther q c a.
Proof.
  apply double_leb_false; apply distance_not_NaN.
Qed.

(** [std::max_element] with the comparator of [nearest(p, k)] points at an
    element no other element of the range is farther than. *)
Lemma max_element_from_farthest (v : list Point) :
  forall pre largest largest_val,
    nth_error (pre ++ v) largest = Some largest_val ->
    (forall a, In a pre -> not_farther q a largest_val) ->
    exists far,
      nth_error (pre ++ v)
        (max_element_from (farther_or_equal q) v (length pre) largest largest_val)
      = Some far
      /\ forall a, In a (pre ++ v) -> not_farther q a far.
Proof.
  induction v as [|e v IH]; intros pre largest lv Hn Hp.
  - simpl. exists lv. split; [exact Hn|].
    intros a Ha. rewrite app_nil_r in Ha. auto.
  - cbn [max_element_from].
    assert (Eapp : pre ++ e :: v = (pre ++ [e]) ++ v)
      by (rewrite <- app_assoc; reflexivity).
    assert (Elen : S (length pre) = length (pre ++ [e]))
      by (rewrite length_app; simpl; lia).
    destruct ((farther_or_equal q) lv e) eqn:Ec.
    + apply farther_or_equal_true in Ec.
      rewrite Eapp, Elen. apply IH.
      * rewrite <- Eapp. rewrite nth_error_app2 by lia.
        rewrite Nat.sub_diag. reflexivity.
      * intros a Ha. apply in_app_or in Ha. destruct Ha as [Ha|[<-|[]]].
        -- eapply not_farther_trans; [apply Hp; exact Ha | exact Ec].
        -- apply not_farther_refl.
    + apply farther_or_equal_false in Ec.
      rewrite Eapp, Elen. apply IH.
      * rewrite <- Eapp. exact Hn.
      * intros a Ha. apply in_app_or in Ha. destruct Ha as [Ha|[<-|[]]].
        -- apply Hp. exact Ha.
        -- exact Ec.
Qed.

Lemma max_element_farthest (v : list Point) :
  v <> [] ->
  exists far,
    nth_error v (max_element (farther_or_equal q) v) = Some far
    /\ forall a, In a v -> not_farther q a far.
Proof.
  destruct v as [|e v]; [congruence|]. intros _.
  apply (max_element_from_farthest v [e] 0%nat e).
  - reflexivity.
  - intros a [<-|[]]. apply not_farther_refl.
Qed.

Lemma assign_split {A : Type} (v1 v2 : list A) (old new : A) :
  assign (v1 ++ old :: v2) (length v1) new = v1 ++ new :: v2.
Proof.
  induction v1 as [|e v1 IH]; simpl; [reflexivity|]. rewrite IH. reflexivity.
Qed.

Lemma replace_in_buffer {A : Type} (v1 v2 rest : list A) (old new : A) :
  Permutation (((v1 ++ old :: v2) ++ rest) ++ [new])
    ((v1 ++ new :: v2) ++ old :: rest).
Proof.
  rewrite <- !app_assoc. simpl. apply Permutation_app_head.
  transitivity (old :: new :: v2 ++ rest).
  - apply perm_skip. rewrite app_assoc. symmetry. apply Permutation_cons_append.
  - transitivity (new :: old :: v2 ++ rest); [apply perm_swap|].
    apply perm_skip. apply Permutation_middle.
Qed.

Lemma selected_nil : selected q k [] [].
Proof.
  split; [simpl; lia|]. exists []. split; [constructor|]. intros a r [].
Qed.

Lemma nearest_step_selected (seen neighbours : list Point) (it : Point) :
  (0 < k)%nat ->
  selected q k seen neighbours ->
  selected q k (seen ++ [it]) (nearest_step q k neighbours it).
Proof.
  intros Hk (Hlen & rest & Hperm & Hfar).
  assert (Hseen : length seen = (length neighbours + length rest)%nat).
  { rewrite (Permutation_length Hperm), length_app. reflexivity. }
  unfold nearest_step.
  destruct (length neighbours <? k)%nat eqn:El.
  - (* the buffer is not full: nothing was left out so far *)
    apply Nat.ltb_lt in El.
    assert (rest = []) by (destruct rest; [reflexivity|simpl in Hseen; lia]).
    subst rest. rewrite app_nil_r in Hperm.
    split.
    + rewrite !length_app. simpl. lia.
    + exists []. split.
      * rewrite app_nil_r. apply Permutation_app_tail. exact Hperm.
      * intros a r _ [].
  - apply Nat.ltb_ge in El.
    assert (Hne : neighbours <> []) by (destruct neighbours; [simpl in El; lia|congruence]).
    destruct (max_element_farthest neighbours Hne) as (far & Hn & Hmax).
    change (fun lhs rhs : Point =>
              double_leb (distance lhs q) (distance rhs q))
      with (farther_or_equal q). rewrite Hn.
    destruct (nth_error_split _ _ Hn) as (v1 & v2 & Ev & Hl1).
    destruct (double_ltb (distance it q) (distance far q)) eqn:Ec.
    + (* [it] replaces the farthest element *)
      assert (Hit : not_farther q it far)
        by exact (not_farther_of_closer q it far Ec).
      rewrite <- Hl1. rewrite Ev. rewrite assign_split. split.
      * rewrite !length_app in *. simpl in *. rewrite Ev in Hlen.
        rewrite length_app in Hlen. simpl in Hlen. lia.
      * exists (far :: rest). split.
        -- rewrite Ev in Hperm.
           eapply Permutation_trans; [apply Permutation_app_tail; exact Hperm|].
           apply replace_in_buffer.
        -- intros a r Ha Hr.
           assert (Ha' : a = it \/ In a neighbours).
           { rewrite Ev. apply in_app_or in Ha. destruct Ha as [Ha|[<-|Ha]].
             - right. apply in_or_app. left. exact Ha.
             - left. reflexivity.
             - right. apply in_or_app. right. right. exact Ha. }
           assert (Hfarin : In far neighbours) by (rewrite Ev; apply in_elt).
           destruct Hr as [<-|Hr].
           ++ destruct Ha' as [->|Ha']; [exact Hit | apply Hmax; exact Ha'].
           ++ destruct Ha' as [->|Ha'].
              ** eapply not_farther_trans; [exact Hit | apply Hfar; assumption].
              ** apply Hfar; assumption.
    + (* [it] is left out *)
      apply not_farther_of_not_closer in Ec. split.
      * rewrite length_app. simpl. lia.
      * exists (rest ++ [it]). split.
        -- rewrite app_assoc. apply Permutation_app_tail. exact Hperm.
        -- intros a r Ha Hr. apply in_app_or in Hr. destruct Hr as [Hr|[<-|[]]].
           ++ apply Hfar; assumption.
           ++ eapply not_farther_trans; [apply Hmax; exact Ha|exact Ec].
Qed.

Lemma fold_nearest_step_selected (points : list Point) :
  (0 < k)%nat ->
  forall seen neighbours,
    selected q k seen neighbours ->
    selected q k (seen ++ points) (fold_left (nearest_step q k) points neighbours).
Proof.
  intro Hk. induction points as [|it points IH]; intros seen neighbours H.
  - simpl. rewrite app_nil_r. exact H.
  - simpl.
    replace (seen ++ it :: points) with ((seen ++ [it]) ++ points)
      by (rewrite <- app_assoc; reflexivity).
    apply IH. apply nearest_step_selected; assumption.
Qed.

End KNearest.





(** The example of the specification: the two nearest of [three_points] to
    the origin are [(1, 1)] and [(2, 2)]. *)
Example nearest_k_three_points :
  nearest_k true (mkPoint 0 0) 2 (PointSet_of small_library three_points)
  = Some [mkPoint 1 1; mkPoint 2 2].
Proof. vm_compute. reflexivity. Qed.



(** The example of the specification: the points of [three_points] in the
    rectangle [(0,0)-(2,2)]. *)
Example range_three_points :
  range unit2 (PointSet_of small_library three_points)
  = [mkPoint 2 2; mkPoint 1 1].
Proof. vm_compute. reflexivity. Qed.


(** * Further properties of the code *)

(** ** The operators of [Point] *)

(** X1.  [Point::operator==] holds of a point and itself, of two points
    with the same coordinates, and does not depend on the order of its
    operands; [operator!=] is its negation; but [operator==] is not
    transitive. *)
Theorem Point_equality_tolerant :
  (forall p, Point_eqb p p = true)
  /\ (forall p q, same_coordinates p q -> Point_eqb p q = true)
  /\ (forall p q, Point_eqb p q = Point_eqb q p)
  /\ (forall p q, Point_neqb p q = true <-> Point_eqb p q = false)
  /\ ~ (forall a b c, Point_eqb a b = true -> Point_eqb b c = true ->
                      Point_eqb a c = true).
Proof.
  split; [exact Point_eqb_refl|]. split; [exact Point_eqb_same_coordinates|].
  split; [exact Point_eqb_sym|]. split.
  - intros p q. unfold Point_neqb. apply negb_true_iff.
  - intro T. specialize (T pt_l pt_m pt_r eq_refl eq_refl). discriminate T.
Qed.

Lemma Point_equality_tolerant_witness :
  Point_eqb (mkPoint (1 # 2) 3) (mkPoint (2 # 4) 3) = true.
Proof.
  apply (proj1 (proj2 Point_equality_tolerant)). split; reflexivity.
Defined.

Lemma Point_ltb_false (p q : Point) :
  Point_ltb p q = false <-> x q <= x p /\ y q <= y p.
Proof.
  unfold Point_ltb. rewrite orb_false_iff, !Qltb_ge. reflexivity.
Qed.

Lemma Point_ltb_true (p q : Point) :
  Point_ltb p q = true <-> x p < x q \/ y p < y q.
Proof.
  unfold Point_ltb. rewrite orb_true_iff, !Qltb_lt. reflexivity.
Qed.

(** X2.  [operator<=] and [operator>=] are the componentwise orders, and
    [operator<=] is transitive.  [operator<] is irreflexive but is not
    their strict part: [a < b] and [b < a] both hold exactly when the
    coordinates of the two points are ordered in opposite ways, and neither
    holds exactly when the two points have the same coordinates. *)
Theorem Point_order_componentwise :
  (forall p q, Point_leb p q = true <-> x p <= x q /\ y p <= y q)
  /\ (forall p q, Point_geb p q = true <-> x q <= x p /\ y q <= y p)
  /\ (forall p q r, Point_leb p q = true -> Point_leb q r = true ->
                    Point_leb p r = true)
  /\ (forall p, Point_ltb p p = false)
  /\ (forall p q, Point_ltb p q = true /\ Point_ltb q p = true <->
                  (x p < x q /\ y q < y p) \/ (y p < y q /\ x q < x p))
  /\ (forall p q, Point_ltb p q = false /\ Point_ltb q p = false <->
                  same_coordinates p q).
Proof.
  assert (Hle : forall p q, Point_leb p q = true <-> x p <= x q /\ y p <= y q).
  { intros p q. unfold Point_leb, Point_gtb.
    rewrite negb_true_iff, orb_false_iff, !Qltb_ge. reflexivity. }
  split; [exact Hle|]. split; [|split; [|split; [|split]]].
  - intros p q. unfold Point_geb. rewrite negb_true_iff. apply Point_ltb_false.
  - intros p q r H1 H2. apply Hle in H1, H2. apply Hle. split; lra.
  - intro p. apply Point_ltb_false. split; lra.
  - intros p q. rewrite !Point_ltb_true. split.
    + intros [[H1|H1] [H2|H2]]; lra.
    + intros [[H1 H2]|[H1 H2]]; split; auto.
  - intros p q. rewrite !Point_ltb_false. unfold same_coordinates. split.
    + intros [[H1 H2] [H3 H4]]. split; lra.
    + intros [H1 H2]. repeat split; lra.
Qed.

(** ** [Rect::intersects] and [Rect::contains] *)

Lemma double_mul_negate (a b : double) :
  double_mul (negate b) (negate a) = double_mul a b.
Proof.
  destruct a as [u| | |]; destruct b as [v| | |]; simpl; try reflexivity.
  - replace (- v * - u)%Z with (u * v)%Z by ring. reflexivity.
  - destruct (Z.eqb_spec (- u) 0), (Z.eqb_spec u 0); try lia; try reflexivity.
    destruct (Z.ltb_spec 0 (- u)), (Z.ltb_spec 0 u); try lia; reflexivity.
  - destruct (Z.eqb_spec (- u) 0), (Z.eqb_spec u 0); try lia; try reflexivity.
    destruct (Z.ltb_spec 0 (- u)), (Z.ltb_spec 0 u); try lia; reflexivity.
  - destruct (Z.eqb_spec (- v) 0), (Z.eqb_spec v 0); try lia; try reflexivity.
    destruct (Z.ltb_spec 0 (- v)), (Z.ltb_spec 0 v); try lia; reflexivity.
  - destruct (Z.eqb_spec (- v) 0), (Z.eqb_spec v 0); try lia; try reflexivity.
    destruct (Z.ltb_spec 0 (- v)), (Z.ltb_spec 0 v); try lia; reflexivity.
Qed.

Lemma round_Z (n : Z) :
  (0 <= n < 2 ^ 2098)%Z -> round_units (inject_Z n) = n ->
  round (inject_Z n) = finite n /\ round (- inject_Z n) = finite (- n).
Proof.
  intros [H0 H1] E.
  assert (P : 0 <= inject_Z n)
    by (change 0 with (inject_Z 0); rewrite <- Zle_Qle; exact H0).
  assert (R : round (inject_Z n) = finite n).
  { rewrite round_nonneg by exact P. rewrite E. unfold of_units.
    apply Z.ltb_lt in H1. rewrite H1. reflexivity. }
  split; [exact R|]. rewrite round_opp, R. reflexivity.
Qed.

Lemma round_between (lo hi : Z) (s : Q) :
  double_leb (finite lo) (round s) = true ->
  double_leb (round s) (finite hi) = true ->
  exists n, round s = finite n /\ (lo <= n <= hi)%Z.
Proof.
  destruct (round s) as [n| | |]; simpl; try discriminate.
  rewrite !Z.leb_le. intros. exists n. split; [reflexivity | lia].
Qed.

(** The difference of two coordinates of magnitude at most [2^1022] is a
    finite [double], with the sign of the exact difference and not below
    a [double] the exact difference is not below. *)
Lemma double_sub_bounded (a b : Q) :
  Qabs a <= inject_Z (2 ^ 1022) -> Qabs b <= inject_Z (2 ^ 1022) ->
  exists n,
    double_sub a b = finite n
    /\ (b <= a -> (0 <= n)%Z) /\ (a <= b -> (n <= 0)%Z)
    /\ (min_gap <= a - b -> (2 ^ 537 <= n)%Z)
    /\ (min_gap <= b - a -> (n <= - 2 ^ 537)%Z).
Proof.
  intros Ha Hb. unfold double_sub.
  set (S := inject_Z denorm_scale).
  assert (Sp : 0 < S) by (apply (pow2_pos 1074); lia).
  apply Qabs_Qle_condition in Ha, Hb.
  assert (E1 : inject_Z (2 ^ 2097) == 2 * inject_Z (2 ^ 1022) * S).
  { unfold S, denorm_scale, Qeq. vm_compute. reflexivity. }
  assert (Hi : (a - b) * S <= inject_Z (2 ^ 2097)).
  { rewrite E1. apply Qmult_le_compat_r; lra. }
  assert (Lo : - inject_Z (2 ^ 2097) <= (a - b) * S).
  { rewrite E1.
    assert (X : - (2 * inject_Z (2 ^ 1022) * S)
                == (- (2 * inject_Z (2 ^ 1022))) * S) by ring.
    rewrite X. apply Qmult_le_compat_r; lra. }
  assert (Big : round_units (inject_Z (2 ^ 2097)) = (2 ^ 2097)%Z).
  { change (2 ^ 2097)%Z with (2 ^ 52 * 2 ^ 2045)%Z.
    apply round_units_exact; lia. }
  destruct (round_Z (2 ^ 2097) ltac:(lia) Big) as [B1 B2].
  pose proof (round_mono _ _ Hi) as M1. rewrite B1 in M1.
  pose proof (round_mono _ _ Lo) as M2. rewrite B2 in M2.
  destruct (round_between _ _ _ M2 M1) as (n & En & _).
  exists n. split; [exact En|].
  assert (Zr : round 0 = finite 0) by (vm_compute; reflexivity).
  assert (Gap : round_units (inject_Z (2 ^ 537)) = (2 ^ 537)%Z).
  { change (2 ^ 537)%Z with (2 ^ 52 * 2 ^ 485)%Z.
    apply round_units_exact; lia. }
  destruct (round_Z (2 ^ 537) ltac:(lia) Gap) as [G1 G2].
  assert (Eg : min_gap * S == inject_Z (2 ^ 537)).
  { unfold min_gap, S, denorm_scale, Qeq. vm_compute. reflexivity. }
  split; [|split; [|split]].
  - intro H. assert (X : 0 <= (a - b) * S) by (apply Qmult_le_0_compat; lra).
    pose proof (round_mono _ _ X) as M. rewrite Zr, En in M.
    apply Z.leb_le in M. exact M.
  - intro H.
    assert (X : (a - b) * S <= 0).
    { assert (Y : 0 <= (b - a) * S) by (apply Qmult_le_0_compat; lra).
      assert (Y' : (b - a) * S == - ((a - b) * S)) by ring. lra. }
    pose proof (round_mono _ _ X) as M. rewrite Zr, En in M.
    apply Z.leb_le in M. exact M.
  - intro H.
    assert (X : inject_Z (2 ^ 537) <= (a - b) * S).
    { rewrite <- Eg. apply Qmult_le_compat_r; lra. }
    pose proof (round_mono _ _ X) as M. rewrite G1, En in M.
    apply Z.leb_le in M. exact M.
  - intro H.
    assert (X : (a - b) * S <= - inject_Z (2 ^ 537)).
    { rewrite <- Eg.
      assert (Y : min_gap * S <= (b - a) * S)
        by (apply Qmult_le_compat_r; lra).
      assert (Y' : (b - a) * S == - ((a - b) * S)) by ring. lra. }
    pose proof (round_mono _ _ X) as M. rewrite G2, En in M.
    apply Z.leb_le in M. exact M.
Qed.

Lemma round_nonpositive (s : Q) :
  s <= 0 -> double_leb (round s) (finite 0) = true.
Proof.
  intro H. pose proof (round_mono _ _ H) as M.
  replace (round 0) with (finite 0) in M by (vm_compute; reflexivity).
  exact M.
Qed.

Lemma round_positive (s : Q) :
  1 <= s -> double_leb (round s) (finite 0) = false.
Proof.
  intro H. pose proof (round_mono _ _ H) as M.
  replace (round 1) with (finite 1) in M by (vm_compute; reflexivity).
  destruct (round s) as [n| | |]; simpl in *; try discriminate; try reflexivity.
  apply Z.leb_le in M. apply Z.leb_gt. lia.
Qed.

(** The test of [Rect::intersects] on one axis. *)
Lemma interval_test (lo hi lo' hi' : Q) :
  lo <= hi -> lo' <= hi' ->
  Qabs lo <= inject_Z (2 ^ 1022) -> Qabs hi <= inject_Z (2 ^ 1022) ->
  Qabs lo' <= inject_Z (2 ^ 1022) -> Qabs hi' <= inject_Z (2 ^ 1022) ->
  no_small_gap lo hi lo' hi' ->
  (double_leb (double_mul (double_sub hi' lo) (double_sub lo' hi)) (finite 0)
   = true
   <-> lo' <= hi /\ lo <= hi').
Proof.
  intros H H' B1 B2 B3 B4 [G1 G2].
  destruct (double_sub_bounded hi' lo B4 B1) as (u & -> & U1 & U2 & U3 & U4).
  destruct (double_sub_bounded lo' hi B3 B2) as (v & -> & V1 & V2 & V3 & V4).
  change (double_mul (finite u) (finite v))
    with (round (inject_Z (u * v) / inject_Z denorm_scale)).
  assert (Sp : 0 < inject_Z denorm_scale) by (apply (pow2_pos 1074); lia).
  assert (Far : (2 ^ 1074 <= u * v)%Z ->
                double_leb (round (inject_Z (u * v) / inject_Z denorm_scale))
                  (finite 0) = false).
  { intro P. apply round_positive. apply Qle_shift_div_l; [exact Sp|].
    rewrite Qmult_1_l. rewrite <- Zle_Qle. exact P. }
  split.
  - intro T. destruct (Qlt_le_dec hi lo') as [A|A].
    + exfalso. specialize (G1 A).
      assert (X : (2 ^ 537 <= v)%Z) by (apply V3; exact G1).
      assert (Y : (2 ^ 537 <= u)%Z) by (apply U3; lra).
      rewrite Far in T; [discriminate|].
      change (2 ^ 1074)%Z with (2 ^ 537 * 2 ^ 537)%Z.
      apply Z.mul_le_mono_nonneg; lia.
    + destruct (Qlt_le_dec hi' lo) as [B|B]; [|split; assumption].
      exfalso. specialize (G2 B).
      assert (X : (u <= - 2 ^ 537)%Z) by (apply U4; exact G2).
      assert (Y : (v <= - 2 ^ 537)%Z) by (apply V4; lra).
      rewrite Far in T; [discriminate|].
      change (2 ^ 1074)%Z with (2 ^ 537 * 2 ^ 537)%Z.
      replace (u * v)%Z with ((- u) * (- v))%Z by ring.
      apply Z.mul_le_mono_nonneg; lia.
  - intros [A B]. apply round_nonpositive.
    apply Qle_shift_div_r; [exact Sp|]. rewrite Qmult_0_l.
    change 0 with (inject_Z 0). rewrite <- Zle_Qle.
    specialize (U1 B). specialize (V2 A). nia.
Qed.

(** X3.  [Rect::intersects] gives the same answer with the two rectangles
    exchanged.  For two rectangles whose corners are in order, whose
    coordinates are at most [2^1022] in magnitude and which, on each axis,
    overlap or are at least [2^-537] apart, it holds exactly when the two
    boxes overlap or touch on both axes.  For closer boxes the product it
    tests can underflow to zero: it holds of [thin_left] and
    [thin_right], which are [2^-600] apart. *)
Theorem Rect_intersects_overlap :
  (forall r rect, Rect_intersects r rect = Rect_intersects rect r)
  /\ (forall r rect,
        Rect_ordered r -> Rect_ordered rect ->
        Rect_bounded r -> Rect_bounded rect ->
        no_small_gap (xmin r) (xmax r) (xmin rect) (xmax rect) ->
        no_small_gap (ymin r) (ymax r) (ymin rect) (ymax rect) ->
        (Rect_intersects r rect = true <->
         (xmin rect <= xmax r /\ xmin r <= xmax rect)
         /\ (ymin rect <= ymax r /\ ymin r <= ymax rect)))
  /\ (Rect_ordered thin_left /\ Rect_ordered thin_right
      /\ xmax thin_left < xmin thin_right
      /\ Rect_intersects thin_left thin_right = true).
Proof.
  split; [|split].
  - intros r rect. unfold Rect_intersects.
    rewrite (double_sub_opp (xmin rect) (xmax r)).
    rewrite (double_sub_opp (xmax rect) (xmin r)).
    rewrite (double_sub_opp (ymin rect) (ymax r)).
    rewrite (double_sub_opp (ymax rect) (ymin r)).
    rewrite !double_mul_negate. reflexivity.
  - intros r rect [Hx Hy] [Hx' Hy'] (B1 & B2 & B3 & B4) (B1' & B2' & B3' & B4')
      Gx Gy.
    unfold Rect_intersects.
    rewrite <- (interval_test (xmin r) (xmax r) (xmin rect) (xmax rect))
      by assumption.
    rewrite <- (interval_test (ymin r) (ymax r) (ymin rect) (ymax rect))
      by assumption.
    destruct (double_leb
                (double_mul (double_sub (xmax rect) (xmin r))
                   (double_sub (xmin rect) (xmax r))) (finite 0)),
      (double_leb
         (double_mul (double_sub (ymax rect) (ymin r))
            (double_sub (ymin rect) (ymax r))) (finite 0));
      split; try tauto; try discriminate; intros [? ?]; discriminate.
  - repeat split; try discriminate; vm_compute; reflexivity.
Qed.

Lemma unit2_bounded : Rect_bounded unit2.
Proof. repeat split; vm_compute; discriminate. Defined.

Lemma Rect_intersects_overlap_witness :
  Rect_intersects unit2 (mkRect (mkPoint 2 1) (mkPoint 3 5)) = true.
Proof.
  apply (proj1 (proj2 Rect_intersects_overlap) unit2
           (mkRect (mkPoint 2 1) (mkPoint 3 5))).
  - split; discriminate.
  - split; discriminate.
  - exact unit2_bounded.
  - repeat split; vm_compute; discriminate.
  - split; intro H; vm_compute in H; discriminate H.
  - split; intro H; vm_compute in H; discriminate H.
  - repeat split; discriminate.
Defined.

Lemma Point_order_componentwise_witness :
  Point_leb (mkPoint 0 0) (mkPoint 2 5) = true.
Proof.
  apply (proj1 (proj2 (proj2 Point_order_componentwise))
           (mkPoint 0 0) (mkPoint 1 1) (mkPoint 2 5)); reflexivity.
Defined.

Lemma std_min_cases (a b : Q) : std_min a b = a \/ std_min a b = b.
Proof. unfold std_min. destruct (Qltb b a); auto. Qed.

Lemma near_one_of (v lo hi : Q) :
  lo <= hi ->
  Qabs (std_min (Qabs (v - lo)) (Qabs (v - hi))) < eps ->
  lo - eps < v < hi + eps.
Proof.
  intros H D. rewrite Qabs_pos in D by apply std_min_abs_nonneg.
  destruct (std_min_cases (Qabs (v - lo)) (Qabs (v - hi))) as [E|E];
    rewrite E in D; apply Qabs_Qlt_condition in D; lra.
Qed.

(** X4.  [Rect::contains] accepts every point of the closed box.  For a
    rectangle whose corners are in order it accepts no point whose [x] is
    [eps] or more outside [[xmin, xmax]], and no point whose [x] is inside
    [[xmin, xmax]] and whose [y] is [eps] or more outside [[ymin, ymax]]. *)
Theorem Rect_contains_band (r : Rect) (p : Point) :
  (xmin r <= x p <= xmax r -> ymin r <= y p <= ymax r ->
   Rect_contains r p = true)
  /\ (Rect_ordered r -> Rect_contains r p = true ->
      xmin r - eps < x p < xmax r + eps
      /\ (xmin r <= x p <= xmax r -> ymin r - eps < y p < ymax r + eps)).
Proof.
  split; [apply Rect_contains_inside|].
  intros [Hx Hy] C. unfold Rect_contains in C. apply Qltb_lt in C.
  unfold Rect_distance in C. pose proof eps_pos as He.
  destruct (Qle_bool (xmin r) (x p) && Qle_bool (x p) (xmax r)) eqn:Ex.
  - apply andb_true_iff in Ex. destruct Ex as [E1 E2].
    apply Qle_bool_iff in E1, E2. split; [lra|]. intros _.
    destruct (Qle_bool (ymin r) (y p) && Qle_bool (y p) (ymax r)) eqn:Ey.
    + apply andb_true_iff in Ey. destruct Ey as [E3 E4].
      apply Qle_bool_iff in E3, E4. lra.
    + apply near_one_of; assumption.
  - split; [apply near_one_of; assumption|].
    intros [E1 E2]. apply Qle_bool_iff in E1, E2. rewrite E1, E2 in Ex.
    discriminate.
Qed.

Lemma Rect_contains_band_witness :
  Rect_contains unit2 (mkPoint 1 2) = true.
Proof.
  apply (proj1 (Rect_contains_band unit2 (mkPoint 1 2))); split; discriminate.
Defined.

(** ** [find], [contains] and [insert] *)

(** X5.  [contains(p)] is true only if some stored point is equal to [p]
    by [operator==]; on a set without points it is false. *)
Theorem contains_only_near_stored (p : Point) (t : PointSet) :
  (contains p t = true ->
   exists s, In s (stored t) /\ Point_eqb s p = true)
  /\ (m_root t = nullptr -> contains p t = false).
Proof.
  split.
  - unfold contains, stored.
    destruct (find p (m_root t)) as [|lt s d rt] eqn:E; [discriminate|].
    intros _. exists s. eapply find_sound; eauto.
  - intro E. unfold contains. rewrite E. reflexivity.
Qed.

Lemma contains_only_near_stored_witness :
  exists s, In s (stored (PointSet_of small_library three_points))
            /\ Point_eqb s (mkPoint 2 2) = true.
Proof.
  apply (proj1 (contains_only_near_stored (mkPoint 2 2)
                  (PointSet_of small_library three_points))).
  vm_compute. reflexivity.
Defined.

(** X6.  When [contains(p)] is false, the insertion step of [put(p)]
    stores [p] and nothing else: the stored points are those of before
    and [p], [size()] grows by one, and [contains(p)] becomes true.  When
    [contains(p)] is true the insertion stores nothing. *)
Theorem insert_root_stores (p : Point) (t : PointSet) :
  (contains p t = false ->
   Permutation (stored (insert_root p t)) (p :: stored t)
   /\ size (insert_root p t) = S (size t)
   /\ contains p (insert_root p t) = true)
  /\ (contains p t = true ->
      stored (insert_root p t) = stored t
      /\ size (insert_root p t) = size t).
Proof.
  split.
  - intro H.
    assert (F : find p (m_root t) = nullptr).
    { unfold contains in H. destruct (find p (m_root t)); congruence. }
    destruct (insert_new p (m_root t) 0 (max_depth t, m_size t) F) as [P S1].
    unfold stored, size. rewrite insert_root_eq. simpl.
    split; [exact P|]. split; [exact S1|].
    pose proof (contains_insert_root p t) as C.
    rewrite insert_root_eq in C. exact C.
  - intro H. apply contains_find in H.
    destruct (insert_found p (m_root t) 0 (max_depth t, m_size t) H) as [H1 H2].
    unfold stored, size. rewrite insert_root_eq. simpl.
    rewrite H1, H2. split; reflexivity.
Qed.

Lemma insert_root_stores_witness :
  size (insert_root (mkPoint 5 5) (PointSet_of small_library three_points))
  = S (size (PointSet_of small_library three_points)).
Proof.
  apply (proj1 (insert_root_stores (mkPoint 5 5)
                  (PointSet_of small_library three_points))).
  vm_compute. reflexivity.
Defined.

(** ** What a reachable tree never holds *)

Lemma insert_apart (p : Point) (node : Node) :
  forall dep c, apart_below node -> apart_below (fst (insert p node dep c)).
Proof.
  induction node as [|lt IHl pt d rt IHr]; intros dep c A.
  - simpl. repeat split. intros q [].
  - destruct A as (Ha & Al & Ar).
    insert_cases p lt rt dep c Epq Et E.
    + repeat split; assumption.
    + pose proof (IHl (S dep) (Nat.max (fst c) dep, snd c) Al) as IH.
      pose proof (insert_adds_only p) as Hnew.
      specialize (Hnew) with (node := lt) (dep := S dep)
        (c := (Nat.max (fst c) dep, snd c)).
      rewrite E in IH, Hnew. simpl in IH, Hnew.
      repeat split; try assumption.
      intros q Hq. apply in_app_or in Hq. destruct Hq as [Hq|Hq].
      * destruct (Hnew q Hq) as [Hin| ->]; [|exact Epq].
        apply Ha. apply in_or_app. left. exact Hin.
      * apply Ha. apply in_or_app. right. exact Hq.
    + pose proof (IHr (S dep) (Nat.max (fst c) dep, snd c) Ar) as IH.
      pose proof (insert_adds_only p) as Hnew.
      specialize (Hnew) with (node := rt) (dep := S dep)
        (c := (Nat.max (fst c) dep, snd c)).
      rewrite E in IH, Hnew. simpl in IH, Hnew.
      repeat split; try assumption.
      intros q Hq. apply in_app_or in Hq. destruct Hq as [Hq|Hq].
      * apply Ha. apply in_or_app. left. exact Hq.
      * destruct (Hnew q Hq) as [Hin| ->]; [|exact Epq].
        apply Ha. apply in_or_app. right. exact Hin.
Qed.

Lemma apart_insert_all (ins : list Point) :
  forall t, apart_below (m_root t) -> apart_below (m_root (insert_all ins t)).
Proof.
  induction ins as [|m ins IH]; intros t A; simpl.
  - exact A.
  - apply IH. rewrite insert_root_eq. simpl. apply insert_apart. exact A.
Qed.

Lemma apart_build (L : Library) (points : list Point) :
  nth_element_permutes L -> apart_below (m_root (build L empty_set points)).
Proof.
  intro HL. destruct (build_inserts L empty_set points HL) as (ins & -> & _).
  apply apart_insert_all. exact I.
Qed.

Lemma apart_reachable (L : Library) (b : bool) (t : PointSet) :
  nth_element_permutes L -> Reachable L b t -> apart_below (m_root t).
Proof.
  intros HL R. induction R as [points | t t' p R IH H].
  - apply apart_build. exact HL.
  - unfold put in H.
    destruct (reBuild_cases _ _ _ _ H) as [[_ ->]|[_ ->]].
    + rewrite insert_root_eq. simpl. apply insert_apart. exact IH.
    + apply apart_build. exact HL.
Qed.

Lemma occurs_apart (root : Node) (d : nat) (node : Node) :
  apart_below root -> occurs root d node -> apart_below node.
Proof.
  intros H O. induction O as [|d lt pt dn rt O IH|d lt pt dn rt O IH].
  - exact H.
  - apply IH.
  - apply IH.
Qed.

Lemma NoDup_app_disjoint {A : Type} (u v : list A) (a : A) :
  NoDup (u ++ v) -> In a u -> In a v -> False.
Proof.
  induction u as [|e u IH]; intros N Hu Hv; [destruct Hu|].
  simpl in N. inversion N as [|? ? Hn N']; subst.
  destruct Hu as [->|Hu].
  - apply Hn. apply in_or_app. right. exact Hv.
  - apply IH; assumption.
Qed.

Lemma ordered_apart_nodup (node : Node) :
  forall d, kd_ordered d node -> apart_below node -> NoDup (inorder node).
Proof.
  induction node as [|lt IHl pt dn rt IHr]; intros d K A.
  - constructor.
  - destruct K as (-> & Hl & Hr & Kl & Kr). destruct A as (Ha & Al & Ar).
    simpl. apply NoDup_app.
    + eapply IHl; eauto.
    + constructor.
      * intro Hin. specialize (Ha pt (in_or_app _ _ _ (or_intror Hin))).
        rewrite Point_eqb_refl in Ha. discriminate.
      * eapply IHr; eauto.
    + intros a Hal [<-|Har].
      * specialize (Ha pt (in_or_app _ _ _ (or_introl Hal))).
        rewrite Point_eqb_refl in Ha. discriminate.
      * specialize (Hl a Hal). specialize (Hr a Har). lra.
Qed.

Lemma nodup_reachable (L : Library) (b : bool) (t : PointSet) :
  nth_element_permutes L -> Reachable L b t -> NoDup (stored t).
Proof.
  intros HL R. apply ordered_apart_nodup with (d := 0%nat).
  - apply (wf_ordered t). eapply well_formed_reachable; eauto.
  - eapply apart_reachable; eauto.
Qed.

(** X7.  A reachable tree holds no point twice, and no node's point is
    equal by [operator==] to a point stored below that node. *)
Theorem reachable_tree_distinct (L : Library) (b : bool) (t : PointSet) :
  nth_element_permutes L ->
  Reachable L b t ->
  NoDup (stored t)
  /\ forall d lt pt dn rt,
       occurs (m_root t) d (mkNode lt pt dn rt) ->
       forall q, In q (inorder lt) \/ In q (inorder rt) ->
                 Point_eqb pt q = false.
Proof.
  intros HL R. split; [eapply nodup_reachable; eauto|].
  intros d lt pt dn rt O q Hq.
  pose proof (occurs_apart _ _ _ (apart_reachable L b t HL R) O) as (Ha & _).
  apply Ha. apply in_or_app. exact Hq.
Qed.

Lemma reachable_tree_distinct_witness :
  NoDup (stored (PointSet_of small_library three_points)).
Proof.
  apply (proj1 (reachable_tree_distinct small_library true _
                  small_library_permutes (Reachable_ctor _ _ three_points))).
Defined.

(** ** The counters *)

Lemma deepest_below_count (node : Node) :
  forall d, kd_ordered d node -> node <> nullptr ->
            (deepest node < d + count node)%nat.
Proof.
  induction node as [|lt IHl pt dn rt IHr]; intros d K N; [congruence|].
  destruct K as (-> & _ & _ & Kl & Kr). simpl.
  assert (Bl : (deepest lt < S d + count lt \/ deepest lt = 0)%nat).
  { destruct lt as [|? ? ? ?]; [right; reflexivity|].
    left. apply IHl; [exact Kl | discriminate]. }
  assert (Br : (deepest rt < S d + count rt \/ deepest rt = 0)%nat).
  { destruct rt as [|? ? ? ?]; [right; reflexivity|].
    left. apply IHr; [exact Kr | discriminate]. }
  lia.
Qed.

(** X8.  In every reachable state [empty()] holds exactly when [size()] is
    0, the recorded [max_depth] is the depth of the deepest node, and on a
    non-empty set it is smaller than [size()]. *)
Theorem reachable_counters (L : Library) (b : bool) (t : PointSet) :
  nth_element_permutes L ->
  Reachable L b t ->
  (empty t = true <-> size t = 0%nat)
  /\ max_depth t = deepest (m_root t)
  /\ (empty t = false -> (max_depth t < size t)%nat).
Proof.
  intros HL R. destruct (well_formed_reachable L b t HL R) as [Ko Ks Kd].
  unfold empty, size. rewrite Ks, Kd. split; [|split].
  - destruct (m_root t); simpl; split; try reflexivity; try discriminate; lia.
  - reflexivity.
  - intro E. apply (deepest_below_count (m_root t) 0 Ko).
    destruct (m_root t); [discriminate|discriminate].
Qed.

Lemma reachable_counters_witness :
  (max_depth (PointSet_of small_library three_points)
   < size (PointSet_of small_library three_points))%nat.
Proof.
  apply (proj2 (proj2 (reachable_counters small_library true _
                         small_library_permutes
                         (Reachable_ctor _ _ three_points)))).
  reflexivity.
Defined.

(** ** The constructor and [put] *)

Lemma insert_not_null (p : Point) (node : Node) (dep : nat) (c : nat * nat) :
  fst (insert p node dep c) <> nullptr.
Proof.
  destruct node as [|lt pt d rt]; simpl; [discriminate|].
  destruct (Point_eqb pt p); [discriminate|].
  destruct (toLeft d p pt).
  - destruct (insert p lt (S dep) _). discriminate.
  - destruct (insert p rt (S dep) _). discriminate.
Qed.

Lemma insert_root_not_empty (p : Point) (t : PointSet) :
  empty (insert_root p t) = false.
Proof.
  unfold empty. rewrite insert_root_eq. simpl.
  pose proof (insert_not_null p (m_root t) 0 (max_depth t, m_size t)) as H.
  destruct (fst (insert p (m_root t) 0 (max_depth t, m_size t))); congruence.
Qed.

Lemma insert_all_not_empty (ins : list Point) :
  forall t, empty t = false -> empty (insert_all ins t) = false.
Proof.
  induction ins as [|m ins IH]; intros t H; simpl.
  - exact H.
  - apply IH. apply insert_root_not_empty.
Qed.

Lemma build_not_empty (L : Library) (points : list Point) :
  nth_element_permutes L -> points <> [] ->
  empty (build L empty_set points) = false.
Proof.
  intros HL N. destruct (build_inserts L empty_set points HL) as (ins & -> & P).
  destruct ins as [|m ins].
  - apply Permutation_nil in P. congruence.
  - simpl. apply insert_all_not_empty. apply insert_root_not_empty.
Qed.

Lemma build_size (L : Library) (points : list Point) :
  nth_element_permutes L ->
  (size (build L empty_set points) <= length points)%nat.
Proof.
  intro HL.
  pose proof (well_formed_build L empty_set points HL well_formed_empty) as W.
  unfold size. rewrite (wf_size _ W), count_length.
  apply NoDup_incl_length.
  - apply ordered_apart_nodup with (d := 0%nat);
      [apply W | apply apart_build; exact HL].
  - intros q Hq. apply (stored_build L points q HL Hq).
Qed.

(** X9.  The constructor: every point of the file is found by [contains];
    every stored point is a point of the file, stored once; [size()] is at
    most the number of points of the file; the set is empty exactly when
    the file has no points. *)
Theorem constructor_round_trip (L : Library) (points : list Point) :
  nth_element_permutes L ->
  let t := PointSet_of L points in
  (forall q, In q points -> contains q t = true)
  /\ (forall q, In q (stored t) -> In q points)
  /\ NoDup (stored t)
  /\ (size t <= length points)%nat
  /\ (empty t = true <-> points = []).
Proof.
  intros HL t. unfold t, PointSet_of.
  split; [intros q; apply contains_build; exact HL|].
  split; [intros q; apply stored_build; exact HL|].
  split; [apply (nodup_reachable L true); [exact HL|apply Reachable_ctor]|].
  split; [apply build_size; exact HL|].
  split.
  - intro E. destruct points as [|p points]; [reflexivity|].
    rewrite build_not_empty in E; [discriminate|exact HL|discriminate].
  - intros ->. reflexivity.
Qed.

Lemma constructor_round_trip_witness :
  contains (mkPoint 3 3) (PointSet_of small_library three_points) = true.
Proof.
  apply (proj1 (constructor_round_trip small_library three_points
                  small_library_permutes)).
  simpl. auto.
Defined.

(** X10.  Whenever [put(p)] returns, the set is not empty, [size()] has
    grown by at most one, and each stored point is [p] or was stored
    before. *)
Theorem put_bounds (L : Library) (b : bool) (t t' : PointSet) (p : Point) :
  nth_element_permutes L ->
  Reachable L b t ->
  put L b p t = Some t' ->
  empty t' = false
  /\ (1 <= size t' <= S (size t))%nat
  /\ (forall q, In q (stored t') -> q = p \/ In q (stored t)).
Proof.
  intros HL R H.
  pose proof (well_formed_put L b p t t' HL (well_formed_reachable L b t HL R) H)
    as W'.
  assert (S1 : (size (insert_root p t) <= S (size t))%nat).
  { unfold size. rewrite insert_root_eq. simpl.
    destruct (contains p t) eqn:C.
    - apply contains_find in C.
      destruct (insert_found p (m_root t) 0 (max_depth t, m_size t) C)
        as [_ ->]. simpl. lia.
    - assert (F : find p (m_root t) = nullptr).
      { unfold contains in C. destruct (find p (m_root t)); congruence. }
      destruct (insert_new p (m_root t) 0 (max_depth t, m_size t) F)
        as [_ ->]. simpl. lia. }
  assert (E' : empty t' = false /\ (size t' <= S (size t))%nat
               /\ (forall q, In q (stored t') -> q = p \/ In q (stored t))).
  { unfold put in H. destruct (reBuild_cases _ _ _ _ H) as [[_ ->]|[_ ->]].
    - split; [apply insert_root_not_empty|]. split; [exact S1|].
      intros q Hq. destruct (stored_insert_root_adds_only _ _ _ Hq); auto.
    - split; [|split].
      + apply build_not_empty; [exact HL|].
        pose proof (insert_root_not_empty p t) as N. unfold empty, stored in *.
        destruct (m_root (insert_root p t)) as [|lt pt d rt]; [discriminate|].
        simpl. intro Z. apply (f_equal (@length Point)) in Z.
        rewrite length_app in Z. simpl in Z. lia.
      + pose proof (build_size L (stored (insert_root p t)) HL) as B.
        pose proof (well_formed_insert p t (well_formed_reachable L b t HL R))
          as W1.
        assert (length (stored (insert_root p t)) = size (insert_root p t)).
        { unfold stored, size. rewrite (wf_size _ W1), count_length.
          reflexivity. }
        lia.
      + intros q Hq. apply (stored_build L _ q HL) in Hq.
        destruct (stored_insert_root_adds_only _ _ _ Hq); auto. }
  destruct E' as (E1 & E2 & E3). split; [exact E1|]. split; [|exact E3].
  split; [|exact E2].
  unfold empty, size in *. rewrite (wf_size _ W').
  destruct (m_root t'); [discriminate|simpl; lia].
Qed.

Lemma put_bounds_witness :
  empty (mkPointSet 2
           (mkNode (mkNode nullptr pt_a 1 nullptr) pt_n 0
              (mkNode nullptr pt_c 1 (mkNode nullptr pt_d 2 nullptr))) 4)
  = false.
Proof.
  refine (proj1 (put_bounds small_library true
                   (PointSet_of small_library [pt_a; pt_n; pt_c]) _ pt_d
                   small_library_permutes (Reachable_ctor _ _ _) _)).
  vm_compute. reflexivity.
Defined.

(** ** The copy constructor *)

Lemma copyTree_same (from : Node) : copyTree from = from.
Proof.
  induction from as [|lt IHl pt d rt IHr]; [reflexivity|].
  simpl. rewrite IHl, IHr. destruct lt, rt; reflexivity.
Qed.

(** X11.  The copy constructor makes a set with the same tree (points,
    depths and shape) and the same counters as its argument, so that every
    query answers the same on the copy. *)
Theorem copy_is_identical (set : PointSet) :
  PointSet_copy set = set
  /\ stored (PointSet_copy set) = stored set
  /\ (forall p, contains p (PointSet_copy set) = contains p set)
  /\ (forall rect, range rect (PointSet_copy set) = range rect set)
  /\ (forall p, nearest p (PointSet_copy set) = nearest p set).
Proof.
  assert (E : PointSet_copy set = set).
  { unfold PointSet_copy. rewrite copyTree_same. destruct set; reflexivity. }
  rewrite E. repeat split; reflexivity.
Qed.

(** ** Iteration *)

(** X12.  Iterating from [begin()] to [end()] visits the points in the
    order of the recursive in-order walk, one step for each node, exactly
    when the set is empty, the root has a right child, or the unset flag of
    [next] reads true; in the remaining case the loop does not stop. *)
Theorem iteration_in_order (b : bool) (t : PointSet) :
  (empty t = true \/ has_right_child (m_root t) = true \/ b = true ->
   traverse b t = Some (inorder (m_root t)))
  /\ (empty t = false -> has_right_child (m_root t) = false -> b = false ->
      forall fuel, iterate fuel b (begin t) [] = None).
Proof.
  split.
  - intro H. rewrite traverse_result. unfold empty in *.
    destruct (m_root t) as [|lt pt d [|rlt rpt rd rrt]]; simpl in *.
    + rewrite orb_true_r. reflexivity.
    + destruct H as [H|[H|H]]; try discriminate. subst b. reflexivity.
    + reflexivity.
  - intros E F -> fuel. unfold empty in E.
    destruct (m_root t) as [|lt pt d [|rlt rpt rd rrt]] eqn:Er;
      try discriminate.
    apply (iterate_never_ends lt pt d t Er).
Qed.

Lemma iteration_in_order_witness :
  traverse false (PointSet_of small_library three_points)
  = Some [mkPoint 1 1; mkPoint 2 2; mkPoint 3 3].
Proof.
  apply (proj1 (iteration_in_order false (PointSet_of small_library three_points))).
  right. left. vm_compute. reflexivity.
Defined.

(** ** [range] on reachable trees *)

Lemma range_nodup (rect : Rect) (node : Node) :
  NoDup (inorder node) -> NoDup (findPointsInRectangle node [] rect).
Proof.
  induction node as [|lt IHl pt d rt IHr]; intro N.
  - constructor.
  - rewrite findPointsInRectangle_node. simpl in N.
    pose proof (NoDup_app_remove_r _ _ N) as Nl.
    pose proof (NoDup_app_remove_l _ _ N) as Npr.
    inversion Npr as [|? ? Hpr Nr]; subst.
    pose proof (NoDup_remove_2 _ _ _ N) as Hp.
    pose proof (NoDup_remove_1 _ _ _ N) as Nlr.
    apply NoDup_app.
    + destruct (Rect_contains rect pt); repeat constructor. intros [].
    + apply NoDup_app.
      * destruct (visits_left rect d pt); [auto|constructor].
      * destruct (visits_right rect d pt); [auto|constructor].
      * intros a Ha Hb.
        destruct (visits_left rect d pt); [|destruct Ha].
        destruct (visits_right rect d pt); [|destruct Hb].
        apply range_sound in Ha, Hb.
        apply (NoDup_app_disjoint _ _ a Nlr); tauto.
    + intros a Ha Hb.
      destruct (Rect_contains rect pt); [|destruct Ha].
      destruct Ha as [<-|[]]. apply Hp.
      apply in_app_or in Hb. apply in_or_app. destruct Hb as [Hb|Hb].
      * destruct (visits_left rect d pt); [|destruct Hb].
        left. apply (range_sound _ _ _ Hb).
      * destruct (visits_right rect d pt); [|destruct Hb].
        right. apply (range_sound _ _ _ Hb).
Qed.

(** X13.  On a reachable tree [range(rect)] returns stored points only,
    each at most once and each satisfying [Rect::contains], and it returns
    every stored point of the closed box. *)
Theorem range_of_closed_box (L : Library) (b : bool) (t : PointSet) (rect : Rect) :
  nth_element_permutes L ->
  Reachable L b t ->
  NoDup (range rect t)
  /\ (forall q, In q (range rect t) ->
                In q (stored t) /\ Rect_contains rect q = true)
  /\ (forall q, In q (stored t) ->
                xmin rect <= x q <= xmax rect ->
                ymin rect <= y q <= ymax rect ->
                In q (range rect t)).
Proof.
  intros HL R. split; [|split].
  - apply range_nodup. apply (nodup_reachable L b t HL R).
  - intros q. apply range_sound.
  - intros q. apply range_complete_inside with (dep := 0%nat).
    apply (wf_ordered t). eapply well_formed_reachable; eauto.
Qed.

Lemma range_of_closed_box_witness :
  In (mkPoint 1 1) (range unit2 (PointSet_of small_library three_points)).
Proof.
  apply (proj2 (proj2 (range_of_closed_box small_library true _ unit2
                         small_library_permutes
                         (Reachable_ctor _ _ three_points)))).
  - vm_compute. tauto.
  - split; discriminate.
  - split; discriminate.
Defined.

(** ** [nearest(point)] and [nearest(point, k)] together *)








(** ** The reference implementation and the tree *)

Lemma rbtree_range_from (rect : Rect) (v : list Point) :
  forall acc,
    fold_left
      (fun in_rect it => if Rect_contains rect it then in_rect ++ [it] else in_rect)
      v acc
    = acc ++ filter (Rect_contains rect) v.
Proof.
  induction v as [|e v IH]; intro acc; simpl.
  - rewrite app_nil_r. reflexivity.
  - rewrite IH. destruct (Rect_contains rect e); [|reflexivity].
    rewrite <- app_assoc. reflexivity.
Qed.

Lemma rbtree_range_filter (rect : Rect) (s : rbtree.PointSet) :
  rbtree.range rect s = filter (Rect_contains rect) (rbtree.m_set s).
Proof. unfold rbtree.range. rewrite rbtree_range_from. reflexivity. Qed.

(** X15.  [rbtree::PointSet::range] returns, in iteration order, exactly
    the elements that satisfy [Rect::contains].  When a reachable tree
    holds the same points, every point of the tree's [range] is in the
    reference result, and every point of the reference result that lies in
    the closed box is in the tree's [range]. *)
Theorem range_against_reference (L : Library) (b : bool) (t : PointSet)
  (s : rbtree.PointSet) (rect : Rect) :
  nth_element_permutes L ->
  Reachable L b t ->
  Permutation (rbtree.m_set s) (stored t) ->
  rbtree.range rect s = filter (Rect_contains rect) (rbtree.m_set s)
  /\ (forall q, In q (range rect t) -> In q (rbtree.range rect s))
  /\ (forall q, In q (rbtree.range rect s) ->
                xmin rect <= x q <= xmax rect ->
                ymin rect <= y q <= ymax rect ->
                In q (range rect t)).
Proof.
  intros HL R P. pose proof (well_formed_reachable L b t HL R) as W.
  split; [apply rbtree_range_filter|]. rewrite rbtree_range_filter. split.
  - intros q Hq. destruct (range_sound rect (m_root t) q Hq) as [H1 H2].
    apply filter_In. split; [|exact H2].
    eapply Permutation_in; [symmetry; exact P | exact H1].
  - intros q Hq Hx Hy. apply filter_In in Hq. destruct Hq as [H1 _].
    apply range_complete_inside with (dep := 0%nat); try assumption.
    + apply (wf_ordered t W).
    + eapply Permutation_in; [exact P | exact H1].
Qed.

Lemma range_against_reference_witness :
  In (mkPoint 2 2) (rbtree.range unit2 (rbtree.mkPointSet three_points)).
Proof.
  apply (proj1 (proj2 (range_against_reference small_library true
                         (PointSet_of small_library three_points)
                         (rbtree.mkPointSet three_points) unit2
                         small_library_permutes
                         (Reachable_ctor _ _ three_points)
                         ltac:(vm_compute; apply Permutation_refl)))).
  vm_compute. tauto.
Defined.




(** X17.  [rbtree::PointSet::nearest(p, k)] returns [min(k, size)]
    elements of the set: all of them in iteration order when [k >= size],
    none when [k == 0], and otherwise elements such that no element [r]
    left out is strictly closer to the query than a returned element [a]
    in the distances the program computes: [r.distance(q) < a.distance(q)]
    is false. *)
Theorem rbtree_nearest_k_selects (q : Point) (k : nat) (s : rbtree.PointSet) :
  length (rbtree.nearest_k q k s) = Nat.min k (rbtree.size s)
  /\ ((rbtree.size s <= k)%nat -> rbtree.nearest_k q k s = rbtree.m_set s)
  /\ exists rest,
       Permutation (rbtree.m_set s) (rbtree.nearest_k q k s ++ rest)
       /\ forall a r, In a (rbtree.nearest_k q k s) -> In r rest ->
                      ~ measured_closer q r a.
Proof.
  unfold rbtree.nearest_k, rbtree.size.
  destruct (length (rbtree.m_set s) <=? k)%nat eqn:Ek.
  - apply Nat.leb_le in Ek. split; [lia|]. split; [reflexivity|].
    exists []. rewrite app_nil_r. split; [apply Permutation_refl|].
    intros a r _ [].
  - apply Nat.leb_gt in Ek. split; [|split; [lia|]].
    + destruct (k =? 0)%nat eqn:E0.
      * apply Nat.eqb_eq in E0. subst k. reflexivity.
      * apply Nat.eqb_neq in E0.
        destruct (fold_nearest_step_selected q k (rbtree.m_set s)
                    ltac:(lia) [] [] (selected_nil q k)) as (Hlen & _).
        simpl in Hlen. lia.
    + destruct (k =? 0)%nat eqn:E0.
      * exists (rbtree.m_set s). split; [apply Permutation_refl|].
        intros a r [].
      * apply Nat.eqb_neq in E0.
        destruct (fold_nearest_step_selected q k (rbtree.m_set s)
                    ltac:(lia) [] [] (selected_nil q k))
          as (_ & rest & Hperm & Hfar).
        simpl in Hperm. exists rest. split; [exact Hperm|].
        intros a r Ha Hr. apply not_closer_of_not_farther. apply Hfar; assumption.
Qed.

Lemma rbtree_nearest_k_selects_witness :
  rbtree.nearest_k (mkPoint 0 0) 5 (rbtree.mkPointSet three_points)
  = three_points.
Proof.
  apply (proj1 (proj2 (rbtree_nearest_k_selects
                         (mkPoint 0 0) 5 (rbtree.mkPointSet three_points)))).
  unfold rbtree.size. simpl. lia.
Defined.

(** ** The driver *)

Lemma to_set_cmp_lex (a b : Point) :
  to_set_cmp a b = true <-> x a < x b \/ (x a == x b /\ y a < y b).
Proof.
  unfold to_set_cmp. destruct (Qeq_bool (x a) (x b)) eqn:E.
  - apply Qeq_bool_iff in E. rewrite Qltb_lt. split.
    + intro H. right. split; assumption.
    + intros [H|[_ H]]; [lra | exact H].
  - apply Qeq_bool_neq in E. rewrite Qltb_lt. split.
    + intro H. left. exact H.
    + intros [H|[H _]]; [exact H | contradiction].
Qed.

Lemma to_set_cmp_trans (a b c : Point) :
  to_set_cmp a b = true -> to_set_cmp b c = true -> to_set_cmp a c = true.
Proof.
  rewrite !to_set_cmp_lex. intros [H1|[H1 H1']] [H2|[H2 H2']].
  - left. lra.
  - left. lra.
  - left. lra.
  - right. split; lra.
Qed.

Lemma to_set_cmp_equivalent (a b : Point) :
  to_set_cmp a b = false -> to_set_cmp b a = false -> same_coordinates a b.
Proof.
  intros H1 H2. unfold same_coordinates.
  destruct (Q_dec (x a) (x b)) as [[L|G]|E].
  - assert (T : to_set_cmp a b = true) by (apply to_set_cmp_lex; left; exact L).
    congruence.
  - assert (T : to_set_cmp b a = true) by (apply to_set_cmp_lex; left; exact G).
    congruence.
  - split; [exact E|]. destruct (Q_dec (y a) (y b)) as [[L|G]|E']; [| |exact E'].
    + assert (T : to_set_cmp a b = true)
        by (apply to_set_cmp_lex; right; split; assumption).
      congruence.
    + assert (T : to_set_cmp b a = true)
        by (apply to_set_cmp_lex; right; split; [symmetry|]; assumption).
      congruence.
Qed.

Lemma set_insert_in (a c : Point) (s : list Point) :
  In c (set_insert a s) -> c = a \/ In c s.
Proof.
  induction s as [|e s IH]; simpl.
  - intros [<-|[]]. left. reflexivity.
  - destruct (to_set_cmp a e).
    + intros [<-|H]; [left; reflexivity | right; exact H].
    + destruct (to_set_cmp e a).
      * intros [<-|H]; [right; left; reflexivity|].
        destruct (IH H); [left | right; right]; assumption.
      * intro H. right. exact H.
Qed.

Lemma set_insert_keeps (a c : Point) (s : list Point) :
  In c s -> In c (set_insert a s).
Proof.
  induction s as [|e s IH]; simpl; [intros []|].
  destruct (to_set_cmp a e).
  - intro H. right. exact H.
  - destruct (to_set_cmp e a).
    + intros [<-|H]; [left; reflexivity | right; apply IH; exact H].
    + intro H. exact H.
Qed.

Lemma set_insert_represents (a : Point) (s : list Point) :
  exists a', In a' (set_insert a s) /\ same_coordinates a a'.
Proof.
  induction s as [|e s IH]; simpl.
  - exists a. split; [left; reflexivity | split; reflexivity].
  - destruct (to_set_cmp a e) eqn:E1.
    + exists a. split; [left; reflexivity | split; reflexivity].
    + destruct (to_set_cmp e a) eqn:E2.
      * destruct IH as (a' & H1 & H2). exists a'. split; [right|]; assumption.
      * exists e. split; [left; reflexivity|].
        apply to_set_cmp_equivalent; assumption.
Qed.

Lemma set_insert_sorted (a : Point) (s : list Point) :
  to_set_sorted s -> to_set_sorted (set_insert a s).
Proof.
  induction s as [|e s IH]; simpl.
  - intros _. split; [intros b []|exact I].
  - intros [He Hs]. destruct (to_set_cmp a e) eqn:E1.
    + split; [|split; assumption].
      intros b [<-|Hb]; [exact E1|].
      eapply to_set_cmp_trans; [exact E1 | apply He; exact Hb].
    + destruct (to_set_cmp e a) eqn:E2.
      * split; [|apply IH; exact Hs].
        intros b Hb. destruct (set_insert_in _ _ _ Hb) as [->|Hb'];
          [exact E2 | apply He; exact Hb'].
      * split; assumption.
Qed.

Lemma to_set_from (range : list Point) :
  forall res,
    to_set_sorted res ->
    let out := fold_left (fun res p => set_insert p res) range res in
    to_set_sorted out
    /\ (forall c, In c out -> In c res \/ In c range)
    /\ (forall c, In c res -> In c out)
    /\ (forall c, In c range -> exists c', In c' out /\ same_coordinates c c').
Proof.
  induction range as [|p range IH]; intros res S; simpl.
  - split; [exact S|]. split; [auto|]. split; [auto|]. intros c [].
  - destruct (IH (set_insert p res) (set_insert_sorted p res S))
      as (H1 & H2 & H3 & H4).
    split; [exact H1|]. split; [|split].
    + intros c Hc. destruct (H2 c Hc) as [Hc'|Hc']; [|auto].
      destruct (set_insert_in _ _ _ Hc') as [->|Hc'']; auto.
    + intros c Hc. apply H3. apply set_insert_keeps. exact Hc.
    + intros c [<-|Hc]; [|apply H4; exact Hc].
      destruct (set_insert_represents p res) as (p' & Hp1 & Hp2).
      exists p'. split; [apply H3; exact Hp1 | exact Hp2].
Qed.

(** X18.  [to_set] yields the points of the range in strictly increasing
    order of [x], then [y]: each element of the result is a point of the
    range, and each point of the range has an element of the result with
    its coordinates. *)
Theorem to_set_sorts (range : list Point) :
  to_set_sorted (to_set range)
  /\ (forall c, In c (to_set range) -> In c range)
  /\ (forall c, In c range ->
                exists c', In c' (to_set range) /\ same_coordinates c c').
Proof.
  destruct (to_set_from range [] I) as (H1 & H2 & _ & H4).
  split; [exact H1|]. split; [|exact H4].
  intros c Hc. destruct (H2 c Hc) as [[]|H]. exact H.
Qed.

Lemma to_set_sorts_witness :
  exists c', In c' (to_set (mkPoint 2 2 :: three_points))
             /\ same_coordinates (mkPoint 2 2) c'.
Proof.
  apply (proj2 (proj2 (to_set_sorts (mkPoint 2 2 :: three_points)))).
  simpl. left. reflexivity.
Defined.

Lemma Point_neqb_same (a : Point) : Point_neqb a a = false.
Proof. unfold Point_neqb. rewrite Point_eqb_refl. reflexivity. Qed.

Lemma first_difference_none (rb_set : list Point) :
  forall i kd_set,
    first_difference i rb_set kd_set = None <->
    forall n a b, nth_error rb_set n = Some a -> nth_error kd_set n = Some b ->
                  Point_eqb a b = true.
Proof.
  induction rb_set as [|it1 rb IH]; intros i kd_set.
  - destruct kd_set; simpl; split; try reflexivity;
      intros _ n a b H; destruct n; discriminate.
  - destruct kd_set as [|it2 kd]; simpl.
    + split; [|reflexivity]. intros _ n a b _ H. destruct n; discriminate.
    + unfold Point_neqb. destruct (Point_eqb it1 it2) eqn:E; simpl.
      * rewrite IH. split.
        -- intros H [|n] a b Ha Hb; simpl in *; [congruence|eauto].
        -- intros H n a b Ha Hb. apply (H (S n)); assumption.
      * split; [discriminate|]. intro H.
        specialize (H 0%nat it1 it2 eq_refl eq_refl). congruence.
Qed.

Lemma first_difference_some (rb_set : list Point) :
  forall i kd_set j a b,
    first_difference i rb_set kd_set = Some (j, a, b) ->
    Point_eqb a b = false /\ (i <= j)%nat
    /\ nth_error rb_set (j - i) = Some a /\ nth_error kd_set (j - i) = Some b.
Proof.
  induction rb_set as [|it1 rb IH]; intros i kd_set j a b H.
  - destruct kd_set; discriminate.
  - destruct kd_set as [|it2 kd]; simpl in H; [discriminate|].
    unfold Point_neqb in H. destruct (Point_eqb it1 it2) eqn:E; simpl in H.
    + destruct (IH _ _ _ _ _ H) as (H1 & H2 & H3 & H4).
      split; [exact H1|]. split; [lia|].
      replace (j - i)%nat with (S (j - S i)) by lia. split; assumption.
    + injection H as <- <- <-. rewrite Nat.sub_diag.
      repeat split; auto.
Qed.

(** X19.  The comparison loop of [main] reports a pair of elements only
    if they are at the same position of the two sets and differ by
    [operator!=]; it reports nothing exactly when all pairs at common
    positions are equal by [operator==].  So it reports nothing when one
    set is the other followed by further elements. *)
Theorem driver_comparison_blind :
  (forall i rb_set kd_set j a b,
      first_difference i rb_set kd_set = Some (j, a, b) ->
      Point_eqb a b = false /\ (i <= j)%nat
      /\ nth_error rb_set (j - i) = Some a /\ nth_error kd_set (j - i) = Some b)
  /\ (forall i rb_set kd_set,
         first_difference i rb_set kd_set = None <->
         forall n a b, nth_error rb_set n = Some a ->
                       nth_error kd_set n = Some b -> Point_eqb a b = true)
  /\ (forall i s more,
         first_difference i (s ++ more) s = None
         /\ first_difference i s (s ++ more) = None).
Proof.
  split; [intros; eapply first_difference_some; eauto|].
  split; [intros; apply first_difference_none|].
  intros i s more. split; apply first_difference_none; intros n a b Ha Hb.
  - assert (Hn : (n < length s)%nat)
      by (apply nth_error_Some; congruence).
    rewrite nth_error_app1 in Ha by exact Hn.
    assert (a = b) by congruence. subst. apply Point_eqb_refl.
  - assert (Hn : (n < length s)%nat)
      by (apply nth_error_Some; congruence).
    rewrite nth_error_app1 in Hb by exact Hn.
    assert (a = b) by congruence. subst. apply Point_eqb_refl.
Qed.

Lemma driver_comparison_blind_witness :
  Point_eqb pt_e2 pt_e1 = false.
Proof.
  refine (proj1 (proj1 driver_comparison_blind 1%nat [pt_e2; pt_e1] [pt_e1]
                   1%nat pt_e2 pt_e1 _)).
  vm_compute. reflexivity.
Defined.

(** ** The balance of the bulk build *)

Lemma insert_tree_independent (p : Point) (node : Node) :
  forall dep c c', fst (insert p node dep c) = fst (insert p node dep c').
Proof.
  induction node as [|lt IHl pt d rt IHr]; intros dep c c'.
  - reflexivity.
  - simpl. destruct (Point_eqb pt p); [reflexivity|].
    destruct (toLeft d p pt).
    + specialize (IHl (S dep) (Nat.max (fst c) dep, snd c)
                    (Nat.max (fst c') dep, snd c')).
      destruct (insert p lt (S dep) (Nat.max (fst c) dep, snd c)),
        (insert p lt (S dep) (Nat.max (fst c') dep, snd c')).
      simpl in *. congruence.
    + specialize (IHr (S dep) (Nat.max (fst c) dep, snd c)
                    (Nat.max (fst c') dep, snd c')).
      destruct (insert p rt (S dep) (Nat.max (fst c) dep, snd c)),
        (insert p rt (S dep) (Nat.max (fst c') dep, snd c')).
      simpl in *. congruence.
Qed.

Lemma grow_root (ins : list Point) :
  forall t, m_root (insert_all ins t) = grow ins (m_root t) 0.
Proof.
  induction ins as [|e ins IH]; intro t; simpl.
  - reflexivity.
  - rewrite IH. rewrite insert_root_eq. simpl.
    rewrite (insert_tree_independent e (m_root t) 0 _ (O, O)). reflexivity.
Qed.

Lemma grow_app (u v : list Point) (node : Node) (dep : nat) :
  grow (u ++ v) node dep = grow v (grow u node dep) dep.
Proof. unfold grow. apply fold_left_app. Qed.

Lemma grow_left (ins : list Point) :
  forall lt pt d rt dep,
    (forall e, In e ins -> Point_eqb pt e = false /\ toLeft d e pt = true) ->
    grow ins (mkNode lt pt d rt) dep = mkNode (grow ins lt (S dep)) pt d rt.
Proof.
  induction ins as [|e ins IH]; intros lt pt d rt dep H; [reflexivity|].
  destruct (H e (or_introl eq_refl)) as [H1 H2].
  cbn [grow fold_left insert]. rewrite H1, H2.
  pose proof (insert_tree_independent e lt (S dep)
                (Nat.max (fst (O, O)) dep, snd (O, O)) (O, O)) as Ei.
  destruct (insert e lt (S dep) (Nat.max (fst (O, O)) dep, snd (O, O)))
    as [lt1 c1].
  destruct (insert e lt (S dep) (O, O)) as [lt2 c2].
  simpl in Ei. subst lt2. cbn [fst].
  apply (IH lt1 pt d rt dep). intros e' He'. apply H. right. exact He'.
Qed.

Lemma grow_right (ins : list Point) :
  forall lt pt d rt dep,
    (forall e, In e ins -> Point_eqb pt e = false /\ toLeft d e pt = false) ->
    grow ins (mkNode lt pt d rt) dep = mkNode lt pt d (grow ins rt (S dep)).
Proof.
  induction ins as [|e ins IH]; intros lt pt d rt dep H; [reflexivity|].
  destruct (H e (or_introl eq_refl)) as [H1 H2].
  cbn [grow fold_left insert]. rewrite H1, H2.
  pose proof (insert_tree_independent e rt (S dep)
                (Nat.max (fst (O, O)) dep, snd (O, O)) (O, O)) as Ei.
  destruct (insert e rt (S dep) (Nat.max (fst (O, O)) dep, snd (O, O)))
    as [rt1 c1].
  destruct (insert e rt (S dep) (O, O)) as [rt2 c2].
  simpl in Ei. subst rt2. cbn [fst].
  apply (IH lt pt d rt1 dep). intros e' He'. apply H. right. exact He'.
Qed.

Lemma skipn_S_length_app {A : Type} (u v : list A) (a : A) :
  skipn (S (length u)) (u ++ a :: v) = v.
Proof. induction u; simpl; [reflexivity|assumption]. Qed.

(** [buildTree] inserts the points of its range in the order
    [build_order]. *)
Lemma buildTree_order (L : Library) :
  nth_element_permutes L ->
  forall fuel tree A B C depth,
    (length B <= fuel)%nat ->
    Permutation (build_order L fuel depth B) B
    /\ exists B',
         buildTree L fuel tree (A ++ B ++ C) (length A) (length A + length B)
           depth
         = (insert_all (build_order L fuel depth B) tree, A ++ B' ++ C)
         /\ Permutation B' B.
Proof.
  intros HL. induction fuel as [|fuel IH]; intros tree A B C depth Hf.
  - destruct B; [|simpl in Hf; lia].
    split; [constructor|]. exists []. split; [reflexivity|constructor].
  - cbn [buildTree build_order].
    destruct B as [|b0 B0] eqn:EB.
    + replace (length A + length (@nil Point) - length A <? 1)%nat with true
        by (symmetry; apply Nat.ltb_lt; simpl; lia).
      split; [constructor|]. exists []. split; [reflexivity|constructor].
    + rewrite <- EB in *.
      assert (HB : (0 < length B)%nat) by (subst B; simpl; lia).
      clear EB b0 B0.
      replace (length A + length B - length A <? 1)%nat with false
        by (symmetry; apply Nat.ltb_ge; lia).
      assert (Hm : ((length A + length B + length A) / 2
                    = length A + length B / 2)%nat).
      { replace (length A + length B + length A)%nat
          with (length A * 2 + length B)%nat by lia.
        rewrite Nat.div_add_l by lia. reflexivity. }
      rewrite Hm. rewrite nth_element_in_middle.
      replace (length A + length B / 2 - length A)%nat with (length B / 2)%nat
        by lia.
      set (N := nth_element L (axis_lt depth) B (length B / 2)).
      assert (HN : Permutation N B) by apply HL.
      assert (HlenN : length N = length B) by (apply Permutation_length; exact HN).
      assert (Hk : (length B / 2 < length N)%nat).
      { rewrite HlenN. apply Nat.div_lt; lia. }
      destruct (nth_error N (length B / 2)) as [mid|] eqn:Emid;
        [|apply nth_error_None in Emid; lia].
      destruct (nth_error_split _ _ Emid) as (N1 & N2 & EN & HlenN1).
      assert (Hnth : nth_error (A ++ N ++ C) (length A + length B / 2) = Some mid).
      { rewrite nth_error_app2 by lia.
        replace (length A + length B / 2 - length A)%nat with (length B / 2)%nat
          by lia.
        rewrite nth_error_app1 by lia. exact Emid. }
      rewrite Hnth.
      assert (HlenN12 : (length N1 + S (length N2) = length B)%nat).
      { rewrite <- HlenN, EN, length_app. simpl. reflexivity. }
      assert (F1 : firstn (length B / 2) N = N1).
      { rewrite EN, <- HlenN1. apply firstn_length_app. }
      assert (F2 : skipn (S (length B / 2)) N = N2).
      { rewrite EN, <- HlenN1. apply skipn_S_length_app. }
      rewrite F1, F2.
      destruct (IH (insert_root mid tree) A N1 (mid :: N2 ++ C) (S depth))
        as (P1 & N1' & E1 & Q1); [lia|].
      replace (A ++ N ++ C) with (A ++ N1 ++ mid :: N2 ++ C)
        by (rewrite EN, <- !app_assoc; reflexivity).
      rewrite <- HlenN1, E1.
      assert (HlenN1' : length N1' = length N1)
        by (apply Permutation_length; exact Q1).
      destruct (IH (insert_all (build_order L fuel (S depth) N1)
                      (insert_root mid tree))
                  (A ++ N1' ++ [mid]) N2 C (S depth))
        as (P2 & N2' & E2 & Q2); [lia|].
      replace (A ++ N1' ++ mid :: N2 ++ C) with ((A ++ N1' ++ [mid]) ++ N2 ++ C)
        by (rewrite <- !app_assoc; reflexivity).
      replace (S (length A + length N1))%nat with (length (A ++ N1' ++ [mid]))
        by (rewrite !length_app; simpl; lia).
      replace (length A + length B)%nat
        with (length (A ++ N1' ++ [mid]) + length N2)%nat
        by (rewrite !length_app; simpl; lia).
      rewrite E2. split.
      * rewrite <- HN, EN. apply Permutation_cons_app.
        apply Permutation_app; assumption.
      * exists (N1' ++ mid :: N2'). split.
        -- f_equal.
           ++ change (mid :: build_order L fuel (S depth) N1
                        ++ build_order L fuel (S depth) N2)
                with ([mid] ++ build_order L fuel (S depth) N1
                        ++ build_order L fuel (S depth) N2).
              rewrite !insert_all_app. reflexivity.
           ++ rewrite <- !app_assoc. reflexivity.
        -- rewrite <- HN, EN.
           apply Permutation_app; [assumption|]. constructor. assumption.
Qed.

Lemma build_in_order (L : Library) (points : list Point) :
  nth_element_permutes L ->
  m_root (PointSet_of L points)
  = grow (build_order L (length points) 0 points) nullptr 0.
Proof.
  intro HL.
  destruct (buildTree_order L HL (length points) empty_set [] points [] 0
              (le_n _)) as (_ & B' & E & _).
  unfold PointSet_of, build. simpl in E. rewrite app_nil_r in E. rewrite E.
  simpl. apply grow_root.
Qed.

Lemma axis_lt_split (d : nat) (a b : Point) :
  axis_lt d a b = Qltb (split_coord d a) (split_coord d b).
Proof. unfold axis_lt, split_coord. destruct (Nat.even d); reflexivity. Qed.

Lemma separated_permutation (u v : list Point) :
  Permutation u v -> separated u -> separated v.
Proof.
  intros P [N H]. split.
  - eapply Permutation_NoDup; eauto.
  - intros a b Ha Hb.
    apply H; [apply (Permutation_in _ (Permutation_sym P)); exact Ha
             |apply (Permutation_in _ (Permutation_sym P)); exact Hb].
Qed.

Lemma separated_parts (u v : list Point) (m : Point) :
  separated (u ++ m :: v) ->
  separated u /\ separated v
  /\ forall e, In e u \/ In e v ->
               ~ x m == x e /\ ~ y m == y e /\ Point_eqb m e = false.
Proof.
  intros [N H]. split; [|split].
  - split; [exact (NoDup_app_remove_r _ _ N)|].
    intros a b Ha Hb. apply H; apply in_or_app; left; assumption.
  - pose proof (NoDup_app_remove_l _ _ N) as N'.
    inversion N' as [|? ? _ Nv]; subst. split; [exact Nv|].
    intros a b Ha Hb. apply H; apply in_or_app; right; right; assumption.
  - intros e He. apply H.
    + apply in_elt.
    + apply in_or_app. destruct He; [left|right; right]; assumption.
    + intros ->. apply (NoDup_remove_2 _ _ _ N). apply in_or_app. exact He.
Qed.

Lemma build_order_permutation (L : Library) (fuel depth : nat) (B : list Point) :
  nth_element_permutes L -> (length B <= fuel)%nat ->
  Permutation (build_order L fuel depth B) B.
Proof.
  intros HL Hf.
  exact (proj1 (buildTree_order L HL fuel empty_set [] B [] depth Hf)).
Qed.

Lemma log2_half (n : nat) : (1 <= n / 2 -> S (Nat.log2 (n / 2)) <= Nat.log2 n)%nat.
Proof.
  intro H. rewrite <- Nat.log2_double by lia. apply Nat.log2_le_mono.
  pose proof (Nat.div_mod_eq n 2). lia.
Qed.

(** The subtree that [buildTree] makes of a range of separated points
    holds them all and is as shallow as a balanced tree. *)
Lemma build_order_shape (L : Library) :
  nth_element_permutes L ->
  nth_element_partitions L ->
  forall fuel depth B,
    (length B <= fuel)%nat ->
    separated B ->
    count (grow (build_order L fuel depth B) nullptr depth) = length B
    /\ (B <> [] ->
        (deepest (grow (build_order L fuel depth B) nullptr depth)
         <= depth + Nat.log2 (length B))%nat).
Proof.
  intros HL HP. induction fuel as [|fuel IH]; intros depth B Hf Sep.
  - destruct B; [|simpl in Hf; lia]. simpl. split; [reflexivity|congruence].
  - destruct B as [|b0 B0] eqn:EB; [simpl; split; [reflexivity|congruence]|].
    rewrite <- EB in *.
    assert (HB : (0 < length B)%nat) by (subst B; simpl; lia).
    assert (Eo : build_order L (S fuel) depth B
                 = match nth_error (nth_element L (axis_lt depth) B (length B / 2))
                           (length B / 2) with
                   | None => []
                   | Some m =>
                       m :: build_order L fuel (S depth)
                              (firstn (length B / 2)
                                 (nth_element L (axis_lt depth) B (length B / 2)))
                         ++ build_order L fuel (S depth)
                              (skipn (S (length B / 2))
                                 (nth_element L (axis_lt depth) B (length B / 2)))
                   end).
    { rewrite EB. reflexivity. }
    rewrite Eo. clear Eo EB b0 B0.
    set (N := nth_element L (axis_lt depth) B (length B / 2)).
    assert (HN : Permutation N B) by apply HL.
    assert (HlenN : length N = length B) by (apply Permutation_length; exact HN).
    assert (Hk : (length B / 2 < length N)%nat).
    { rewrite HlenN. apply Nat.div_lt; lia. }
    destruct (nth_error N (length B / 2)) as [mid|] eqn:Emid;
      [|apply nth_error_None in Emid; lia].
    destruct (nth_error_split _ _ Emid) as (N1 & N2 & EN & HlenN1).
    assert (HlenN12 : (length N1 + S (length N2) = length B)%nat).
    { rewrite <- HlenN, EN, length_app. simpl. reflexivity. }
    assert (F1 : firstn (length B / 2) N = N1).
    { rewrite EN, <- HlenN1. apply firstn_length_app. }
    assert (F2 : skipn (S (length B / 2)) N = N2).
    { rewrite EN, <- HlenN1. apply skipn_S_length_app. }
    rewrite F1, F2.
    destruct (HP depth B (length B / 2)%nat N1 mid N2 EN HlenN1) as [Pl Pr].
    assert (SN : separated (N1 ++ mid :: N2)).
    { rewrite <- EN. eapply separated_permutation; [symmetry; exact HN|exact Sep]. }
    destruct (separated_parts _ _ _ SN) as (S1 & S2 & Sm).
    pose proof (build_order_permutation L fuel (S depth) N1 HL
                  ltac:(lia)) as O1.
    pose proof (build_order_permutation L fuel (S depth) N2 HL
                  ltac:(lia)) as O2.
    set (o1 := build_order L fuel (S depth) N1) in *.
    set (o2 := build_order L fuel (S depth) N2) in *.
    assert (G : grow (mid :: o1 ++ o2) nullptr depth
                = mkNode (grow o1 nullptr (S depth)) mid depth
                    (grow o2 nullptr (S depth))).
    { change (grow (mid :: o1 ++ o2) nullptr depth)
        with (grow (o1 ++ o2) (mkNode nullptr mid depth nullptr) depth).
      rewrite grow_app. rewrite grow_left.
      - rewrite grow_right; [reflexivity|].
        intros e He. apply (Permutation_in _ O2) in He.
        destruct (Sm e (or_intror He)) as (Dx & Dy & De). split; [exact De|].
        apply toLeft_false. specialize (Pr e He).
        rewrite axis_lt_split in Pr. apply Qltb_ge in Pr.
        unfold split_coord in *. destruct (Nat.even depth); lra.
      - intros e He. apply (Permutation_in _ O1) in He.
        destruct (Sm e (or_introl He)) as (_ & _ & De). split; [exact De|].
        apply toLeft_true. specialize (Pl e He).
        rewrite axis_lt_split in Pl. apply Qltb_ge in Pl. exact Pl. }
    rewrite G.
    destruct (IH (S depth) N1 ltac:(lia) S1) as [C1 D1].
    destruct (IH (S depth) N2 ltac:(lia) S2) as [C2 D2].
    fold o1 in C1, D1. fold o2 in C2, D2.
    split; [simpl; lia|]. intros _. simpl.
    assert (B1 : (deepest (grow o1 nullptr (S depth))
                  <= depth + Nat.log2 (length B))%nat).
    { destruct N1 as [|n1 N1'] eqn:E1.
      - assert (Z : o1 = []) by (apply Permutation_nil; symmetry; exact O1).
        rewrite Z. simpl. lia.
      - rewrite <- E1 in *.
        assert (Hh : (1 <= length B / 2)%nat)
          by (rewrite <- HlenN1, E1; simpl; lia).
        pose proof (log2_half (length B) Hh).
        specialize (D1 ltac:(rewrite E1; discriminate)).
        rewrite HlenN1 in D1. lia. }
    assert (B2 : (deepest (grow o2 nullptr (S depth))
                  <= depth + Nat.log2 (length B))%nat).
    { destruct N2 as [|n2 N2'] eqn:E2.
      - assert (Z : o2 = []) by (apply Permutation_nil; symmetry; exact O2).
        rewrite Z. simpl. lia.
      - rewrite <- E2 in *.
        assert (Hn2 : (1 <= length N2)%nat) by (rewrite E2; simpl; lia).
        assert (Hle : (length N2 <= length B / 2)%nat).
        { pose proof (Nat.div_mod_eq (length B) 2).
          pose proof (Nat.mod_upper_bound (length B) 2). lia. }
        pose proof (log2_half (length B) ltac:(lia)).
        pose proof (Nat.log2_le_mono _ _ Hle).
        specialize (D2 ltac:(rewrite E2; discriminate)). lia. }
    lia.
Qed.

(** X20.  Bulk build of separated points (pairwise different in [x], in
    [y] and by [operator==]), with a [std::nth_element] that partitions as
    the standard says: the set holds exactly the points given, and its
    depth is at most the binary logarithm of their number. *)
Theorem bulk_build_balanced (L : Library) (points : list Point) :
  nth_element_permutes L ->
  nth_element_partitions L ->
  separated points ->
  let t := PointSet_of L points in
  size t = length points
  /\ (forall q, In q points <-> In q (stored t))
  /\ (max_depth t <= Nat.log2 (length points))%nat.
Proof.
  intros HL HP Sep t.
  pose proof (well_formed_build L empty_set points HL well_formed_empty) as W.
  fold (PointSet_of L points) in W. fold t in W.
  destruct (build_order_shape L HL HP (length points) 0 points (le_n _) Sep)
    as [C D].
  rewrite <- (build_in_order L points HL) in C, D. fold t in C, D.
  assert (Hsize : size t = length points).
  { unfold size. rewrite (wf_size t W). exact C. }
  split; [exact Hsize|]. split.
  - intro q. split.
    + assert (I : incl points (stored t)).
      { apply NoDup_length_incl.
        - apply (nodup_reachable L true t HL). apply Reachable_ctor.
        - unfold stored. rewrite <- count_length, C. apply le_n.
        - intros e He. apply (stored_build L points e HL He). }
      apply I.
    + apply (stored_build L points q HL).
  - rewrite (wf_depth t W). destruct points as [|p points'] eqn:E.
    + unfold t, PointSet_of. simpl. lia.
    + rewrite <- E in *. specialize (D ltac:(rewrite E; discriminate)). lia.
Qed.

(** [small_library] partitions: its [nth_element] sorts. *)
Lemma insert_sorted_ordered (d : nat) (a : Point) (v : list Point) :
  StronglySorted (fun p q => split_coord d p <= split_coord d q) v ->
  StronglySorted (fun p q => split_coord d p <= split_coord d q)
    (insert_sorted (axis_lt d) a v).
Proof.
  induction v as [|e v IH]; intro S; simpl.
  - repeat constructor.
  - inversion S as [|? ? Sv Fe]; subst.
    rewrite axis_lt_split. destruct (Qltb (split_coord d e) (split_coord d a)) eqn:E.
    + apply Qltb_lt in E. constructor; [apply IH; exact Sv|].
      eapply Permutation_Forall;
        [symmetry; apply insert_sorted_permutation|].
      constructor; [lra|exact Fe].
    + apply Qltb_ge in E. constructor; [exact S|].
      constructor; [exact E|].
      eapply Forall_impl; [|exact Fe]. simpl. intros c Hc. lra.
Qed.

Lemma insertion_sort_ordered (d : nat) (v : list Point) :
  StronglySorted (fun p q => split_coord d p <= split_coord d q)
    (insertion_sort (axis_lt d) v).
Proof.
  induction v as [|e v IH]; simpl.
  - constructor.
  - apply insert_sorted_ordered. exact IH.
Qed.

Lemma sorted_around (d : nat) (before after : list Point) (m : Point) :
  StronglySorted (fun p q => split_coord d p <= split_coord d q)
    (before ++ m :: after) ->
  (forall e, In e before -> split_coord d e <= split_coord d m)
  /\ (forall e, In e after -> split_coord d m <= split_coord d e).
Proof.
  induction before as [|b before IH]; simpl; intro S.
  - inversion S as [|? ? _ F]; subst. split; [intros e []|].
    intros e He. rewrite Forall_forall in F. apply F. exact He.
  - inversion S as [|? ? S' F]; subst. destruct (IH S') as [H1 H2].
    split; [|exact H2]. intros e [<-|He]; [|apply H1; exact He].
    rewrite Forall_forall in F. apply F. apply in_elt.
Qed.

Lemma small_library_partitions : nth_element_partitions small_library.
Proof.
  intros depth v n before m after E _. simpl in E.
  pose proof (insertion_sort_ordered depth v) as S. rewrite E in S.
  destruct (sorted_around _ _ _ _ S) as [H1 H2].
  split; intros e He; rewrite axis_lt_split; apply Qltb_ge; auto.
Defined.

Lemma three_points_separated : separated three_points.
Proof.
  split.
  - repeat constructor; simpl; intuition discriminate.
  - intros a b Ha Hb Hab. simpl in Ha, Hb.
    destruct Ha as [<-|[<-|[<-|[]]]]; destruct Hb as [<-|[<-|[<-|[]]]];
      try congruence;
      (split; [intro Q; discriminate Q|split; [intro Q; discriminate Q|reflexivity]]).
Defined.

Lemma bulk_build_balanced_witness :
  (max_depth (PointSet_of small_library three_points) <= 1)%nat.
Proof.
  exact (proj2 (proj2 (bulk_build_balanced small_library three_points
                         small_library_permutes small_library_partitions
                         three_points_separated))).
Defined.
